(** * The cabinet command: query pipeline, pagination and session lifecycle

    A shallow embedding of [src/cabinet.js] and the properties its
    specification states about it.

    Layout: the host (JavaScript) operations the command relies on, the
    embedding of the command's functions, the formulas of the
    specification and the predicates that read the embedding, sample data,
    and then the lemmas and theorems. *)

From Stdlib Require Import ZArith NArith QArith Qround List Lia DecimalString DecimalNat.
From stdpp Require Import strings gmap list sorting.

Local Open Scope Z_scope.

(* ===================================================================== *)
(** * Host layer: the JavaScript operations the command calls            *)
(* ===================================================================== *)

(** A JavaScript string is a sequence of UTF-16 code units; [length],
    [slice] and [includes] all count code units. *)
Abbreviation jsstring := (list N).

(** A string literal made of ASCII characters. *)
Fixpoint lit (s : string) : jsstring :=
  match s with
  | EmptyString => []
  | String a r => Ascii.N_of_ascii a :: lit r
  end.

(** Exceptions.  The only one the modelled code can raise by itself is the
    [TypeError] of a method call on [undefined]. *)
Inductive exn := TypeError.

Inductive result (A : Type) : Type :=
| Ok (a : A)
| Throw (e : exn).
Arguments Ok {A} a.
Arguments Throw {A} e.

#[global] Instance result_ret : MRet result := @Ok.
#[global] Instance result_bind : MBind result := fun A B f r =>
  match r with
  | Ok a => f a
  | Throw e => Throw e
  end.

(** A property read such as [card.name]: [None] is [undefined] (the field
    is missing from the record), [Some s] is a string. *)
Abbreviation jsfield := (option jsstring).

(** [v.method()] first needs [v] to be an object: on [undefined] the call
    throws. *)
Definition receiver (v : jsfield) : result jsstring :=
  match v with
  | Some s => Ok s
  | None => Throw TypeError
  end.

(** Truthiness of a field: [undefined] and the empty string are falsy. *)
Definition truthy (v : jsfield) : bool :=
  match v with
  | Some (_ :: _) => true
  | _ => false
  end.

(** [`${v}`] and the [ToString] of an argument: [undefined] prints as the
    nine letters of its name. *)
Definition templateString (v : jsfield) : jsstring :=
  match v with
  | Some s => s
  | None => lit "undefined"
  end.

(** [String.prototype.toLowerCase] and [toUpperCase] on ASCII letters.
    Code units outside [A-Z] (resp. [a-z]) are left alone: the model covers
    text whose letters are ASCII. *)
Definition lowerUnit (c : N) : N :=
  if ((65 <=? c) && (c <=? 90))%N then (c + 32)%N else c.
Definition upperUnit (c : N) : N :=
  if ((97 <=? c) && (c <=? 122))%N then (c - 32)%N else c.
Definition toLowerCase (s : jsstring) : jsstring := lowerUnit <$> s.
Definition toUpperCase (s : jsstring) : jsstring := upperUnit <$> s.

(** [s.startsWith(t)] and [s.includes(t)]: [t] occurs in [s] as a
    contiguous run of code units. *)
Fixpoint startsWith (s t : jsstring) : bool :=
  match t, s with
  | [], _ => true
  | _ :: _, [] => false
  | y :: t', x :: s' => (x =? y)%N && startsWith s' t'
  end.

Fixpoint includes (s t : jsstring) : bool :=
  startsWith s t ||
  match s with
  | [] => false
  | _ :: s' => includes s' t
  end.

(** White space as [String.prototype.trim] sees it: the WhiteSpace and
    LineTerminator code points. *)
Definition isWhiteSpace (c : N) : bool :=
  ((9 <=? c) && (c <=? 13) || (c =? 32) || (c =? 160) || (c =? 5760) ||
   (8192 <=? c) && (c <=? 8202) || (c =? 8232) || (c =? 8233) ||
   (c =? 8239) || (c =? 8287) || (c =? 12288) || (c =? 65279))%N.

Fixpoint trimStart (s : jsstring) : jsstring :=
  match s with
  | c :: s' => if isWhiteSpace c then trimStart s' else s
  | [] => []
  end.
Definition trimEnd (s : jsstring) : jsstring := reverse (trimStart (reverse s)).
Definition trim (s : jsstring) : jsstring := trimEnd (trimStart s).

(** [x.slice(b, e)] on strings and arrays: a negative index counts from the
    end, indices are clamped to the length. *)
Definition sliceIndex (len k : Z) : nat :=
  Z.to_nat (if k <? 0 then Z.max 0 (len + k) else Z.min k len).
Definition slice {A} (l : list A) (b e : Z) : list A :=
  let len := Z.of_nat (length l) in
  let from := sliceIndex len b in
  take (sliceIndex len e - from)%nat (drop from l).

(** [`${n}`] for a non-negative integer: its decimal digits. *)
Definition numberToString (n : nat) : jsstring :=
  lit (NilEmpty.string_of_uint (Nat.to_uint n)).

(** ** [String.prototype.localeCompare]

    The runtime compares with the Unicode collation algorithm at its default
    strength: first the strings are compared by their letters alone
    (primary level, case ignored, punctuation before digits before letters);
    only if that is a tie the first difference of case decides, lower case
    first (tertiary level).  The model gives each ASCII code unit a primary
    weight and a case weight and compares the two weight sequences in that
    order; other code units weigh as their own value. *)
Definition primaryWeight (c : N) : N :=
  let l := lowerUnit c in
  if ((97 <=? l) && (l <=? 122))%N then (2000 + l)%N
  else if ((48 <=? c) && (c <=? 57))%N then (1000 + c)%N
  else if (c <? 128)%N then c
  else (3000 + c)%N.
Definition caseWeight (c : N) : N :=
  if ((65 <=? c) && (c <=? 90))%N then 1%N else 0%N.

Fixpoint lexCompare (a b : list N) : comparison :=
  match a, b with
  | [], [] => Eq
  | [], _ :: _ => Lt
  | _ :: _, [] => Gt
  | x :: a', y :: b' =>
      match (x ?= y)%N with
      | Eq => lexCompare a' b'
      | c => c
      end
  end.

Definition collate (a b : jsstring) : comparison :=
  match lexCompare (primaryWeight <$> a) (primaryWeight <$> b) with
  | Eq => lexCompare (caseWeight <$> a) (caseWeight <$> b)
  | c => c
  end.

Definition localeCompare (a b : jsstring) : Z :=
  match collate a b with
  | Lt => -1
  | Eq => 0
  | Gt => 1
  end.

(** ** Numbers that may be [NaN]

    [None] is [NaN]: what arithmetic on [undefined] gives. *)
Abbreviation jsnum := (option Z).

Definition jsminus (x y : jsnum) : jsnum :=
  match x, y with
  | Some a, Some b => Some (a - b)
  | _, _ => None
  end.

(** Truthiness of a number: [0] and [NaN] are falsy. *)
Definition truthyNum (x : jsnum) : bool :=
  match x with
  | Some z => negb (z =? 0)
  | None => false
  end.

(** [Math.ceil(a / b)] for integers [a] and [b > 0].  The double-precision
    quotient of two array-size integers is close enough to the real one for
    the ceiling to be exact, so integer arithmetic gives the same result. *)
Definition ceilDiv (a b : Z) : Z := (a + b - 1) / b.

(** ** Keys of an ordinary object

    An array index is the canonical decimal spelling of an integer up to
    [2^32 - 2]; [Object.entries] lists such keys first, in ascending numeric
    order, and the other keys after them in the order of their creation. *)
Definition isDigit (c : N) : bool := ((48 <=? c) && (c <=? 57))%N.

Definition decimalValue (s : jsstring) : N :=
  foldl (fun acc c => (10 * acc + (c - 48))%N) 0%N s.

Definition arrayIndex (k : jsstring) : option N :=
  match k with
  | [] => None
  | c :: r =>
      if forallb isDigit k
         && (negb (c =? 48)%N || bool_decide (r = []))
         && (length k <=? 10)%nat
         && (decimalValue k <=? 4294967294)%N
      then Some (decimalValue k) else None
  end.

(** The keys every object literal inherits from [Object.prototype] and that
    a lower-cased string can spell: reading them on a fresh [{}] gives a
    non-empty value that is neither a number nor an array. *)
Definition inheritedKey (k : jsstring) : bool :=
  bool_decide (k = lit "constructor") || bool_decide (k = lit "__proto__").

(** ** [parseInt] on a run of digits

    A number is a double.  On a run of decimal digits [parseInt] returns
    the double nearest to the integer the digits spell, ties going to the
    even significand: an integer again, or [Infinity] from
    [2^1024 - 2^970] on.  Up to [2^53] every integer is its own double. *)
Inductive jsinteger :=
| Finite (z : Z)
| Infinity.

#[global] Instance jsinteger_eq_dec : EqDecision jsinteger.
Proof. solve_decision. Defined.

Definition roundToDouble (n : N) : jsinteger :=
  let bits := N.size n in
  if (bits <=? 53)%N then Finite (Z.of_N n)
  else
    let e := (bits - 53)%N in
    let q := N.shiftr n e in
    let r := N.land n (N.ones e) in
    let half := N.shiftl 1 (e - 1) in
    let q' := if (half <? r)%N || ((r =? half)%N && N.odd q) then (q + 1)%N else q in
    let v := N.shiftl q' e in
    if (N.size v <=? 1024)%N then Finite (Z.of_N v) else Infinity.

Definition parseInt (digits : jsstring) : jsinteger := roundToDouble (decimalValue digits).

(** [x > 0 ? x : 1] on such a number. *)
Definition positiveOrOne (x : jsinteger) : jsinteger :=
  match x with
  | Finite z => if 0 <? z then Finite z else Finite 1
  | Infinity => Infinity
  end.

(** ** Array methods whose callback may throw

    [filter], [every] and [some] call the callback on the elements in
    order; the first exception ends the whole call. *)
Fixpoint every {A} (p : A → result bool) (l : list A) : result bool :=
  match l with
  | [] => Ok true
  | x :: l' => b ← p x; if b : bool then every p l' else Ok false
  end.

Fixpoint some {A} (p : A → result bool) (l : list A) : result bool :=
  match l with
  | [] => Ok false
  | x :: l' => b ← p x; if b : bool then Ok true else some p l'
  end.

Fixpoint filterM {A} (p : A → result bool) (l : list A) : result (list A) :=
  match l with
  | [] => Ok []
  | x :: l' =>
      b ← p x;
      r ← filterM p l';
      Ok (if b : bool then x :: r else r)
  end.

(** [x || y] on conditions: [y] is evaluated only when [x] is false. *)
Definition orElse (x y : result bool) : result bool :=
  b ← x; if b : bool then Ok true else y.
Infix "<||>" := orElse (at level 51, right associativity).

(* ===================================================================== *)
(** * The command                                                        *)
(* ===================================================================== *)

Definition PAGE_SIZE : Z := 12.
Definition COLLECTOR_TIMEOUT : Z := 300000.

(** A record as [fetchUserCards] returns it ([.lean()] gives plain objects
    with the selected fields that the stored document has).  [cardWellness]
    is selected too but no function below reads it. *)
Record card := Card {
  name : jsfield;
  group : jsfield;
  rarity : jsfield;
  imageURL : jsfield;
  condition : jsfield;
  cardCode : jsfield
}.

#[global] Instance card_eq_dec : EqDecision card.
Proof. solve_decision. Defined.

(** The [options] object of [parseArguments]. *)
Record options := Options {
  searchTerms : list jsstring;
  excludeTerms : list jsstring;
  userId : jsstring;
  page : jsinteger;
  showDuplicates : bool
}.

#[global] Instance options_eq_dec : EqDecision options.
Proof. solve_decision. Defined.

(** ** Argument parsing *)

(** The digits at the head of a text. *)
Fixpoint digitRun (s : jsstring) : jsstring :=
  match s with
  | c :: r => if isDigit c then c :: digitRun r else []
  | [] => []
  end.

(** [arg.match(/\d+/)]: the first run of digits, if the text has a
    digit. *)
Fixpoint firstDigits (s : jsstring) : option jsstring :=
  match s with
  | [] => None
  | c :: r => if isDigit c then Some (c :: digitRun r) else firstDigits r
  end.

(** [/^(page:|p:|#)(\d+)$/i.test(arg)], and the digits that
    [arg.match(/(\d+)$/)] then finds: one of the three prefixes in any
    case, followed by digits only, and at least one. *)
Definition digitsOnly (s : jsstring) : option jsstring :=
  if negb (bool_decide (s = [])) && forallb isDigit s then Some s else None.

Definition pageDigits (arg : jsstring) : option jsstring :=
  let folded := toLowerCase arg in
  if startsWith folded (lit "page:") then digitsOnly (drop 5 arg)
  else if startsWith folded (lit "p:") then digitsOnly (drop 2 arg)
  else if startsWith folded (lit "#") then digitsOnly (drop 1 arg)
  else None.

(** The words that ask for duplicates (the quotation marks around them
    are mis-encoded in the file). *)
Definition duplicateWords : list jsstring :=
  [lit "duplicates"; lit "dupes"; lit "dupe"].

(** The body of the loop of [parseArguments]. *)
Definition parseArgument (opts : options) (arg : jsstring) : options :=
  if startsWith arg (lit "<@") then
    match firstDigits arg with
    | Some id => Options (searchTerms opts) (excludeTerms opts) id (page opts)
                         (showDuplicates opts)
    | None => opts
    end
  else
    match pageDigits arg with
    | Some digits =>
        let pageNum := parseInt digits in
        Options (searchTerms opts) (excludeTerms opts) (userId opts)
                (positiveOrOne pageNum) (showDuplicates opts)
    | None =>
        if bool_decide (toLowerCase arg ∈ duplicateWords) then
          Options (searchTerms opts) (excludeTerms opts) (userId opts) (page opts) true
        else if startsWith arg (lit "-") then
          Options (searchTerms opts) (excludeTerms opts ++ [toLowerCase (drop 1 arg)])
                  (userId opts) (page opts) (showDuplicates opts)
        else
          Options (searchTerms opts ++ [toLowerCase arg]) (excludeTerms opts)
                  (userId opts) (page opts) (showDuplicates opts)
    end.

Definition parseArguments (args : list jsstring) (defaultUserId : jsstring) : options :=
  foldl parseArgument (Options [] [] defaultUserId (Finite 1) false) args.

(** ** Query engine *)

(** [isValidCard]: the four fields are present and not empty. *)
Definition isValidCard (c : card) : bool :=
  truthy (name c) && truthy (group c) && truthy (rarity c) && truthy (condition c).

(** [card.f.toLowerCase().includes(term)] *)
Definition lowerIncludes (v : jsfield) (term : jsstring) : result bool :=
  s ← receiver v; Ok (includes (toLowerCase s) term).

Definition cardMatchesTerm (c : card) (term : jsstring) : result bool :=
  lowerIncludes (name c) term <||>
  lowerIncludes (group c) term <||>
  lowerIncludes (rarity c) term <||>
  lowerIncludes (condition c) term <||>
  lowerIncludes (cardCode c) term.

Definition matchesSearch (c : card) (terms : list jsstring) : result bool :=
  some (fun term =>
    lowerIncludes (name c) term <||>
    lowerIncludes (group c) term <||>
    lowerIncludes (rarity c) term <||>
    lowerIncludes (condition c) term <||>
    lowerIncludes (cardCode c) term) terms.

(** [findDuplicates]: a [Map] from [`${card.imageURL}`] to the number of
    cards with that key, then the [Set] of the keys counted more than
    once. *)
Definition countKey (counts : gmap jsstring nat) (c : card) : gmap jsstring nat :=
  let key := templateString (imageURL c) in
  <[key := (default 0 (counts !! key) + 1)%nat]> counts.

Definition findDuplicates (cards : list card) : gset jsstring :=
  let counts := foldl countKey ∅ cards in
  dom (filter (fun kv => (1 < kv.2)%nat) counts).

(** [duplicates.has(card.imageURL)]: the set holds strings only, so a
    missing [imageURL] is never found in it. *)
Definition hasImage (duplicates : gset jsstring) (c : card) : bool :=
  match imageURL c with
  | Some k => bool_decide (k ∈ duplicates)
  | None => false
  end.

(** The two rank tables of [sortCards].  A key that is not in the table
    reads as [undefined] (the inherited keys read as objects): in both
    cases the subtraction gives [NaN]. *)
Definition RARITY_ORDER (k : jsstring) : jsnum :=
  if decide (k = lit "mythic") then Some 4
  else if decide (k = lit "glyph") then Some 3
  else if decide (k = lit "unique") then Some 2
  else if decide (k = lit "standard") then Some 1
  else None.

Definition CONDITION_ORDER (k : jsstring) : jsnum :=
  if decide (k = lit "pristine") then Some 1
  else if decide (k = lit "mint") then Some 2
  else if decide (k = lit "good") then Some 3
  else if decide (k = lit "worn") then Some 4
  else if decide (k = lit "damaged") then Some 5
  else None.

(** The comparator of [sortCards]: the first operand of the [||] chain
    that is neither [0] nor [NaN]; the last operand when there is none. *)
Definition compareCards (a b : card) : result Z :=
  rb ← receiver (rarity b);
  ra ← receiver (rarity a);
  let byRarity := jsminus (RARITY_ORDER (toLowerCase rb)) (RARITY_ORDER (toLowerCase ra)) in
  if truthyNum byRarity then Ok (default 0 byRarity) else
  ca ← receiver (condition a);
  cb ← receiver (condition b);
  let byCondition := jsminus (CONDITION_ORDER (toLowerCase ca)) (CONDITION_ORDER (toLowerCase cb)) in
  if truthyNum byCondition then Ok (default 0 byCondition) else
  ga ← receiver (group a);
  let byGroup := localeCompare ga (templateString (group b)) in
  if negb (byGroup =? 0) then Ok byGroup else
  na ← receiver (name a);
  Ok (localeCompare na (templateString (name b))).

(** [[...cards].sort(compare)].  [Array.prototype.sort] is stable; for a
    comparator that is a consistent order its result is the one stable
    ordering of the input, which the insertion below computes: an element
    goes in front of the first later element it does not exceed.  (For an
    inconsistent comparator the runtime fixes no order.) *)
Fixpoint insertCard (x : card) (l : list card) : result (list card) :=
  match l with
  | [] => Ok [x]
  | y :: l' =>
      v ← compareCards x y;
      if v <=? 0 then Ok (x :: y :: l')
      else r ← insertCard x l'; Ok (y :: r)
  end.

Fixpoint sortCards (cards : list card) : result (list card) :=
  match cards with
  | [] => Ok []
  | x :: l => sorted ← sortCards l; insertCard x sorted
  end.

(** The three conditional filters of [processCards], in source order. *)
Definition includeFilter (expandedSearchTerms : list jsstring) (filtered : list card)
  : result (list card) :=
  if bool_decide (expandedSearchTerms = []) then Ok filtered
  else filterM (fun c => every (cardMatchesTerm c) expandedSearchTerms) filtered.

Definition excludeFilter (expandedExcludeTerms : list jsstring) (filtered : list card)
  : result (list card) :=
  if bool_decide (expandedExcludeTerms = []) then Ok filtered
  else filterM (fun c => b ← matchesSearch c expandedExcludeTerms; Ok (negb b)) filtered.

Definition duplicatesFilter (showDups : bool) (filtered : list card) : list card :=
  if showDups then
    let duplicates := findDuplicates filtered in
    filter (fun c => hasImage duplicates c) filtered
  else filtered.

Section ProcessCards.
(** [searchAliases.expandAll], from the alias configuration. *)
Variable expandAll : list jsstring → list jsstring.

Definition processCards (cards : list card) (opts : options) : result (list card) :=
  let filtered := filter (fun c => isValidCard c) cards in
  let expandedSearchTerms := expandAll (searchTerms opts) in
  let expandedExcludeTerms := expandAll (excludeTerms opts) in
  filtered ← includeFilter expandedSearchTerms filtered;
  filtered ← excludeFilter expandedExcludeTerms filtered;
  let filtered := duplicatesFilter (showDuplicates opts) filtered in
  sortCards filtered.
End ProcessCards.

(** ** Pagination *)

Record pagination := Pagination {
  currentPage : Z;
  totalPages : Z;
  pageSize : Z
}.

(** [page || 1]: page [0] reads as [1]. *)
Definition orOne (p : Z) : Z := if p =? 0 then 1 else p.

Definition calculatePagination (cards : list card) (page : Z) : pagination :=
  let totalPages := Z.max 1 (ceilDiv (Z.of_nat (length cards)) PAGE_SIZE) in
  let currentPage := Z.max 1 (Z.min (orOne page) totalPages) in
  Pagination currentPage totalPages PAGE_SIZE.

(** ** Page description *)

(** The [grouped] object of [buildCardDescription]: its own keys in the
    order of their creation, each with the array pushed so far. *)
Abbreviation groups := (list (jsstring * list card)).

(** [if (!grouped[k]) grouped[k] = []; grouped[k].push(card)] for a key
    that [{}] does not inherit. *)
Fixpoint groupPush (key : jsstring) (c : card) (grouped : groups) : groups :=
  match grouped with
  | [] => [(key, [c])]
  | (k, cs) :: rest =>
      if decide (k = key) then (k, cs ++ [c]) :: rest
      else (k, cs) :: groupPush key c rest
  end.

(** The [forEach] that fills [grouped].  For an inherited key
    [grouped[k]] is already truthy, stays what it is, and has no [push]:
    the call throws. *)
Fixpoint groupByRarity (cards : list card) (grouped : groups) : result groups :=
  match cards with
  | [] => Ok grouped
  | c :: rest =>
      r ← receiver (rarity c);
      let rarityKey := toLowerCase r in
      if inheritedKey rarityKey then Throw TypeError
      else groupByRarity rest (groupPush rarityKey c grouped)
  end.

Fixpoint insertIndexed (e : N * (jsstring * list card)) (l : list (N * (jsstring * list card)))
  : list (N * (jsstring * list card)) :=
  match l with
  | [] => [e]
  | y :: l' => if (e.1 <=? y.1)%N then e :: l else y :: insertIndexed e l'
  end.

(** [Object.entries(grouped)] *)
Definition objectEntries (grouped : groups) : groups :=
  let indexed := omap (fun e => (fun i => (i, e)) <$> arrayIndex e.1) grouped in
  let named := filter (fun e => arrayIndex e.1 = None) grouped in
  (snd <$> foldr insertIndexed [] indexed) ++ named.

(** The two separators of a card line, as the source file spells them. *)
Definition bulletMark : jsstring := [8218; 196; 162]%N.
Definition dashMark : jsstring := [8218; 196; 238]%N.
Definition newline : jsstring := [10%N].

Section Description.
(** [RARITY_EMOJIS] and [CONDITION_EMOJIS], from the embed
    configuration: the emoji of a key, if the table has one. *)
Variables RARITY_EMOJIS CONDITION_EMOJIS : jsstring → jsfield.

(** [table[key] || ''] *)
Definition orEmpty (v : jsfield) : jsstring := default [] v.

Definition rarityHeader (rarity : jsstring) (cards : list card) : jsstring :=
  lit "### " ++ orEmpty (RARITY_EMOJIS rarity) ++ lit " " ++ toUpperCase rarity ++
  lit " (" ++ numberToString (length cards) ++ lit " card" ++
  (if (1 <? length cards)%nat then lit "s" else []) ++ lit ")" ++ newline.

Definition cardLine (c : card) : result jsstring :=
  cond ← receiver (condition c);
  let conditionEmoji := orEmpty (CONDITION_EMOJIS (toLowerCase cond)) in
  Ok (lit "[" ++ conditionEmoji ++ lit "] **" ++ templateString (group c) ++
      lit "** " ++ bulletMark ++ lit " " ++ templateString (name c) ++ dashMark ++
      lit "`" ++ templateString (cardCode c) ++ lit "`" ++ newline).

Fixpoint cardLines (cards : list card) : result jsstring :=
  match cards with
  | [] => Ok []
  | c :: rest => l ← cardLine c; ls ← cardLines rest; Ok (l ++ ls)
  end.

Fixpoint rarityBlocks (entries : groups) : result jsstring :=
  match entries with
  | [] => Ok []
  | (rarity, cards) :: rest =>
      ls ← cardLines cards;
      bs ← rarityBlocks rest;
      Ok (rarityHeader rarity cards ++ ls ++ newline ++ bs)
  end.

(** The description before the length check: the blocks, trimmed. *)
Definition descriptionText (cards : list card) : result jsstring :=
  grouped ← groupByRarity cards [];
  description ← rarityBlocks (objectEntries grouped);
  Ok (trim description).

Definition noCardsText : jsstring := lit "No cards found for this page.".

Definition buildCardDescription (cards : list card) : result jsstring :=
  if bool_decide (cards = []) then Ok noCardsText
  else
    description ← descriptionText cards;
    if (4096 <? length description)%nat
    then Ok (slice description 0 4090 ++ newline ++ lit "...")
    else Ok description.
End Description.

(** ** Rendering a page *)

(** [`${z}`] for an integer. *)
Definition integerToString (z : Z) : jsstring :=
  if z <? 0 then lit "-" ++ numberToString (Z.to_nat (- z))
  else numberToString (Z.to_nat z).

(** A user object, with what the command reads of it. *)
Record user := User {
  u_id : jsstring;
  username : jsfield;
  avatarURL : jsfield
}.

#[global] Instance user_eq_dec : EqDecision user.
Proof. solve_decision. Defined.

Record embed := Embed {
  author_name : jsstring;
  author_icon : jsfield;
  description : jsstring;
  footer_text : jsstring;
  color : Z
}.

#[global] Instance embed_eq_dec : EqDecision embed.
Proof. solve_decision. Defined.

(** [cards.slice(start, start + PAGE_SIZE)] for the page [currentPage]. *)
Definition pageCards (cards : list card) (currentPage : Z) : list card :=
  let start := (currentPage - 1) * PAGE_SIZE in
  slice cards start (start + PAGE_SIZE).

(** [cards.filter(c => c.condition.toLowerCase() === 'pristine').length] *)
Definition pristineCount (cards : list card) : result nat :=
  pristine ← filterM (fun c => k ← receiver (condition c);
                               Ok (bool_decide (toLowerCase k = lit "pristine"))) cards;
  Ok (length pristine).

Definition sparkleMark : jsstring := [8218; 250; 174]%N.

(** The author line of the embed. *)
Definition authorLine (targetUser : user) (opts : options) (p : pagination) : jsstring :=
  templateString (username targetUser) ++ lit "'s Cabinet "
  ++ (if showDuplicates opts then lit "(Duplicates) " else [])
  ++ lit "(Page " ++ integerToString (currentPage p) ++ lit "/"
  ++ integerToString (totalPages p) ++ lit ")".

Definition footerLine (total pristine : nat) : jsstring :=
  lit "Total: " ++ numberToString total ++ lit " cards"
  ++ (if (0 <? pristine)%nat
      then lit " " ++ bulletMark ++ lit " " ++ sparkleMark ++ lit " "
           ++ numberToString pristine ++ lit " Pristine"
      else []).

(** A button of the message: its [custom_id], its emoji and whether it is
    disabled. *)
Record button := Button {
  custom_id : jsstring;
  emoji : jsfield;
  disabled : bool
}.

#[global] Instance button_eq_dec : EqDecision button.
Proof. solve_decision. Defined.

Section Rendering.
(** The embed configuration: the two emoji tables, the emoji of a button
    ([BUTTON_CONFIGS.<id>.emoji]) and [EMBED_COLORS.DEFAULT]. *)
Variables RARITY_EMOJIS CONDITION_EMOJIS BUTTON_EMOJI : jsstring → jsfield.
Variable EMBED_DEFAULT : Z.

Definition buildEmbed (cards : list card) (p : pagination) (targetUser : user)
    (opts : options) : result embed :=
  let pageCards := pageCards cards (currentPage p) in
  pristine ← pristineCount cards;
  description ← buildCardDescription RARITY_EMOJIS CONDITION_EMOJIS pageCards;
  Ok (Embed (authorLine targetUser opts p) (avatarURL targetUser) description
            (footerLine (length cards) pristine) EMBED_DEFAULT).

(** [createComponents]: the one row of five buttons. *)
Definition createComponents (p : pagination) : list button :=
  [ Button (lit "first") (BUTTON_EMOJI (lit "first")) (bool_decide (currentPage p = 1));
    Button (lit "prev") (BUTTON_EMOJI (lit "prev")) (bool_decide (currentPage p = 1));
    Button (lit "next") (BUTTON_EMOJI (lit "next"))
           (bool_decide (currentPage p = totalPages p));
    Button (lit "last") (BUTTON_EMOJI (lit "last"))
           (bool_decide (currentPage p = totalPages p));
    Button (lit "code_catalog") (BUTTON_EMOJI (lit "code_catalog")) false ].

(** The payload of [sendCabinetEmbed] and of [updateMessage]: the embed
    and the components. *)
Definition renderMessage (cards : list card) (p : pagination) (targetUser : user)
    (opts : options) : result (embed * list button) :=
  e ← buildEmbed cards p targetUser opts;
  Ok (e, createComponents p).
End Rendering.

(** ** Reading the page back from a message *)

(** [/Page (\d+)\//] at the head of a text: the digits it captures.  The
    digits are followed by [/], which is no digit, so the longest run of
    digits is the only one that can match. *)
Definition pageAt (s : jsstring) : option jsstring :=
  if startsWith s (lit "Page ") then
    let digits := digitRun (drop 5 s) in
    if negb (bool_decide (digits = []))
       && startsWith (drop (5 + length digits) s) (lit "/")
    then Some digits else None
  else None.

(** [authorText.match(/Page (\d+)\//)]: the leftmost match. *)
Fixpoint pageMatch (s : jsstring) : option jsstring :=
  match pageAt s with
  | Some digits => Some digits
  | None =>
      match s with
      | [] => None
      | _ :: r => pageMatch r
      end
  end.

(** The page that [calculateNewPage] and [sendCodeCatalog] read from the
    author line [interaction.message.embeds[0]?.author?.name || '']. *)
Definition shownPage (authorName : jsfield) : option jsinteger :=
  parseInt <$> pageMatch (default [] authorName).

(** ** Session lifecycle *)

(** The embed configuration ([config/embedConstants], which is not among
    the sources): the two emoji tables, the emoji of each button
    ([BUTTON_CONFIGS.<id>.emoji]) and [EMBED_COLORS.DEFAULT]. *)
Class embedConstants := EmbedConstants {
  RARITY_EMOJIS : jsstring → jsfield;
  CONDITION_EMOJIS : jsstring → jsfield;
  BUTTON_EMOJI : jsstring → jsfield;
  EMBED_DEFAULT : Z
}.

(** A follow-up event, with what the handler reads of it:
    [interaction.message.id], [interaction.member?.id],
    [interaction.data.custom_id], and the page number that the pattern
    [/Page (\d+)\//] finds in the author line of the message's first embed
    ([None] when the line is missing or does not match). *)
Record interaction := Interaction {
  i_message : jsstring;
  i_member : jsfield;
  i_custom_id : jsstring;
  i_shownPage : option Z
}.

(** The [handler] closure built by one call of [setupInteractionHandler]:
    the variables it captures and the identity of the function object,
    which is what [removeListener] compares. *)
Record handler := Handler {
  h_id : nat;
  h_message : jsstring;
  h_author : jsstring;
  h_cards : list card;
  h_targetUser : user;
  h_options : options
}.

(** What the session does to the outside: the calls it makes. *)
Inductive action :=
| Invoked (h : nat) (i : interaction)
    (* the listener [h] is called with [i] *)
| Defer (i : interaction)
    (* [interaction.defer(64)] *)
| CodeCatalog (i : interaction) (shown : Z) (codes : list jsfield)
    (* [createFollowup] with the codes of the shown page *)
| EditParent (i : interaction) (p : pagination)
    (* [editParent] with the embed and the buttons built for page [p] *)
| ErrorNotice (i : interaction)
    (* [createFollowup] with the error text of the [catch] *)
| ClearControls (message : jsstring).
    (* [message.edit({ components: [] })] *)

(** Where a call of [handler] waits, inside its [try]: at
    [await interaction.defer(64)], with [sendCodeCatalog] still to run on
    the captured cards, or at the [await] of a request it has sent (the
    catalogue, the edited message). *)
Inductive suspended :=
| AwaitDefer (i : interaction) (cards : list card)
| AwaitRequest (i : interaction).

#[global] Instance pagination_eq_dec : EqDecision pagination.
Proof. solve_decision. Defined.
#[global] Instance interaction_eq_dec : EqDecision interaction.
Proof. solve_decision. Defined.
#[global] Instance handler_eq_dec : EqDecision handler.
Proof. solve_decision. Defined.
#[global] Instance action_eq_dec : EqDecision action.
Proof. solve_decision. Defined.
#[global] Instance suspended_eq_dec : EqDecision suspended.
Proof. solve_decision. Defined.

Definition calculateNewPage (i : interaction) (totalCards : nat) : Z :=
  let customId := i_custom_id i in
  let totalPages := ceilDiv (Z.of_nat totalCards) PAGE_SIZE in
  let currentPage := default 1 (i_shownPage i) in
  if decide (customId = lit "first") then 1
  else if decide (customId = lit "prev") then Z.max 1 (currentPage - 1)
  else if decide (customId = lit "next") then Z.min totalPages (currentPage + 1)
  else if decide (customId = lit "last") then totalPages
  else currentPage.

(** The codes [sendCodeCatalog] prints: those of the page read back from
    the message. *)
Definition catalogCodes (i : interaction) (cards : list card) : Z * list jsfield :=
  let currentPage := default 1 (i_shownPage i) in
  let start := (currentPage - 1) * PAGE_SIZE in
  (currentPage, cardCode <$> slice cards start (start + PAGE_SIZE)).

(** An entry of [activeCollectors] and a pending timeout (its due time and
    the variables its callback captures). *)
Record collector := Collector {
  c_handler : handler;
  c_timeout : nat
}.

Record timer := Timer {
  t_due : Z;
  t_message : jsstring;
  t_handler : handler
}.

(** The process: the clock, the client's listeners of [interactionCreate]
    (oldest first), the [activeCollectors] map, the pending timeouts, the
    next fresh timeout and function identities, the calls made so far with
    their times, and the calls of [handler] that wait for a promise. *)
Record world := World {
  now : Z;
  listeners : list handler;
  activeCollectors : gmap jsstring collector;
  timers : gmap nat timer;
  nextTimer : nat;
  nextHandler : nat;
  log : list (Z * action);
  pending : list suspended
}.

Definition initial : world := World 0 [] ∅ ∅ 0 0 [] [].

Definition sameHandler (h h' : handler) : bool := bool_decide (h_id h = h_id h').

(** [client.removeListener(_, h)]: the most recently added instance of
    [h] goes, if there is one. *)
Fixpoint removeListener (h : handler) (ls : list handler) : list handler :=
  match ls with
  | [] => []
  | x :: rest =>
      if existsb (sameHandler h) rest then x :: removeListener h rest
      else if sameHandler h x then rest
      else x :: rest
  end.

Definition setupInteractionHandler (message authorId : jsstring) (cards : list card)
    (targetUser : user) (opts : options) (w : world) : world :=
  let existing := activeCollectors w !! message in
  let ls := match existing with
            | Some e => removeListener (c_handler e) (listeners w)
            | None => listeners w
            end in
  let ts := match existing with
            | Some e => delete (c_timeout e) (timers w)
            | None => timers w
            end in
  let handler := Handler (nextHandler w) message authorId cards targetUser opts in
  let timeout := nextTimer w in
  World (now w)
        (ls ++ [handler])
        (<[message := Collector handler timeout]> (activeCollectors w))
        (<[timeout := Timer (now w + COLLECTOR_TIMEOUT) message handler]> ts)
        (S (nextTimer w))
        (S (nextHandler w))
        (log w)
        (pending w).

(** The timeout [t] comes due and its callback runs; what it does is
    logged at the due time.  A timeout that is not pending (it fired
    already, or [clearTimeout] cancelled it) has no callback left to
    run. *)
Definition fireTimer (t : nat) (w : world) : world :=
  match timers w !! t with
  | None => w
  | Some tm =>
      World (now w)
            (removeListener (t_handler tm) (listeners w))
            (delete (t_message tm) (activeCollectors w))
            (delete t (timers w))
            (nextTimer w)
            (nextHandler w)
            (log w ++ [(t_due tm, ClearControls (t_message tm))])
            (pending w)
  end.

(** The timeouts due by time [t], earliest first. *)
Fixpoint insertDue (x : nat * timer) (l : list (nat * timer)) : list (nat * timer) :=
  match l with
  | [] => [x]
  | y :: l' =>
      if (t_due x.2 <? t_due y.2) || ((t_due x.2 =? t_due y.2) && (x.1 <=? y.1)%nat)
      then x :: l else y :: insertDue x l'
  end.

Definition dueTimers (t : Z) (w : world) : list nat :=
  fst <$> foldr insertDue [] (filter (fun x => t_due x.2 ≤ t) (map_to_list (timers w))).

(** Time passes until [t]: the timeouts due by then fire, in order. *)
Definition advance (t : Z) (w : world) : world :=
  let w' := foldl (fun w tid => fireTimer tid w) w (dueTimers t w) in
  World (Z.max (now w') t) (listeners w') (activeCollectors w') (timers w')
        (nextTimer w') (nextHandler w') (log w') (pending w').

(** The rest of a call of [handler] once the promise it waits for is
    settled.  After the deferral [sendCodeCatalog] sends the catalogue and
    waits for that request; a request that went through ends the call; a
    rejection lands in the [catch], which sends the error notice and
    swallows whatever becomes of it. *)
Definition resume (s : suspended) (fulfilled : bool) : list action * option suspended :=
  match s with
  | AwaitDefer i cards =>
      if fulfilled then
        let '(shown, codes) := catalogCodes i cards in
        ([CodeCatalog i shown codes], Some (AwaitRequest i))
      else ([ErrorNotice i], None)
  | AwaitRequest i =>
      if fulfilled then ([], None) else ([ErrorNotice i], None)
  end.

(** The promise of the [k]-th waiting call is settled and the call goes
    on; there is nothing to do when no such call waits. *)
Definition settle (k : nat) (fulfilled : bool) (w : world) : world :=
  match pending w !! k with
  | None => w
  | Some s =>
      let '(acts, next) := resume s fulfilled in
      World (now w) (listeners w) (activeCollectors w) (timers w)
            (nextTimer w) (nextHandler w)
            (log w ++ ((fun a => (now w, a)) <$> acts))
            (delete k (pending w) ++ option_list next)
  end.

(** What happens to the process: a result message was sent and its session
    is set up, a follow-up event arrives, or a promise that a call of
    [handler] waits for is settled; each at a given time. *)
Inductive event :=
| Setup (message authorId : jsstring) (cards : list card) (targetUser : user)
    (opts : options)
| FollowUp (i : interaction)
| Settled (k : nat) (fulfilled : bool).

(** What a call of [handler] does with an event: the requests it sends
    while it runs, up to its first [await]; the request its [catch] sends
    once the dispatch of the event is over, when building the page threw
    (the exception rejects the promise of [updateMessage], which the
    handler awaits, so the [catch] runs as soon as the listeners have
    returned); and where the call then waits. *)
Record reaction := Reaction {
  sent : list action;
  caught : list action;
  waits : option suspended
}.

Section Session.
Context `{constants : embedConstants}.

(** The body of [handler].  The guard lets only the events of its message
    and of its author through.  For the catalogue the deferral is requested
    and the call waits for it.  For a button, [updateMessage] builds the
    embed and the buttons and sends them with [editParent], and the call
    waits for that request; when building them throws, nothing is sent and
    the [catch] sends the error notice. *)
Definition runHandler (h : handler) (i : interaction) : reaction :=
  if negb (bool_decide (i_message i = h_message h))
     || negb (bool_decide (i_member i = Some (h_author h)))
  then Reaction [] [] None
  else if decide (i_custom_id i = lit "code_catalog") then
    Reaction [Defer i] [] (Some (AwaitDefer i (h_cards h)))
  else
    let newPage := calculateNewPage i (length (h_cards h)) in
    let pagination := calculatePagination (h_cards h) newPage in
    match renderMessage RARITY_EMOJIS CONDITION_EMOJIS BUTTON_EMOJI EMBED_DEFAULT
                        (h_cards h) pagination (h_targetUser h) (h_options h) with
    | Ok _ => Reaction [EditParent i pagination] [] (Some (AwaitRequest i))
    | Throw _ => Reaction [] [ErrorNotice i] None
    end.

(** [client.emit('interactionCreate', i)]: every listener is called, in
    order, and runs up to its first [await]; when all have returned, the
    [catch] of a call whose page could not be built runs. *)
Definition emit (i : interaction) (w : world) : world :=
  World (now w) (listeners w) (activeCollectors w) (timers w)
        (nextTimer w) (nextHandler w)
        (log w ++ flat_map (fun h => (now w, Invoked (h_id h) i)
                                     :: ((fun a => (now w, a)) <$> sent (runHandler h i)))
                           (listeners w)
               ++ flat_map (fun h => (fun a => (now w, a)) <$> caught (runHandler h i))
                           (listeners w))
        (pending w ++ omap (fun h => waits (runHandler h i)) (listeners w)).

Definition step (w : world) (te : Z * event) : world :=
  let w' := advance te.1 w in
  match te.2 with
  | Setup message authorId cards targetUser opts =>
      setupInteractionHandler message authorId cards targetUser opts w'
  | FollowUp i => emit i w'
  | Settled k fulfilled => settle k fulfilled w'
  end.

Definition run (evs : list (Z * event)) (w : world) : world := foldl step w evs.
End Session.

(** ** What the two answers carry *)

(** [codes.join(' ')] in [sendCodeCatalog]: a missing code joins as the
    empty text. *)
Fixpoint joinCodes (codes : list jsfield) : jsstring :=
  match codes with
  | [] => []
  | [c] => default [] c
  | c :: rest => default [] c ++ lit " " ++ joinCodes rest
  end.

(** The pagination the handler computes for a button press
    ([calculateNewPage], then [calculatePagination]). *)
Definition turnPage (cards : list card) (i : interaction) : pagination :=
  calculatePagination cards (calculateNewPage i (length cards)).

(* ===================================================================== *)
(** * The specification's own formulas, for comparison                   *)
(* ===================================================================== *)

(** [clamp(x, lo, hi)] *)
Definition clamp (x lo hi : Z) : Z :=
  if x <? lo then lo else if hi <? x then hi else x.

(** [paginate(totalItems, pageSize, requestedPage)] as section 4.3 writes
    it, with the ceiling of the rational quotient. *)
Definition paginate (totalItems pageSize requestedPage : Z) : Z * Z :=
  let totalPages := Z.max 1 (Qceiling (inject_Z totalItems / inject_Z pageSize)) in
  (clamp requestedPage 1 totalPages, totalPages).

(** [t] occurs in [s]: a substring. *)
Definition occursIn (t s : jsstring) : Prop := ∃ pre post, s = pre ++ t ++ post.

(** The five fields a term is matched against. *)
Definition searchedFields (c : card) : list jsfield :=
  [name c; group c; rarity c; condition c; cardCode c].

(** The match of a term as the filters compute it: the term, as given,
    occurs in the lower-cased text of one of the five fields. *)
Definition fieldMatches (c : card) (t : jsstring) : Prop :=
  ∃ s, Some s ∈ searchedFields c ∧ occursIn t (toLowerCase s).

(** A case-insensitive substring match, as the specification words it:
    both sides are compared with their case folded. *)
Definition fieldMatchesFolded (c : card) (t : jsstring) : Prop :=
  ∃ s, Some s ∈ searchedFields c ∧ occursIn (toLowerCase t) (toLowerCase s).

(** The same match as a boolean, without the exceptions. *)
Definition fieldIncludes (t : jsstring) (v : jsfield) : bool :=
  match v with
  | Some s => includes (toLowerCase s) t
  | None => false
  end.
Definition matchesTerm (c : card) (t : jsstring) : bool :=
  existsb (fieldIncludes t) (searchedFields c).

(** Records that went through validation and carry a code. *)
Definition complete (c : card) : Prop := isValidCard c = true ∧ is_Some (cardCode c).

(** The number of cards of a list whose map key is [k]. *)
Definition keyCount (k : jsstring) (cards : list card) : nat :=
  length (filter (fun c => templateString (imageURL c) = k) cards).

(** The number of cards of a list that carry the image key of [c]. *)
Definition imageCount (c : card) (cards : list card) : nat :=
  length (filter (fun c' => imageURL c' = imageURL c) cards).

(** ** The sort order

    The rank of a card in the two tables of [sortCards]. *)
Definition rarityRank (c : card) : jsnum :=
  RARITY_ORDER (toLowerCase (default [] (rarity c))).
Definition conditionRank (c : card) : jsnum :=
  CONDITION_ORDER (toLowerCase (default [] (condition c))).

(** A validated card whose rarity and condition belong to the two closed
    sets. *)
Definition ranked (c : card) : Prop :=
  isValidCard c = true ∧ is_Some (rarityRank c) ∧ is_Some (conditionRank c).

(** [a] may stand before [b]: higher rarity rank first, then lower
    condition rank, then the group and then the name in the order of
    [localeCompare]. *)
Definition sortsBefore (a b : card) : Prop :=
  let ra := default 0 (rarityRank a) in
  let rb := default 0 (rarityRank b) in
  let ca := default 0 (conditionRank a) in
  let cb := default 0 (conditionRank b) in
  let byGroup := localeCompare (default [] (group a)) (default [] (group b)) in
  let byName := localeCompare (default [] (name a)) (default [] (name b)) in
  rb < ra ∨ (ra = rb ∧ (ca < cb ∨ (ca = cb ∧ (byGroup < 0 ∨ (byGroup = 0 ∧ byName ≤ 0))))).

(** The order as the specification words it: group and name compared as
    case-insensitive text, that is, by the code units of their lower-cased
    forms. *)
Definition foldedCompare (a b : jsstring) : comparison :=
  lexCompare (toLowerCase a) (toLowerCase b).

Definition sortsBeforeFolded (a b : card) : Prop :=
  let ra := default 0 (rarityRank a) in
  let rb := default 0 (rarityRank b) in
  let ca := default 0 (conditionRank a) in
  let cb := default 0 (conditionRank b) in
  let byGroup := foldedCompare (default [] (group a)) (default [] (group b)) in
  let byName := foldedCompare (default [] (name a)) (default [] (name b)) in
  rb < ra ∨ (ra = rb ∧ (ca < cb ∨ (ca = cb ∧
    (byGroup = Lt ∨ (byGroup = Eq ∧ byName ≠ Gt))))).

(** Three-way comparisons that describe a total preorder, and the two
    ways the comparator of [sortCards] combines them. *)
Definition goodCompare {A} (f : A → A → comparison) : Prop :=
  (∀ a b, f b a = CompOpp (f a b))
  ∧ (∀ a b c r, f a b = Eq → f b c = r → f a c = r)
  ∧ (∀ a b c, f a b = Lt → f b c = Lt → f a c = Lt)
  ∧ (∀ a b c, f a b = Lt → f b c = Eq → f a c = Lt).

Definition thenCompare {A} (f g : A → A → comparison) (a b : A) : comparison :=
  match f a b with
  | Eq => g a b
  | c => c
  end.

Definition compareOn {A K} (key : A → K) (f : K → K → comparison) (a b : A) : comparison :=
  f (key a) (key b).

(** The comparator of [sortCards] on ranked cards, as one three-way
    comparison. *)
Definition cardCompare : card → card → comparison :=
  thenCompare (compareOn (fun c => default 0 (rarityRank c)) (fun x y => Z.compare y x))
  (thenCompare (compareOn (fun c => default 0 (conditionRank c)) Z.compare)
  (thenCompare (compareOn (fun c => default [] (group c)) collate)
               (compareOn (fun c => default [] (name c)) collate))).

(** A card that [buildCardDescription] can print: its rarity and
    condition are present and its rarity key is not an inherited one. *)
Definition printable (c : card) : Prop :=
  is_Some (rarity c) ∧ is_Some (condition c)
  ∧ inheritedKey (toLowerCase (default [] (rarity c))) = false.

(** Every card of every group satisfies [P]. *)
Definition allGrouped (P : card → Prop) (grouped : groups) : Prop :=
  Forall (fun e => Forall P e.2) grouped.

(** ** Reading the arguments *)

(** The four kinds of token that the loop tells apart before it takes a
    token for an include term. *)
Definition isMention (arg : jsstring) : bool := startsWith arg (lit "<@").
Definition isPageToken (arg : jsstring) : bool :=
  negb (isMention arg) && bool_decide (is_Some (pageDigits arg)).
Definition isDuplicateWord (arg : jsstring) : bool :=
  negb (isMention arg) && negb (isPageToken arg)
  && bool_decide (toLowerCase arg ∈ duplicateWords).
Definition isExcludeToken (arg : jsstring) : bool :=
  negb (isMention arg) && negb (isPageToken arg) && negb (isDuplicateWord arg)
  && startsWith arg (lit "-").
Definition isIncludeToken (arg : jsstring) : bool :=
  negb (isMention arg) && negb (isPageToken arg) && negb (isDuplicateWord arg)
  && negb (startsWith arg (lit "-")).

(** The user a mention names, if it names one. *)
Definition mentionedUser (arg : jsstring) : option jsstring :=
  if isMention arg then firstDigits arg else None.

(** The page a page token asks for. *)
Definition requestedPage (arg : jsstring) : option jsinteger :=
  if isMention arg then None
  else (fun digits => positiveOrOne (parseInt digits)) <$> pageDigits arg.

(** A page number that is at least 1. *)
Definition atLeastOne (x : jsinteger) : Prop :=
  match x with
  | Finite z => 1 ≤ z
  | Infinity => True
  end.

(** ** Reading the filters *)

(** A term found in one of the four validated fields. *)
Definition matchesFour (c : card) (t : jsstring) : bool :=
  existsb (fieldIncludes t) [name c; group c; rarity c; condition c].

(** What the pipeline needs of a record for the properties below that
    concern its order and its image keys: once valid, its rarity and
    condition are in the two tables and it carries an image key. *)
Definition wellFormed (c : card) : Prop :=
  isValidCard c = true → ranked c ∧ is_Some (imageURL c).

(** ** Grouping of a page *)

(** The cards that [grouped[key]] collects: those whose rarity, in lower
    case, spells [key]. *)
Definition filedUnder (key : jsstring) (c : card) : Prop :=
  toLowerCase <$> rarity c = Some key.

#[global] Instance filedUnder_dec (key : jsstring) (c : card) : Decision (filedUnder key c).
Proof. unfold filedUnder. apply _. Defined.

(** What holds of [grouped] after the cards [seen] went through the
    [forEach]. *)
Definition groupedFrom (seen : list card) (grouped : groups) : Prop :=
  NoDup grouped.*1
  ∧ (∀ c, c ∈ seen → ∃ k, filedUnder k c ∧ k ∈ grouped.*1)
  ∧ ∀ k cs, (k, cs) ∈ grouped → cs ≠ [] ∧ cs = filter (filedUnder k) seen.

(** A card whose rarity spells a key that [{}] inherits. *)
Definition inheritedRarity (c : card) : bool :=
  inheritedKey (toLowerCase (default [] (rarity c))).

(** ** Reading the registry and the log *)

(** The registry, the listeners and the pending timeouts agree: every
    entry of [activeCollectors] names a subscribed handler of its message
    and a pending timeout of that handler, and every listener and every
    pending timeout belongs to such an entry. *)
Record consistent (w : world) : Prop := Consistent {
  fresh_handlers : ∀ h, h ∈ listeners w → (h_id h < nextHandler w)%nat;
  unique_handlers : NoDup (h_id <$> listeners w);
  fresh_timers : ∀ t tm, timers w !! t = Some tm → (t < nextTimer w)%nat;
  collector_registered : ∀ m e, activeCollectors w !! m = Some e →
    h_message (c_handler e) = m
    ∧ c_handler e ∈ listeners w
    ∧ ∃ due, timers w !! c_timeout e = Some (Timer due m (c_handler e));
  listener_collected : ∀ h, h ∈ listeners w →
    ∃ t, activeCollectors w !! h_message h = Some (Collector h t);
  timer_collected : ∀ t tm, timers w !! t = Some tm →
    activeCollectors w !! t_message tm = Some (Collector (t_handler tm) t)
}.

(** No pending timeout is overdue. *)
Definition punctual (w : world) : Prop :=
  ∀ t tm, timers w !! t = Some tm → now w < t_due tm.

(** The calls a listener has received. *)
Definition isCallOf (h : nat) (a : action) : bool :=
  match a with
  | Invoked h' _ => bool_decide (h' = h)
  | _ => false
  end.
Definition callsOf (h : nat) (l : list (Z * action)) : list (Z * action) :=
  filter (fun x => isCallOf h x.2) l.

(** The answers to follow-up events of message [m] that only a listener
    gives while it is called with the event, the deferral and the edit of
    the message (the catalogue and an error notice can follow when a
    promise is settled, whenever that is); and the clearings of the
    message's controls. *)
Definition answers (m : jsstring) (a : action) : bool :=
  match a with
  | Defer i | EditParent i _ => bool_decide (i_message i = m)
  | _ => false
  end.
Definition clearings (m : jsstring) (l : list (Z * action)) : list (Z * action) :=
  filter (fun x => x.2 = ClearControls m) l.

(** A handler and a timeout that are out of use for good: both identities
    were handed out, the handler is not subscribed, the timeout is not
    pending. *)
Definition retired (h t : nat) (w : world) : Prop :=
  (h < nextHandler w)%nat ∧ (h ∉ h_id <$> listeners w)
  ∧ (t < nextTimer w)%nat ∧ timers w !! t = None.

(** The session of message [m] set up with handler [h] and timeout [t] due
    at [d]: still in place, or torn down. *)
Definition live (m : jsstring) (h : handler) (t : nat) (d : Z) (w : world) : Prop :=
  activeCollectors w !! m = Some (Collector h t)
  ∧ timers w !! t = Some (Timer d m h).

Definition expired (m : jsstring) (t : nat) (w : world) : Prop :=
  activeCollectors w !! m = None ∧ timers w !! t = None ∧ (t < nextTimer w)%nat.

(** The calls of the listener [h] and the answers to follow-up events of
    message [m] all happen before [d]. *)
Definition answeredBefore (m : jsstring) (h : nat) (d : Z) (l : list (Z * action)) : Prop :=
  Forall (fun x => isCallOf h x.2 || answers m x.2 = true → x.1 < d) l.

(** From [w] to [w'] the log only grew, by entries that clear the controls
    of message [m] exactly as [cl] lists, and call [h] and answer the
    message's events before [d]. *)
Definition logGrows (m : jsstring) (h : nat) (d : Z) (cl : list (Z * action))
    (w w' : world) : Prop :=
  ∃ new, log w' = log w ++ new ∧ clearings m new = cl ∧ answeredBefore m h d new.

(** What is known of that session after some events, [base] being the log
    at its set-up. *)
Definition sessionState (m : jsstring) (h : handler) (t : nat) (d : Z)
    (base : list (Z * action)) (w : world) : Prop :=
  consistent w ∧ punctual w
  ∧ ∃ new, log w = base ++ new ∧ answeredBefore m (h_id h) d new
      ∧ ((now w < d ∧ live m h t d w ∧ clearings m new = [])
         ∨ (d ≤ now w ∧ expired m t w ∧ retired (h_id h) t w
            ∧ clearings m new = [(d, ClearControls m)])).

(** An event that sets up a session for message [m]. *)
Definition setsUp (m : jsstring) (e : event) : bool :=
  match e with
  | Setup m' _ _ _ _ => bool_decide (m' = m)
  | FollowUp _ | Settled _ _ => false
  end.

(** What a listener does when it is called, as opposed to the call. *)
Definition isResponse (a : action) : bool :=
  match a with
  | Invoked _ _ => false
  | _ => true
  end.
Definition responses (l : list (Z * action)) : list (Z * action) :=
  filter (fun x => isResponse x.2) l.

(** No pending timeout is due later than one collector time from now. *)
Definition bounded (w : world) : Prop :=
  ∀ t tm, timers w !! t = Some tm → t_due tm ≤ now w + COLLECTOR_TIMEOUT.

(* ===================================================================== *)
(** * Sample data                                                        *)
(* ===================================================================== *)

(** A record with all six fields. *)
Definition fullCard (n g r cnd code img : string) : card :=
  Card (Some (lit n)) (Some (lit g)) (Some (lit r)) (Some (lit img))
       (Some (lit cnd)) (Some (lit code)).

(** A record whose stored document has no [cardCode]. *)
Definition codelessCard (n g r cnd img : string) : card :=
  Card (Some (lit n)) (Some (lit g)) (Some (lit r)) (Some (lit img))
       (Some (lit cnd)) None.

(** Options with the given include and exclude terms. *)
Definition query (incl excl : list string) (dups : bool) : options :=
  Options (lit <$> incl) (lit <$> excl) (lit "1") (Finite 1) dups.

(** An alias table without entries: every term expands to itself. *)
Definition noAliases (terms : list jsstring) : list jsstring := terms.

Definition abcCard : card := fullCard "abc" "G" "mythic" "mint" "C1" "i1".
Definition abcxyzCard : card := fullCard "abcxyz" "G" "mythic" "mint" "C2" "i2".
Definition plainCard : card := fullCard "Y" "B" "standard" "good" "Y1" "i1".

Definition unlistedCard : card := codelessCard "A" "G" "mythic" "mint" "u".

Definition xyzTwin : card := fullCard "xyz" "H" "standard" "worn" "C3" "i1".

Definition mythicCard : card := fullCard "X" "A" "mythic" "pristine" "X1" "i1".
Definition lowerGroupCard : card := fullCard "b" "a" "mythic" "mint" "L1" "i3".
Definition upperGroupCard : card := fullCard "a" "A" "mythic" "mint" "U1" "i4".
Definition legendaryCard : card := fullCard "L" "A" "legendary" "pristine" "L9" "i5".

(** A card whose name alone is longer than a description may be. *)
Definition longCard : card :=
  Card (Some (replicate 5000 120%N)) (Some (lit "G")) (Some (lit "mythic"))
       (Some (lit "i9")) (Some (lit "mint")) (Some (lit "LONG")).

(** A record without image key, and one whose key is the text that a
    missing key prints as. *)
Definition keylessCard : card :=
  Card (Some (lit "K")) (Some (lit "G")) (Some (lit "mythic")) None
       (Some (lit "mint")) (Some (lit "K1")).
Definition undefinedKeyCard : card := fullCard "U" "G" "mythic" "mint" "U1" "undefined".

(** A card whose rarity spells an inherited key, and a page of three
    rarities. *)
Definition constructorCard : card := fullCard "K" "G" "Constructor" "mint" "K1" "k".
Definition threeRarities : list card :=
  [abcCard; plainCard; legendaryCard; abcxyzCard; plainCard].

(** An embed configuration without emoji and two users, the second with a
    name that looks like a page line. *)
Definition noEmojis (key : jsstring) : jsfield := None.
Definition plainConstants : embedConstants := EmbedConstants noEmojis noEmojis noEmojis 0.
Definition sampleUser : user := User (lit "42") (Some (lit "Mina")) None.
Definition slashUser : user := User (lit "43") (Some (lit "Page 7/x")) None.

(** Scenario E: the owner presses "next" one minute and six minutes after
    the message was rendered. *)
Definition pressNext : event :=
  FollowUp (Interaction (lit "m") (Some (lit "u")) (lit "next") (Some 1)).
Definition scenarioE : list (Z * event) := [(60000, pressNext); (360000, pressNext)].

(** The owner asks for the catalogue one millisecond before the session
    ends, and the deferral goes through five seconds later. *)
Definition pressCatalog : event :=
  FollowUp (Interaction (lit "m") (Some (lit "u")) (lit "code_catalog") (Some 1)).
Definition lateCatalogue : list (Z * event) :=
  [(299999, pressCatalog); (304999, Settled 0 true)].

(** Two sessions and a press in the first; and the same with a first
    session whose page cannot be built. *)
Definition twoSessions : list (Z * event) :=
  [(0, Setup (lit "m") (lit "u") [abcCard] sampleUser (query [] [] false));
   (1000, Setup (lit "n") (lit "v") [plainCard] sampleUser (query [] [] false));
   (2000, FollowUp (Interaction (lit "m") (Some (lit "u")) (lit "next") (Some 1)))].
Definition brokenSession : list (Z * event) :=
  [(0, Setup (lit "m") (lit "u") [constructorCard] sampleUser (query [] [] false));
   (1000, Setup (lit "n") (lit "v") [plainCard] sampleUser (query [] [] false));
   (2000, pressNext)].

(** A press of the button [customId] on a message that shows page
    [shown]. *)
Definition press (customId : string) (shown : Z) : interaction :=
  Interaction (lit "m") (Some (lit "u")) (lit customId) (Some shown).
(* ===================================================================== *)
(** * Properties                                                         *)
(* ===================================================================== *)

(** ** Pagination *)

Lemma ceilDiv_Qceiling (a b : Z) :
  0 < b → ceilDiv a b = Qceiling (inject_Z a / inject_Z b).
Proof.
  intros Hb. unfold ceilDiv, Qceiling.
  assert (Heq : (- (inject_Z a / inject_Z b) == inject_Z (- a) / inject_Z b)%Q).
  { rewrite inject_Z_opp. unfold Qdiv. ring. }
  rewrite Heq, <- Zdiv_Qdiv.
  pose proof (Z.div_mod (a + b - 1) b ltac:(lia)) as H1.
  pose proof (Z.mod_pos_bound (a + b - 1) b Hb) as H2.
  pose proof (Z.div_mod (- a) b ltac:(lia)) as H3.
  pose proof (Z.mod_pos_bound (- a) b Hb) as H4.
  nia.
Qed.

Lemma calculatePagination_total (cards : list card) (p : Z) :
  1 ≤ totalPages (calculatePagination cards p).
Proof. unfold calculatePagination. cbn [totalPages]. lia. Qed.

(** C2. For every card list (any item count [>= 0]) and every integer
    requested page, [calculatePagination] returns the page size 12,
    [totalPages = max(1, ceil(totalItems / 12))] and
    [currentPage = clamp(requestedPage, 1, totalPages)], as the
    specification's [paginate] computes them; so [totalPages >= 1] and
    [1 <= currentPage <= totalPages]; and with 25 items and requested
    page 0 the result is page 1 of 3. *)
Theorem calculatePagination_paginate (cards : list card) (requestedPage : Z) (c : card) :
  let p := calculatePagination cards requestedPage in
  (currentPage p, totalPages p) = paginate (Z.of_nat (length cards)) PAGE_SIZE requestedPage
  ∧ pageSize p = 12
  ∧ 1 ≤ totalPages p
  ∧ 1 ≤ currentPage p ≤ totalPages p
  ∧ calculatePagination (replicate 25 c) 0 = Pagination 1 3 12.
Proof.
  cbn zeta. split; [|split; [reflexivity|split; [|split; [|reflexivity]]]].
  - unfold paginate, calculatePagination. cbn [currentPage totalPages].
    rewrite <- ceilDiv_Qceiling by (unfold PAGE_SIZE; lia).
    f_equal. unfold clamp, orOne.
    generalize (ceilDiv (Z.of_nat (length cards)) PAGE_SIZE). intros k.
    destruct (Z.eqb_spec requestedPage 0); destruct (Z.ltb_spec requestedPage 1);
      destruct (Z.ltb_spec (Z.max 1 k) requestedPage); lia.
  - apply calculatePagination_total.
  - unfold calculatePagination. cbn [currentPage totalPages]. lia.
Qed.

(** ** Strings *)

Lemma startsWith_spec (s t : jsstring) :
  startsWith s t = true ↔ ∃ post, s = t ++ post.
Proof.
  revert s. induction t as [|y t IH]; intros s.
  - destruct s; cbn; split; eauto.
  - destruct s as [|x s]; cbn.
    + split; [discriminate|]. intros [post H]. discriminate.
    + rewrite andb_true_iff, N.eqb_eq, IH. split.
      * intros [-> [post ->]]. eauto.
      * intros [post H]. injection H as -> ->. eauto.
Qed.

Lemma includes_spec (s t : jsstring) :
  includes s t = true ↔ occursIn t s.
Proof.
  unfold occursIn. induction s as [|x s IH].
  - cbn [includes]. rewrite orb_false_r, startsWith_spec. split.
    + intros [post H]. exists [], post. exact H.
    + intros [pre [post H]]. destruct pre; [|discriminate]. eauto.
  - cbn [includes]. rewrite orb_true_iff, IH, startsWith_spec. split.
    + intros [[post H]|[pre [post H]]].
      * exists [], post. exact H.
      * exists (x :: pre), post. rewrite H. reflexivity.
    + intros [pre [post H]]. destruct pre as [|x' pre].
      * left. exists post. exact H.
      * right. injection H as -> ->. eauto.
Qed.

Lemma lowerUnit_idemp (c : N) : lowerUnit (lowerUnit c) = lowerUnit c.
Proof.
  unfold lowerUnit.
  destruct (N.leb_spec 65 c), (N.leb_spec c 90); cbn [andb];
    repeat match goal with
           | |- context [(?a <=? ?b)%N] => destruct (N.leb_spec a b)
           end; cbn [andb]; try reflexivity; lia.
Qed.

Lemma toLowerCase_idemp (s : jsstring) : toLowerCase (toLowerCase s) = toLowerCase s.
Proof.
  unfold toLowerCase. rewrite <- list_fmap_compose.
  apply list_fmap_ext. intros _ c _. apply lowerUnit_idemp.
Qed.

(** ** The error monad *)

Lemma bind_Ok {A B} (f : A → result B) (r : result A) (b : B) :
  r ≫= f = Ok b → ∃ a, r = Ok a ∧ f a = Ok b.
Proof. destruct r; cbn; [eauto|discriminate]. Qed.

Lemma orElse_Ok (x y : result bool) (b : bool) :
  (x <||> y) = Ok b → (x = Ok true ∧ b = true) ∨ (x = Ok false ∧ y = Ok b).
Proof.
  unfold orElse. intros H. apply bind_Ok in H as [[] [-> H]]; [left|right]; split; congruence.
Qed.

Lemma every_Ok {A} (p : A → result bool) (q : A → bool) (l : list A) (b : bool) :
  (∀ x b', p x = Ok b' → b' = q x) →
  every p l = Ok b → b = forallb q l.
Proof.
  intros Hp. induction l as [|x l IH]; cbn; [congruence|].
  intros H. apply bind_Ok in H as [b' [Hx H]]. rewrite <- (Hp _ _ Hx).
  destruct b'; cbn; [auto|congruence].
Qed.

Lemma some_Ok {A} (p : A → result bool) (q : A → bool) (l : list A) (b : bool) :
  (∀ x b', p x = Ok b' → b' = q x) →
  some p l = Ok b → b = existsb q l.
Proof.
  intros Hp. induction l as [|x l IH]; cbn; [congruence|].
  intros H. apply bind_Ok in H as [b' [Hx H]]. rewrite <- (Hp _ _ Hx).
  destruct b'; cbn; [congruence|auto].
Qed.

Lemma every_total {A} (p : A → result bool) (q : A → bool) (l : list A) :
  (∀ x, p x = Ok (q x)) → every p l = Ok (forallb q l).
Proof.
  intros Hp. induction l as [|x l IH]; cbn; [reflexivity|].
  rewrite Hp. cbn. destruct (q x); auto.
Qed.

Lemma some_total {A} (p : A → result bool) (q : A → bool) (l : list A) :
  (∀ x, p x = Ok (q x)) → some p l = Ok (existsb q l).
Proof.
  intros Hp. induction l as [|x l IH]; cbn; [reflexivity|].
  rewrite Hp. cbn. destruct (q x); auto.
Qed.

Lemma filterM_Ok {A} (p : A → result bool) (q : A → bool) (l out : list A) :
  (∀ x b, x ∈ l → p x = Ok b → b = q x) →
  filterM p l = Ok out → out = filter (fun x => q x) l.
Proof.
  revert out. induction l as [|x l IH]; intros out Hp; cbn [filterM].
  - intros [= <-]. reflexivity.
  - intros H. apply bind_Ok in H as [b [Hx H]].
    apply bind_Ok in H as [r [Hr H]]. injection H as <-.
    rewrite (IH r) by (eauto using list_elem_of_further).
    rewrite (Hp x b) by (eauto using list_elem_of_here).
    rewrite filter_cons. destruct (q x); cbn; reflexivity.
Qed.

Lemma filterM_total {A} (p : A → result bool) (q : A → bool) (l : list A) :
  (∀ x, x ∈ l → p x = Ok (q x)) →
  filterM p l = Ok (filter (fun x => q x) l).
Proof.
  induction l as [|x l IH]; intros Hp; cbn [filterM]; [reflexivity|].
  rewrite Hp by apply list_elem_of_here. cbn [mbind result_bind].
  rewrite IH by eauto using list_elem_of_further. cbn [mbind result_bind].
  rewrite filter_cons. destruct (q x); reflexivity.
Qed.

(** ** Matching a term *)

Lemma lowerIncludes_Ok (v : jsfield) (t : jsstring) (b : bool) :
  lowerIncludes v t = Ok b → b = fieldIncludes t v.
Proof. destruct v; cbn; congruence. Qed.

Lemma lowerIncludes_Some (s t : jsstring) :
  lowerIncludes (Some s) t = Ok (fieldIncludes t (Some s)).
Proof. reflexivity. Qed.

Lemma cardMatchesTerm_Ok (c : card) (t : jsstring) (b : bool) :
  cardMatchesTerm c t = Ok b → b = matchesTerm c t.
Proof.
  unfold cardMatchesTerm, matchesTerm, searchedFields. cbn [existsb]. intros H.
  do 4 (apply orElse_Ok in H as [[H1 ->]|[H1 H]];
        apply lowerIncludes_Ok in H1; rewrite <- H1; clear H1; cbn [orb]; [reflexivity|]).
  apply lowerIncludes_Ok in H. rewrite orb_false_r. exact H.
Qed.

Lemma valid_fields (c : card) :
  isValidCard c = true →
  is_Some (name c) ∧ is_Some (group c) ∧ is_Some (rarity c) ∧ is_Some (condition c).
Proof.
  unfold isValidCard, truthy. rewrite !andb_true_iff.
  destruct (name c) as [[]|], (group c) as [[]|], (rarity c) as [[]|],
    (condition c) as [[]|]; intuition (eauto; discriminate).
Qed.

Lemma cardMatchesTerm_total (c : card) (t : jsstring) :
  isValidCard c = true → is_Some (cardCode c) →
  cardMatchesTerm c t = Ok (matchesTerm c t).
Proof.
  intros Hv [code Hcode]. apply valid_fields in Hv as ([n Hn] & [g Hg] & [r Hr] & [k Hk]).
  unfold cardMatchesTerm, matchesTerm, searchedFields. rewrite Hn, Hg, Hr, Hk, Hcode.
  rewrite !lowerIncludes_Some. cbn [existsb]. unfold orElse. cbn [mbind result_bind].
  repeat match goal with
         | |- context [fieldIncludes t ?v] => destruct (fieldIncludes t v); cbn [orb]
         end; reflexivity.
Qed.

Lemma matchesSearch_Ok (c : card) (terms : list jsstring) (b : bool) :
  matchesSearch c terms = Ok b → b = existsb (matchesTerm c) terms.
Proof. apply some_Ok. intros t b'. apply cardMatchesTerm_Ok. Qed.

Lemma matchesSearch_total (c : card) (terms : list jsstring) :
  isValidCard c = true → is_Some (cardCode c) →
  matchesSearch c terms = Ok (existsb (matchesTerm c) terms).
Proof.
  intros Hv Hc. apply some_total. intros t. apply (cardMatchesTerm_total c t Hv Hc).
Qed.

Lemma matchesTerm_spec (c : card) (t : jsstring) :
  matchesTerm c t = true ↔ fieldMatches c t.
Proof.
  unfold matchesTerm, fieldMatches. rewrite existsb_exists. split.
  - intros [[s|] [Hin H]]; [|discriminate].
    exists s. split; [apply list_elem_of_In, Hin|]. apply includes_spec, H.
  - intros [s [Hin H]]. exists (Some s). split; [apply list_elem_of_In, Hin|].
    apply includes_spec, H.
Qed.

Lemma matchesTerm_all (c : card) (terms : list jsstring) :
  forallb (matchesTerm c) terms = true ↔ ∀ t, t ∈ terms → fieldMatches c t.
Proof.
  rewrite forallb_forall. split; intros H t Ht.
  - apply matchesTerm_spec, H, list_elem_of_In, Ht.
  - apply matchesTerm_spec, H, list_elem_of_In, Ht.
Qed.

Lemma matchesTerm_any (c : card) (terms : list jsstring) :
  existsb (matchesTerm c) terms = true ↔ ∃ t, t ∈ terms ∧ fieldMatches c t.
Proof.
  rewrite existsb_exists. split; intros [t [Ht H]]; exists t.
  - split; [apply list_elem_of_In, Ht|apply matchesTerm_spec, H].
  - split; [apply list_elem_of_In, Ht|apply matchesTerm_spec, H].
Qed.

Lemma filter_none {A} (P : A → Prop) `{∀ x, Decision (P x)} (l : list A) :
  (∀ x, x ∈ l → ¬ P x) → filter P l = [].
Proof.
  induction l as [|x l IH]; intros Hl; [reflexivity|].
  rewrite filter_cons, decide_False by (apply Hl, list_elem_of_here).
  apply IH. intros y Hy. apply Hl, list_elem_of_further, Hy.
Qed.

Lemma filter_keeps_all {A} (P : A → Prop) `{!∀ x, Decision (P x)} (l : list A) :
  (∀ x, x ∈ l → P x) → filter P l = l.
Proof.
  induction l as [|x l IH]; intros Hall; [reflexivity|].
  rewrite filter_cons_True by (apply Hall, list_elem_of_here).
  f_equal. apply IH. intros y Hy. apply Hall, list_elem_of_further, Hy.
Qed.

(** ** The include filter *)

Lemma includeFilter_Ok (terms : list jsstring) (cards out : list card) :
  includeFilter terms cards = Ok out →
  out = filter (fun c => forallb (matchesTerm c) terms) cards.
Proof.
  unfold includeFilter. case_bool_decide as Ht.
  - subst terms. intros [= <-]. cbn [forallb].
    symmetry. apply filter_keeps_all. intros; exact I.
  - apply filterM_Ok. intros c b _. apply every_Ok. intros t b'. apply cardMatchesTerm_Ok.
Qed.

Lemma includeFilter_total (terms : list jsstring) (cards : list card) :
  Forall complete cards →
  includeFilter terms cards = Ok (filter (fun c => forallb (matchesTerm c) terms) cards).
Proof.
  intros Hall. unfold includeFilter. case_bool_decide as Ht.
  - subst terms. cbn [forallb]. f_equal. symmetry.
    apply filter_keeps_all. intros; exact I.
  - apply filterM_total. intros c Hc.
    rewrite Forall_forall in Hall. destruct (Hall c Hc) as [Hv Hcode].
    apply every_total. intros t. apply cardMatchesTerm_total; assumption.
Qed.

Lemma includeFilter_elem (terms : list jsstring) (cards out : list card) (c : card) :
  includeFilter terms cards = Ok out →
  c ∈ out ↔ c ∈ cards ∧ ∀ t, t ∈ terms → fieldMatches c t.
Proof.
  intros H. rewrite (includeFilter_Ok _ _ _ H), list_elem_of_filter.
  rewrite <- matchesTerm_all, Is_true_true. tauto.
Qed.

(** ** The exclude filter *)

Lemma excludeFilter_Ok (terms : list jsstring) (cards out : list card) :
  excludeFilter terms cards = Ok out →
  out = filter (fun c => negb (existsb (matchesTerm c) terms)) cards.
Proof.
  unfold excludeFilter. case_bool_decide as Ht.
  - subst terms. intros [= <-]. cbn [existsb negb].
    symmetry. apply filter_keeps_all. intros; exact I.
  - apply filterM_Ok. intros c b _ H.
    apply bind_Ok in H as [b' [H1 [= <-]]].
    f_equal. apply (matchesSearch_Ok _ _ _ H1).
Qed.

Lemma excludeFilter_total (terms : list jsstring) (cards : list card) :
  Forall complete cards →
  excludeFilter terms cards = Ok (filter (fun c => negb (existsb (matchesTerm c) terms)) cards).
Proof.
  intros Hall. unfold excludeFilter. case_bool_decide as Ht.
  - subst terms. cbn [existsb negb]. f_equal. symmetry.
    apply filter_keeps_all. intros; exact I.
  - apply filterM_total. intros c Hc.
    rewrite Forall_forall in Hall. destruct (Hall c Hc) as [Hv Hcode].
    rewrite matchesSearch_total by assumption. reflexivity.
Qed.

Lemma excludeFilter_elem (terms : list jsstring) (cards out : list card) (c : card) :
  excludeFilter terms cards = Ok out →
  c ∈ out ↔ c ∈ cards ∧ ¬ ∃ t, t ∈ terms ∧ fieldMatches c t.
Proof.
  intros H. rewrite (excludeFilter_Ok _ _ _ H), list_elem_of_filter.
  rewrite <- matchesTerm_any, Is_true_true, negb_true_iff, not_true_iff_false. tauto.
Qed.

(** ** Sorting: the result is a rearrangement, and validated cards sort
    without an exception *)

Lemma insertCard_perm (x : card) (l r : list card) :
  insertCard x l = Ok r → r ≡ₚ x :: l.
Proof.
  revert r. induction l as [|y l IH]; intros r; cbn [insertCard].
  - intros [= <-]. reflexivity.
  - intros H. apply bind_Ok in H as [v [_ H]].
    destruct (v <=? 0); [injection H as <-; reflexivity|].
    apply bind_Ok in H as [r' [Hr [= <-]]].
    rewrite (IH _ Hr). apply Permutation_swap.
Qed.

Lemma sortCards_perm (cards out : list card) :
  sortCards cards = Ok out → out ≡ₚ cards.
Proof.
  revert out. induction cards as [|x l IH]; intros out; cbn [sortCards].
  - intros [= <-]. reflexivity.
  - intros H. apply bind_Ok in H as [s [Hs H]].
    rewrite (insertCard_perm _ _ _ H), (IH _ Hs). reflexivity.
Qed.

Lemma compareCards_total (a b : card) :
  isValidCard a = true → isValidCard b = true → ∃ v, compareCards a b = Ok v.
Proof.
  intros Ha Hb.
  apply valid_fields in Ha as ([na Hna] & [ga Hga] & [ra Hra] & [ca Hca]).
  apply valid_fields in Hb as ([nb Hnb] & [gb Hgb] & [rb Hrb] & [cb Hcb]).
  unfold compareCards. rewrite Hna, Hga, Hra, Hca, Hrb, Hcb. cbn [receiver mbind result_bind].
  repeat match goal with
         | |- context [if ?b then _ else _] => destruct b
         end; eauto.
Qed.

Lemma insertCard_total (x : card) (l : list card) :
  isValidCard x = true → Forall (fun c => isValidCard c = true) l →
  ∃ r, insertCard x l = Ok r.
Proof.
  intros Hx. induction 1 as [|y l Hy Hl IH]; cbn [insertCard]; [eauto|].
  destruct (compareCards_total x y Hx Hy) as [v ->]. cbn [mbind result_bind].
  destruct (v <=? 0); [eauto|]. destruct IH as [r ->]. cbn. eauto.
Qed.

Lemma sortCards_total (cards : list card) :
  Forall (fun c => isValidCard c = true) cards → ∃ out, sortCards cards = Ok out.
Proof.
  induction 1 as [|x l Hx Hl IH]; cbn [sortCards]; [eauto|].
  destruct IH as [s Hs]. rewrite Hs. cbn [mbind result_bind].
  apply insertCard_total; [assumption|].
  apply sortCards_perm in Hs. rewrite Hs. assumption.
Qed.

(** ** The pipeline as a whole *)

Lemma processCards_Ok (expandAll : list jsstring → list jsstring)
    (cards : list card) (opts : options) (out : list card) :
  processCards expandAll cards opts = Ok out →
  ∃ inc exc,
    includeFilter (expandAll (searchTerms opts)) (filter (fun c => isValidCard c) cards) = Ok inc
    ∧ excludeFilter (expandAll (excludeTerms opts)) inc = Ok exc
    ∧ sortCards (duplicatesFilter (showDuplicates opts) exc) = Ok out.
Proof.
  unfold processCards. intros H.
  apply bind_Ok in H as [inc [Hinc H]]. apply bind_Ok in H as [exc [Hexc H]]. eauto.
Qed.

Lemma duplicatesFilter_elem (flag : bool) (cards : list card) (c : card) :
  c ∈ duplicatesFilter flag cards → c ∈ cards.
Proof.
  unfold duplicatesFilter. destruct flag; [|auto].
  rewrite list_elem_of_filter. tauto.
Qed.

Lemma processCards_elem (expandAll : list jsstring → list jsstring)
    (cards : list card) (opts : options) (out : list card) (c : card) :
  processCards expandAll cards opts = Ok out → c ∈ out →
  c ∈ cards ∧ isValidCard c = true
  ∧ (∀ t, t ∈ expandAll (searchTerms opts) → fieldMatches c t)
  ∧ ¬ ∃ t, t ∈ expandAll (excludeTerms opts) ∧ fieldMatches c t.
Proof.
  intros H Hc. apply processCards_Ok in H as (inc & exc & Hinc & Hexc & Hsort).
  rewrite (sortCards_perm _ _ Hsort) in Hc. apply duplicatesFilter_elem in Hc.
  apply (excludeFilter_elem _ _ _ _ Hexc) in Hc as [Hc Hno].
  apply (includeFilter_elem _ _ _ _ Hinc) in Hc as [Hc Hall].
  apply list_elem_of_filter in Hc as [Hv Hc]. apply Is_true_true in Hv. auto.
Qed.

(** C3 (as amended). The include filter keeps a card if and only if every
    expanded include term, taken as it is given, occurs in the lower-cased
    text of at least one of the card's name, group, rarity, condition or
    code (all terms must match, any field may); for a term that is already
    lower case, as the argument parser makes them, this is a
    case-insensitive substring match.  On validated cards that carry a code
    the filter returns that selection, in the input order; an empty term
    list keeps every card; and without exclude terms and duplicates flag
    [processCards] returns exactly the validated cards so selected. *)
Theorem includeFilter_keeps (terms : list jsstring) (cards : list card) :
  (Forall complete cards →
   includeFilter terms cards
   = Ok (filter (fun c => forallb (matchesTerm c) terms) cards))
  ∧ (∀ out c, includeFilter terms cards = Ok out →
       c ∈ out ↔ c ∈ cards ∧ ∀ t, t ∈ terms → fieldMatches c t)
  ∧ (∀ c t, toLowerCase t = t → fieldMatches c t ↔ fieldMatchesFolded c t)
  ∧ includeFilter [] cards = Ok cards
  ∧ (∀ expandAll opts out c,
       expandAll (excludeTerms opts) = [] → showDuplicates opts = false →
       processCards expandAll cards opts = Ok out →
       c ∈ out ↔ c ∈ cards ∧ isValidCard c = true
                 ∧ ∀ t, t ∈ expandAll (searchTerms opts) → fieldMatches c t).
Proof.
  split; [apply includeFilter_total|].
  split; [intros out c H; apply (includeFilter_elem _ _ _ _ H)|].
  split; [|split; [reflexivity|]].
  - intros c t Ht. unfold fieldMatches, fieldMatchesFolded. rewrite Ht. reflexivity.
  - intros expandAll opts out c Hex Hdup H.
    apply processCards_Ok in H as (inc & exc & Hinc & Hexc & Hsort).
    rewrite Hex in Hexc. rewrite Hdup in Hsort. injection Hexc as <-.
    rewrite (sortCards_perm _ _ Hsort). cbn [duplicatesFilter].
    rewrite (includeFilter_elem _ _ _ _ Hinc), list_elem_of_filter, Is_true_true. tauto.
Qed.

Lemma includeFilter_keeps_witness :
  Forall complete [abcCard; plainCard]
  ∧ includeFilter [lit "abc"] [abcCard; plainCard] = Ok [abcCard]
  ∧ (fieldMatches abcCard (lit "abc") ↔ fieldMatchesFolded abcCard (lit "abc")).
Proof.
  assert (Hall : Forall complete [abcCard; plainCard]).
  { repeat constructor; vm_compute; eauto. }
  destruct (includeFilter_keeps [lit "abc"] [abcCard; plainCard]) as (Hrun & _ & Hfold & _ & _).
  split; [exact Hall|]. split.
  - rewrite (Hrun Hall). reflexivity.
  - apply Hfold. reflexivity.
Defined.

(** C3, as stated, fails: the term ["ABC"] is a case-insensitive substring
    of the name ["abc"], yet the filter (and the pipeline with it) drops the
    card, because only the field is lower-cased before the comparison. *)
Lemma includeFilter_unfolded_term :
  (∀ t, t ∈ [lit "ABC"] → fieldMatchesFolded abcCard t)
  ∧ includeFilter [lit "ABC"] [abcCard] = Ok []
  ∧ processCards noAliases [abcCard] (query ["ABC"%string] [] false) = Ok [].
Proof.
  split; [|split; reflexivity].
  intros t Ht. apply list_elem_of_singleton in Ht as ->.
  exists (lit "abc"). split.
  - apply list_elem_of_here.
  - exists [], []. reflexivity.
Qed.

(** C4. The exclude filter drops a card if and only if some expanded
    exclude term, taken as it is given, occurs in the lower-cased text of
    one of the same five fields (any term, any field); an empty exclude
    list drops nothing; and since the exclusion runs on what the inclusion
    kept, a card matching an exclude term is never in the result of the
    pipeline, whatever include terms it matches. *)
Theorem excludeFilter_drops (expandAll : list jsstring → list jsstring)
    (terms : list jsstring) (cards : list card) :
  (Forall complete cards →
   excludeFilter terms cards
   = Ok (filter (fun c => negb (existsb (matchesTerm c) terms)) cards))
  ∧ (∀ out c, excludeFilter terms cards = Ok out → c ∈ cards →
       c ∉ out ↔ ∃ t, t ∈ terms ∧ fieldMatches c t)
  ∧ excludeFilter [] cards = Ok cards
  ∧ (∀ opts out c, processCards expandAll cards opts = Ok out →
       (∃ t, t ∈ expandAll (excludeTerms opts) ∧ fieldMatches c t) → c ∉ out)
  ∧ (∀ opts out c, processCards expandAll cards opts = Ok out → c ∈ out →
       ∀ t, t ∈ expandAll (searchTerms opts) → fieldMatches c t).
Proof.
  split; [apply excludeFilter_total|].
  split; [|split; [reflexivity|split]].
  - intros out c H Hc. rewrite (excludeFilter_elem _ _ _ _ H).
    rewrite <- matchesTerm_any. destruct (existsb (matchesTerm c) terms); split.
    + reflexivity.
    + intros _ [_ Hn]. apply Hn. reflexivity.
    + intros Hn. exfalso. apply Hn. split; [assumption|discriminate].
    + discriminate.
  - intros opts out c H Hex Hc.
    apply (processCards_elem _ _ _ _ _ H) in Hc as (_ & _ & _ & Hno). auto.
  - intros opts out c H Hc.
    apply (processCards_elem _ _ _ _ _ H) in Hc as (_ & _ & Hall & _). exact Hall.
Qed.

Lemma excludeFilter_drops_witness :
  Forall complete [abcxyzCard; abcCard]
  ∧ excludeFilter [lit "xyz"] [abcxyzCard; abcCard] = Ok [abcCard]
  ∧ processCards noAliases [abcxyzCard; abcCard] (query ["abc"%string] ["xyz"%string] false)
    = Ok [abcCard]
  ∧ abcxyzCard ∉ [abcCard].
Proof.
  assert (Hall : Forall complete [abcxyzCard; abcCard]).
  { repeat constructor; vm_compute; eauto. }
  destruct (excludeFilter_drops noAliases [lit "xyz"] [abcxyzCard; abcCard])
    as (Hrun & _ & _ & Hpipe & _).
  assert (Hp : processCards noAliases [abcxyzCard; abcCard]
                 (query ["abc"%string] ["xyz"%string] false) = Ok [abcCard])
    by reflexivity.
  split; [exact Hall|]. split; [rewrite (Hrun Hall); reflexivity|]. split; [exact Hp|].
  apply (Hpipe _ _ _ Hp). exists (lit "xyz"). split.
  - apply list_elem_of_here.
  - apply matchesTerm_spec. reflexivity.
Defined.

(** C4, as stated, fails for the reason C3 does: the exclude term ["XYZ"]
    is a case-insensitive substring of the name ["abcxyz"], yet the filter
    (and the pipeline with it) keeps the card, because only the field is
    lower-cased before the comparison. *)
Lemma excludeFilter_unfolded_term :
  (∃ t, t ∈ [lit "XYZ"] ∧ fieldMatchesFolded abcxyzCard t)
  ∧ excludeFilter [lit "XYZ"] [abcxyzCard] = Ok [abcxyzCard]
  ∧ processCards noAliases [abcxyzCard] (query [] ["XYZ"%string] false) = Ok [abcxyzCard].
Proof.
  split; [|split; reflexivity].
  exists (lit "XYZ"). split; [apply list_elem_of_here|].
  exists (lit "abcxyz"). split.
  - apply list_elem_of_here.
  - exists (lit "abc"), []. reflexivity.
Qed.

(** C7 fails on the code: a validated record without a [cardCode] makes
    the include filter call [toLowerCase] on [undefined] as soon as a term
    is found in none of its four other fields, and the [TypeError] leaves
    [processCards]. *)
Theorem processCards_missing_code_throws :
  isValidCard unlistedCard = true
  ∧ cardMatchesTerm unlistedCard (lit "zzz") = Throw TypeError
  ∧ processCards noAliases [unlistedCard] (query ["zzz"%string] [] false) = Throw TypeError
  ∧ processCards noAliases [unlistedCard] (query [] ["zzz"%string] false) = Throw TypeError.
Proof. repeat split; reflexivity. Qed.

(** ** Duplicates *)

Lemma filter_agree {A} (P Q : A → Prop) `{!∀ x, Decision (P x)} `{!∀ x, Decision (Q x)}
    (l : list A) :
  (∀ x, x ∈ l → P x ↔ Q x) → filter P l = filter Q l.
Proof.
  induction l as [|x l IH]; intros Hpq; [reflexivity|].
  rewrite !filter_cons, IH by (intros y Hy; apply Hpq, list_elem_of_further, Hy).
  destruct (decide (P x)) as [Hp|Hp], (decide (Q x)) as [Hq|Hq]; try reflexivity;
    exfalso; apply (Hpq x (list_elem_of_here _ _)) in Hp || apply (Hpq x (list_elem_of_here _ _)) in Hq;
    contradiction.
Qed.

Lemma counts_lookup (cards : list card) (m : gmap jsstring nat) (k : jsstring) :
  default 0%nat (foldl countKey m cards !! k) = (default 0%nat (m !! k) + keyCount k cards)%nat
  ∧ (is_Some (m !! k) → is_Some (foldl countKey m cards !! k)).
Proof.
  revert m. induction cards as [|c cards IH]; intros m; cbn [foldl].
  - unfold keyCount. cbn. split; [lia|auto].
  - destruct (IH (countKey m c)) as [IH1 IH2]. split.
    + rewrite IH1. unfold keyCount, countKey. rewrite filter_cons.
      destruct (decide (templateString (imageURL c) = k)) as [->|Hne].
      * rewrite lookup_insert_eq. cbn. lia.
      * rewrite lookup_insert_ne by assumption. reflexivity.
    + intros Hs. apply IH2. unfold countKey.
      destruct (decide (templateString (imageURL c) = k)) as [->|Hne].
      * rewrite lookup_insert_eq. eauto.
      * rewrite lookup_insert_ne by assumption. exact Hs.
Qed.

Lemma findDuplicates_elem (cards : list card) (k : jsstring) :
  k ∈ findDuplicates cards ↔ (2 ≤ keyCount k cards)%nat.
Proof.
  unfold findDuplicates. rewrite elem_of_dom.
  destruct (counts_lookup cards ∅ k) as [Hcount _].
  rewrite lookup_empty in Hcount. cbn in Hcount. split.
  - intros [v Hv]. apply map_lookup_filter_Some in Hv as [Hv Hgt].
    rewrite Hv in Hcount. cbn in *. lia.
  - intros Hge. destruct (foldl countKey ∅ cards !! k) as [v|] eqn:Hv; cbn in Hcount.
    + exists v. apply map_lookup_filter_Some. split; [exact Hv|]. cbn. lia.
    + lia.
Qed.

Lemma keyCount_imageCount (c : card) (k : jsstring) (cards : list card) :
  imageURL c = Some k → Forall (fun c' => is_Some (imageURL c')) cards →
  keyCount k cards = imageCount c cards.
Proof.
  intros Hk Hall. unfold keyCount, imageCount. f_equal.
  apply filter_agree. intros c' Hc'. rewrite Forall_forall in Hall.
  destruct (Hall c' Hc') as [k' Hk']. rewrite Hk, Hk'. cbn. split; congruence.
Qed.

Lemma imageCount_perm (c : card) (l l' : list card) :
  l ≡ₚ l' → imageCount c l = imageCount c l'.
Proof. intros H. unfold imageCount. rewrite H. reflexivity. Qed.

Lemma duplicatesFilter_on (cards : list card) :
  Forall (fun c => is_Some (imageURL c)) cards →
  duplicatesFilter true cards = filter (fun c => (2 ≤ imageCount c cards)%nat) cards.
Proof.
  intros Hall. unfold duplicatesFilter. apply filter_agree. intros c Hc.
  rewrite Forall_forall in Hall. destruct (Hall c Hc) as [k Hk].
  unfold hasImage. rewrite Hk, bool_decide_spec, findDuplicates_elem.
  rewrite (keyCount_imageCount c k cards Hk); [reflexivity|].
  apply Forall_forall, Hall.
Qed.

Lemma filter_valid_Forall (cards : list card) :
  Forall (fun c => isValidCard c = true) (filter (fun c => isValidCard c) cards).
Proof.
  apply Forall_forall. intros c Hc.
  apply list_elem_of_filter in Hc as [Hv _]. apply Is_true_true, Hv.
Qed.

(** On records that all carry an image key the duplicates-only flag does
    what is asked of it: the pipeline returns exactly those cards of the
    include/exclude-filtered set (what it returns without the flag) whose
    image key is carried by at least two cards of that set. *)
Theorem duplicatesFilter_keeps (expandAll : list jsstring → list jsstring)
    (cards : list card) (incl excl : list jsstring) (user : jsstring) (pg : jsinteger)
    (shown : list card) :
  processCards expandAll cards (Options incl excl user pg false) = Ok shown →
  Forall (fun c => is_Some (imageURL c)) shown →
  ∃ out,
    processCards expandAll cards (Options incl excl user pg true) = Ok out
    ∧ out ≡ₚ filter (fun c => (2 ≤ imageCount c shown)%nat) shown
    ∧ ∀ c, c ∈ out ↔ c ∈ shown ∧ (2 ≤ imageCount c shown)%nat.
Proof.
  intros Hoff Himg.
  apply processCards_Ok in Hoff as (inc & exc & Hinc & Hexc & Hsort).
  cbn [searchTerms excludeTerms showDuplicates duplicatesFilter] in *.
  pose proof (sortCards_perm _ _ Hsort) as Hperm.
  assert (Hvalid : Forall (fun c => isValidCard c = true) exc).
  { apply Forall_forall. intros c Hc.
    apply (excludeFilter_elem _ _ _ _ Hexc) in Hc as [Hc _].
    apply (includeFilter_elem _ _ _ _ Hinc) in Hc as [Hc _].
    apply list_elem_of_filter in Hc as [Hv _]. apply Is_true_true, Hv. }
  assert (Himg' : Forall (fun c => is_Some (imageURL c)) exc) by (rewrite <- Hperm; exact Himg).
  destruct (sortCards_total (duplicatesFilter true exc)) as [out Hout].
  { apply Forall_forall. intros c Hc. apply duplicatesFilter_elem in Hc.
    rewrite Forall_forall in Hvalid. auto. }
  assert (Hres : out ≡ₚ filter (fun c => (2 ≤ imageCount c shown)%nat) shown).
  { rewrite (sortCards_perm _ _ Hout), (duplicatesFilter_on exc Himg'), Hperm.
    rewrite (filter_agree (fun c => (2 ≤ imageCount c exc)%nat)
                          (fun c => (2 ≤ imageCount c shown)%nat) exc); [reflexivity|].
    intros c _. rewrite (imageCount_perm c shown exc Hperm). reflexivity. }
  exists out. split; [|split; [exact Hres|]].
  - unfold processCards. cbn [searchTerms excludeTerms showDuplicates].
    rewrite Hinc. cbn [mbind result_bind]. rewrite Hexc. cbn [mbind result_bind]. exact Hout.
  - intros c. rewrite Hres, list_elem_of_filter. tauto.
Qed.

Lemma duplicatesFilter_keeps_witness :
  ∃ out,
    processCards noAliases [plainCard; abcxyzCard; abcCard; xyzTwin]
                 (Options [] [] (lit "1") (Finite 1) true) = Ok out
    ∧ out ≡ₚ filter (fun c => (2 ≤ imageCount c [abcCard; abcxyzCard; plainCard; xyzTwin])%nat)
                    [abcCard; abcxyzCard; plainCard; xyzTwin]
    ∧ ∀ c, c ∈ out ↔ c ∈ [abcCard; abcxyzCard; plainCard; xyzTwin]
                     ∧ (2 ≤ imageCount c [abcCard; abcxyzCard; plainCard; xyzTwin])%nat.
Proof.
  apply (duplicatesFilter_keeps noAliases [plainCard; abcxyzCard; abcCard; xyzTwin]
           [] [] (lit "1") (Finite 1) [abcCard; abcxyzCard; plainCard; xyzTwin]).
  - reflexivity.
  - repeat constructor; eauto.
Defined.

(** Scenario D, and the count taken on the filtered set: three cards share
    the key ["i1"]; once the term ["standard"] excludes two of them, the
    third is alone with its key. *)
Example duplicates_of_filtered_set :
  processCards noAliases [plainCard; abcxyzCard; abcCard; xyzTwin] (query [] [] true)
  = Ok [abcCard; plainCard; xyzTwin]
  ∧ processCards noAliases [plainCard; abcxyzCard; abcCard; xyzTwin]
                 (query [] ["standard"%string] true)
    = Ok [].
Proof. split; vm_compute; reflexivity. Qed.

(** C5. The duplicates-only flag on a record without image key: [countKey]
    files the record under the text ["undefined"], while the filter looks
    the key up as it is.  So of a record without key and a record whose key
    is the text ["undefined"], two different keys that each occur once, the
    second is returned; and records that lack the key are never returned,
    whatever they share. *)
Theorem duplicatesFilter_missing_key :
  isValidCard keylessCard = true ∧ isValidCard undefinedKeyCard = true
  ∧ processCards noAliases [keylessCard; undefinedKeyCard] (query [] [] false)
    = Ok [keylessCard; undefinedKeyCard]
  ∧ imageCount undefinedKeyCard [keylessCard; undefinedKeyCard] = 1%nat
  ∧ processCards noAliases [keylessCard; undefinedKeyCard] (query [] [] true)
    = Ok [undefinedKeyCard]
  ∧ imageCount keylessCard [keylessCard; keylessCard] = 2%nat
  ∧ processCards noAliases [keylessCard; keylessCard] (query [] [] true) = Ok [].
Proof. repeat split; vm_compute; reflexivity. Qed.

(** ** Three-way comparisons *)

Lemma goodCompare_total {A} (f : A → A → comparison) (a b : A) :
  goodCompare f → f a b ≠ Gt ∨ f b a ≠ Gt.
Proof.
  intros (Hopp & _). rewrite (Hopp a b). destruct (f a b); cbn; auto.
Qed.

Lemma goodCompare_trans {A} (f : A → A → comparison) (a b c : A) :
  goodCompare f → f a b ≠ Gt → f b c ≠ Gt → f a c ≠ Gt.
Proof.
  intros (Hopp & Heq & Hlt & Hle) Hab Hbc.
  destruct (f a b) eqn:Eab; [| |contradiction].
  - rewrite (Heq a b c (f b c) Eab eq_refl). exact Hbc.
  - destruct (f b c) eqn:Ebc; [| |contradiction].
    + rewrite (Hle a b c Eab Ebc). discriminate.
    + rewrite (Hlt a b c Eab Ebc). discriminate.
Qed.

Lemma Zcompare_good : goodCompare Z.compare.
Proof.
  repeat split.
  - intros a b. apply Z.compare_antisym.
  - intros a b c r Hab. apply Z.compare_eq in Hab. congruence.
  - intros a b c. rewrite !Z.compare_lt_iff. lia.
  - intros a b c Hab Hbc. apply Z.compare_eq in Hbc. congruence.
Qed.

Lemma flip_good {A} (f : A → A → comparison) :
  goodCompare f → goodCompare (fun x y => f y x).
Proof.
  intros (Hopp & Heq & Hlt & Hle). repeat split.
  - intros a b. apply Hopp.
  - intros a b c r Hab Hbc.
    assert (Hba : f a b = Eq) by (rewrite (Hopp b a), Hab; reflexivity).
    destruct r.
    + rewrite (Hopp a c). rewrite (Heq a b c Eq Hba); [reflexivity|].
      rewrite (Hopp c b), Hbc. reflexivity.
    + rewrite (Hopp a c).
      assert (f b c = Gt) by (rewrite (Hopp c b), Hbc; reflexivity).
      rewrite (Heq a b c Gt Hba); auto.
    + rewrite (Hopp a c).
      assert (f b c = Lt) by (rewrite (Hopp c b), Hbc; reflexivity).
      rewrite (Heq a b c Lt Hba); auto.
  - intros a b c Hab Hbc. apply (Hlt c b a); assumption.
  - intros a b c Hab Hbc. apply (Heq c b a Lt); assumption.
Qed.

Lemma compareOn_good {A K} (key : A → K) (f : K → K → comparison) :
  goodCompare f → goodCompare (compareOn key f).
Proof.
  intros (Hopp & Heq & Hlt & Hle). unfold compareOn. repeat split; eauto.
Qed.

Lemma thenCompare_good {A} (f g : A → A → comparison) :
  goodCompare f → goodCompare g → goodCompare (thenCompare f g).
Proof.
  intros (Fopp & Feq & Flt & Fle) (Gopp & Geq & Glt & Gle). unfold thenCompare.
  repeat split.
  - intros a b. rewrite (Fopp a b). destruct (f a b); cbn; auto.
  - intros a b c r. destruct (f a b) eqn:Eab; [|discriminate..]. intros Hg.
    rewrite (Feq a b c (f b c) Eab eq_refl).
    destruct (f b c); [apply Geq; assumption|auto..].
  - intros a b c. destruct (f a b) eqn:Eab; [| |discriminate].
    + rewrite (Feq a b c (f b c) Eab eq_refl). destruct (f b c); eauto.
    + intros _. destruct (f b c) eqn:Ebc; [| |discriminate].
      * rewrite (Fle a b c Eab Ebc). reflexivity.
      * rewrite (Flt a b c Eab Ebc). reflexivity.
  - intros a b c. destruct (f a b) eqn:Eab; [| |discriminate].
    + rewrite (Feq a b c (f b c) Eab eq_refl). destruct (f b c); eauto; discriminate.
    + intros _. destruct (f b c) eqn:Ebc; [|discriminate..].
      rewrite (Fle a b c Eab Ebc). reflexivity.
Qed.

Lemma lexCompare_eq (a b : list N) : lexCompare a b = Eq ↔ a = b.
Proof.
  revert b. induction a as [|x a IH]; intros [|y b]; cbn; try (split; congruence).
  destruct (N.compare_spec x y) as [->|Hlt|Hgt].
  - rewrite IH. split; congruence.
  - split; [discriminate|]. intros [= -> _]. lia.
  - split; [discriminate|]. intros [= -> _]. lia.
Qed.

Lemma lexCompare_opp (a b : list N) : lexCompare b a = CompOpp (lexCompare a b).
Proof.
  revert b. induction a as [|x a IH]; intros [|y b]; cbn; try reflexivity.
  rewrite (N.compare_antisym x y). destruct (x ?= y)%N; cbn; auto.
Qed.

Lemma lexCompare_lt_trans (a b c : list N) :
  lexCompare a b = Lt → lexCompare b c = Lt → lexCompare a c = Lt.
Proof.
  revert b c. induction a as [|x a IH]; intros [|y b] [|z c]; cbn; try congruence.
  destruct (N.compare_spec x y) as [->|Hxy|Hxy]; [| |discriminate].
  - destruct (N.compare_spec y z) as [->|Hyz|Hyz]; [| |discriminate].
    + apply IH.
    + reflexivity.
  - intros _. destruct (N.compare_spec y z) as [->|Hyz|Hyz]; [| |discriminate].
    + intros _. apply N.compare_lt_iff in Hxy. rewrite Hxy. reflexivity.
    + intros _. assert (Hxz : (x < z)%N) by lia.
      apply N.compare_lt_iff in Hxz. rewrite Hxz. reflexivity.
Qed.

Lemma lexCompare_good : goodCompare lexCompare.
Proof.
  repeat split.
  - intros a b. apply lexCompare_opp.
  - intros a b c r Hab. apply lexCompare_eq in Hab. congruence.
  - apply lexCompare_lt_trans.
  - intros a b c Hab Hbc. apply lexCompare_eq in Hbc. congruence.
Qed.

Lemma collate_good : goodCompare collate.
Proof.
  apply (thenCompare_good (compareOn (fmap primaryWeight) lexCompare)
                          (compareOn (fmap caseWeight) lexCompare));
    apply compareOn_good, lexCompare_good.
Qed.

Lemma cardCompare_good : goodCompare cardCompare.
Proof.
  unfold cardCompare.
  apply thenCompare_good; [apply compareOn_good, (flip_good Z.compare Zcompare_good)|].
  apply thenCompare_good; [apply compareOn_good, Zcompare_good|].
  apply thenCompare_good; apply compareOn_good, collate_good.
Qed.

(** ** The comparator of [sortCards] *)

Lemma sortsBefore_cardCompare (a b : card) :
  sortsBefore a b ↔ cardCompare a b ≠ Gt.
Proof.
  unfold sortsBefore, cardCompare, thenCompare, compareOn, localeCompare. cbn zeta.
  generalize (default 0 (rarityRank a)) (default 0 (rarityRank b))
             (default 0 (conditionRank a)) (default 0 (conditionRank b)).
  intros ra rb ca cb.
  destruct (Z.compare_spec rb ra); destruct (Z.compare_spec ca cb);
    destruct (collate (default [] (group a)) (default [] (group b)));
    destruct (collate (default [] (name a)) (default [] (name b)));
    split; intros Hyp; try discriminate; try lia; try (exfalso; apply Hyp; reflexivity).
Qed.

Lemma sortsBefore_total (a b : card) : sortsBefore a b ∨ sortsBefore b a.
Proof. rewrite !sortsBefore_cardCompare. apply goodCompare_total, cardCompare_good. Qed.

Lemma sortsBefore_trans (a b c : card) :
  sortsBefore a b → sortsBefore b c → sortsBefore a c.
Proof. rewrite !sortsBefore_cardCompare. apply goodCompare_trans, cardCompare_good. Qed.

Lemma compareCards_ranked (a b : card) :
  ranked a → ranked b →
  ∃ v, compareCards a b = Ok v ∧ (v ≤ 0 ↔ sortsBefore a b).
Proof.
  intros (Ha & [ra Hra] & [ca Hca]) (Hb & [rb Hrb] & [cb Hcb]).
  apply valid_fields in Ha as ([na Hna] & [ga Hga] & [sa Hsa] & [ka Hka]).
  apply valid_fields in Hb as ([nb Hnb] & [gb Hgb] & [sb Hsb] & [kb Hkb]).
  unfold sortsBefore. rewrite Hra, Hrb, Hca, Hcb, Hga, Hgb, Hna, Hnb.
  unfold rarityRank, conditionRank in *. rewrite Hsa in Hra. rewrite Hsb in Hrb.
  rewrite Hka in Hca. rewrite Hkb in Hcb. cbn [default from_option id] in *.
  unfold compareCards. rewrite Hsa, Hsb, Hka, Hkb, Hga, Hgb, Hna, Hnb.
  cbn [receiver mbind result_bind templateString]. rewrite Hra, Hrb, Hca, Hcb.
  cbn [jsminus truthyNum default from_option id].
  destruct (Z.eqb_spec (rb - ra) 0) as [Hr|Hr]; cbn [negb].
  2: { eexists; split; [reflexivity|]. lia. }
  destruct (Z.eqb_spec (ca - cb) 0) as [Hc|Hc]; cbn [negb].
  2: { eexists; split; [reflexivity|]. lia. }
  destruct (Z.eqb_spec (localeCompare ga gb) 0) as [Hg|Hg]; cbn [negb].
  2: { eexists; split; [reflexivity|]. lia. }
  eexists; split; [reflexivity|]. lia.
Qed.

(** ** Insertion keeps a sorted list sorted *)

Lemma insertCard_sorted (x : card) (l : list card) :
  ranked x → Forall ranked l → StronglySorted sortsBefore l →
  ∃ r, insertCard x l = Ok r ∧ r ≡ₚ x :: l ∧ StronglySorted sortsBefore r.
Proof.
  intros Hx Hl Hs. induction l as [|y l IH]; cbn [insertCard].
  - exists [x]. repeat split; [reflexivity|]. repeat constructor.
  - apply Forall_cons in Hl as [Hy Hl]. apply StronglySorted_inv in Hs as [Hs Hyl].
    destruct (compareCards_ranked x y Hx Hy) as (v & -> & Hv). cbn [mbind result_bind].
    destruct (Z.leb_spec v 0) as [Hle|Hgt].
    + exists (x :: y :: l). repeat split; [reflexivity|].
      apply Hv in Hle. constructor; [constructor; assumption|].
      constructor; [assumption|].
      eapply Forall_impl; [exact Hyl|]. intros z Hz. eapply sortsBefore_trans; eassumption.
    + destruct (IH Hl Hs) as (r & -> & Hperm & Hsorted). cbn [mbind result_bind].
      exists (y :: r). repeat split.
      * rewrite Hperm. apply Permutation_swap.
      * constructor; [assumption|]. rewrite Hperm. constructor; [|assumption].
        destruct (sortsBefore_total x y) as [H|H]; [|assumption].
        apply Hv in H. lia.
Qed.

Lemma sortCards_sorted (cards : list card) :
  Forall ranked cards →
  ∃ out, sortCards cards = Ok out ∧ out ≡ₚ cards ∧ StronglySorted sortsBefore out.
Proof.
  induction 1 as [|x l Hx Hl IH]; cbn [sortCards].
  - exists []. repeat split; [reflexivity|constructor].
  - destruct IH as (s & -> & Hperm & Hs). cbn [mbind result_bind].
    destruct (insertCard_sorted x s Hx) as (r & Hr & Hp & Hsorted);
      [rewrite Hperm; assumption|assumption|].
    exists r. repeat split; [assumption| |assumption].
    rewrite Hp, Hperm. reflexivity.
Qed.

(** C6 (as amended). On cards whose rarity and condition belong to the two
    closed sets, [sortCards] returns a rearrangement of its input in which
    every card stands before every later one in this order: higher rarity
    rank first, then lower (better) condition rank, then the group and
    then the name in the ascending order of [localeCompare], which orders
    letters alphabetically whatever their case but does not tie two texts
    that differ in case only.  A mythic card always precedes a standard
    one; the two cards of scenario A come out as [X1, Y1]. *)
Theorem sortCards_orders (cards : list card) :
  Forall ranked cards →
  (∃ out, sortCards cards = Ok out ∧ out ≡ₚ cards ∧ StronglySorted sortsBefore out)
  ∧ (∀ a b, rarityRank a = Some 4 → rarityRank b = Some 1 →
       sortsBefore a b ∧ ¬ sortsBefore b a)
  ∧ processCards noAliases [plainCard; mythicCard] (query [] [] false)
    = Ok [mythicCard; plainCard].
Proof.
  intros Hall. split; [apply sortCards_sorted, Hall|]. split; [|reflexivity].
  intros a b Ha Hb. unfold sortsBefore. rewrite Ha, Hb. cbn [default from_option id].
  split; [left; lia|]. intros [H|[H _]]; lia.
Qed.

Lemma sortCards_orders_witness :
  Forall ranked [plainCard; abcCard; mythicCard]
  ∧ ∃ out, sortCards [plainCard; abcCard; mythicCard] = Ok out
           ∧ out ≡ₚ [plainCard; abcCard; mythicCard]
           ∧ StronglySorted sortsBefore out.
Proof.
  assert (Hall : Forall ranked [plainCard; abcCard; mythicCard]).
  { repeat constructor; vm_compute; eauto. }
  split; [exact Hall|].
  apply (sortCards_orders [plainCard; abcCard; mythicCard] Hall).
Defined.

(** C6, as stated, fails: two cards of equal rarity and condition whose
    groups differ in case only (["a"] and ["A"]) are not tied on the group.
    The card of group ["a"] comes first although its name ["b"] sorts after
    the other card's name ["a"], which a case-insensitive comparison of the
    groups followed by the names would put first. *)
Lemma sortCards_case_decides :
  sortCards [upperGroupCard; lowerGroupCard] = Ok [lowerGroupCard; upperGroupCard]
  ∧ sortCards [lowerGroupCard; upperGroupCard] = Ok [lowerGroupCard; upperGroupCard]
  ∧ ¬ sortsBeforeFolded lowerGroupCard upperGroupCard
  ∧ ¬ StronglySorted sortsBeforeFolded [lowerGroupCard; upperGroupCard].
Proof.
  assert (Hno : ¬ sortsBeforeFolded lowerGroupCard upperGroupCard).
  { unfold sortsBeforeFolded. vm_compute. intuition congruence. }
  split; [reflexivity|]. split; [reflexivity|]. split; [exact Hno|].
  intros Hs. apply StronglySorted_inv in Hs as [_ Hs].
  apply Forall_cons in Hs as [Hs _]. exact (Hno Hs).
Qed.

(** C8 (as amended). Validation keeps a record exactly when its name,
    group, rarity and condition are present and not empty; it does not
    compare the rarity with the closed set.  Every list of validated
    records, whatever their rarity and condition texts, is sorted without
    an exception and without losing a record; and with no terms and no
    duplicates flag the pipeline returns all validated records. *)
Theorem isValidCard_checks_presence (expandAll : list jsstring → list jsstring)
    (cards : list card) :
  (∀ c, isValidCard c = true ↔
        ∃ n g r k, name c = Some n ∧ group c = Some g ∧ rarity c = Some r
                   ∧ condition c = Some k ∧ n ≠ [] ∧ g ≠ [] ∧ r ≠ [] ∧ k ≠ [])
  ∧ (Forall (fun c => isValidCard c = true) cards →
     ∃ out, sortCards cards = Ok out ∧ out ≡ₚ cards)
  ∧ (∀ opts, expandAll (searchTerms opts) = [] → expandAll (excludeTerms opts) = [] →
       showDuplicates opts = false →
       ∃ out, processCards expandAll cards opts = Ok out
              ∧ out ≡ₚ filter (fun c => isValidCard c) cards).
Proof.
  split; [|split].
  - intros c. unfold isValidCard, truthy. rewrite !andb_true_iff. split.
    + destruct (name c) as [[|? n]|], (group c) as [[|? g]|], (rarity c) as [[|? r]|],
        (condition c) as [[|? k]|]; intros (((H1 & H2) & H3) & H4); try discriminate.
      do 4 eexists. repeat split; discriminate.
    + intros (n & g & r & k & -> & -> & -> & -> & Hn & Hg & Hr & Hk).
      destruct n, g, r, k; try contradiction; auto.
  - intros Hall. destruct (sortCards_total cards Hall) as [out Hout].
    exists out. split; [assumption|]. apply (sortCards_perm _ _ Hout).
  - intros opts Hs He Hd. unfold processCards. rewrite Hs, He, Hd.
    cbn [includeFilter excludeFilter duplicatesFilter bool_decide mbind result_bind].
    unfold includeFilter, excludeFilter. rewrite !bool_decide_eq_true_2 by reflexivity.
    cbn [mbind result_bind duplicatesFilter].
    destruct (sortCards_total _ (filter_valid_Forall cards)) as [out Hout].
    exists out. split; [assumption|]. apply (sortCards_perm _ _ Hout).
Qed.

Lemma isValidCard_checks_presence_witness :
  Forall (fun c => isValidCard c = true) [abcCard; legendaryCard]
  ∧ (∃ out, sortCards [abcCard; legendaryCard] = Ok out ∧ out ≡ₚ [abcCard; legendaryCard])
  ∧ ∃ out, processCards noAliases [abcCard; legendaryCard] (query [] [] false) = Ok out
           ∧ out ≡ₚ filter (fun c => isValidCard c) [abcCard; legendaryCard].
Proof.
  assert (Hall : Forall (fun c => isValidCard c = true) [abcCard; legendaryCard]).
  { repeat constructor. }
  destruct (isValidCard_checks_presence noAliases [abcCard; legendaryCard])
    as (_ & Hsort & Hpipe).
  split; [exact Hall|]. split; [exact (Hsort Hall)|].
  apply Hpipe; reflexivity.
Defined.

(** C8, as stated, fails: the rarity ["legendary"] is in no table, yet the
    record is valid, reaches [sortCards], and is placed, here ahead of a
    mythic card, by its condition. *)
Lemma unknown_rarity_is_sorted :
  RARITY_ORDER (toLowerCase (lit "legendary")) = None
  ∧ isValidCard legendaryCard = true
  ∧ processCards noAliases [abcCard; legendaryCard] (query [] [] false)
    = Ok [legendaryCard; abcCard].
Proof. repeat split; reflexivity. Qed.

(** ** Page description *)

Lemma slice_prefix {A} (l : list A) (n : nat) :
  (n ≤ length l)%nat → slice l 0 (Z.of_nat n) = take n l.
Proof.
  intros Hn. unfold slice, sliceIndex.
  destruct (Z.ltb_spec 0 0); [lia|]. destruct (Z.ltb_spec (Z.of_nat n) 0); [lia|].
  replace (Z.to_nat (Z.min 0 (Z.of_nat (length l)))) with 0%nat by lia.
  replace (Z.to_nat (Z.min (Z.of_nat n) (Z.of_nat (length l)))) with n by lia.
  rewrite Nat.sub_0_r. reflexivity.
Qed.

Lemma groupPush_allGrouped (P : card → Prop) (key : jsstring) (c : card) (grouped : groups) :
  P c → allGrouped P grouped → allGrouped P (groupPush key c grouped).
Proof.
  intros Hc. unfold allGrouped. induction 1 as [|[k cs] rest Hcs Hrest IH]; cbn [groupPush].
  - repeat constructor. assumption.
  - destruct (decide (k = key)).
    + constructor; [|assumption]. cbn in *. apply Forall_app. split; [assumption|].
      repeat constructor. assumption.
    + constructor; assumption.
Qed.

Lemma groupByRarity_total (P : card → Prop) (cards : list card) (grouped : groups) :
  Forall printable cards → Forall P cards → allGrouped P grouped →
  ∃ g, groupByRarity cards grouped = Ok g ∧ allGrouped P g.
Proof.
  intros Hprint. revert grouped.
  induction Hprint as [|c cards ([r Hr] & _ & Hkey) _ IH]; intros grouped HP Hg;
    cbn [groupByRarity].
  - eauto.
  - apply Forall_cons in HP as [Hc HP]. rewrite Hr in *. cbn [receiver mbind result_bind].
    cbn [default from_option id] in Hkey. rewrite Hkey.
    apply IH; [assumption|]. apply groupPush_allGrouped; assumption.
Qed.

Lemma insertIndexed_perm (e : N * (jsstring * list card)) (l : list (N * (jsstring * list card))) :
  insertIndexed e l ≡ₚ e :: l.
Proof.
  induction l as [|y l IH]; cbn [insertIndexed]; [reflexivity|].
  destruct (e.1 <=? y.1)%N; [reflexivity|]. rewrite IH. apply Permutation_swap.
Qed.

Lemma objectEntries_elem (grouped : groups) (e : jsstring * list card) :
  e ∈ objectEntries grouped → e ∈ grouped.
Proof.
  unfold objectEntries. rewrite elem_of_app. intros [H|H].
  - apply list_elem_of_fmap in H as [[i e'] [-> H]]. cbn.
    assert (Hperm : ∀ l : list (N * (jsstring * list card)), foldr insertIndexed [] l ≡ₚ l).
    { induction l as [|x l IH]; cbn [foldr]; [reflexivity|].
      rewrite insertIndexed_perm, IH. reflexivity. }
    rewrite Hperm in H. apply list_elem_of_omap in H as [e0 [He0 H]].
    destruct (arrayIndex e0.1); cbn in H; [|discriminate].
    injection H as _ ->. assumption.
  - apply list_elem_of_filter in H as [_ H]. assumption.
Qed.

Lemma objectEntries_allGrouped (P : card → Prop) (grouped : groups) :
  allGrouped P grouped → allGrouped P (objectEntries grouped).
Proof.
  unfold allGrouped. rewrite !Forall_forall. intros H e He.
  apply H, objectEntries_elem, He.
Qed.

Section DescriptionFacts.
Variables RARITY_EMOJIS CONDITION_EMOJIS : jsstring → jsfield.

Lemma cardLines_total (cards : list card) :
  Forall (fun c => is_Some (condition c)) cards →
  ∃ s, cardLines CONDITION_EMOJIS cards = Ok s.
Proof.
  induction 1 as [|c cards [k Hk] _ [s IH]]; cbn [cardLines]; [eauto|].
  unfold cardLine. rewrite Hk. cbn [receiver mbind result_bind].
  rewrite IH. cbn [mbind result_bind]. eauto.
Qed.

Lemma rarityBlocks_total (entries : groups) :
  allGrouped (fun c => is_Some (condition c)) entries →
  ∃ s, rarityBlocks RARITY_EMOJIS CONDITION_EMOJIS entries = Ok s.
Proof.
  unfold allGrouped. induction 1 as [|[k cs] rest Hcs _ [s IH]]; cbn [rarityBlocks]; [eauto|].
  destruct (cardLines_total cs Hcs) as [ls ->]. cbn [mbind result_bind].
  rewrite IH. cbn [mbind result_bind]. eauto.
Qed.

Lemma descriptionText_total (cards : list card) :
  Forall printable cards →
  ∃ text, descriptionText RARITY_EMOJIS CONDITION_EMOJIS cards = Ok text.
Proof.
  intros Hall. unfold descriptionText.
  destruct (groupByRarity_total (fun c => is_Some (condition c)) cards [] Hall)
    as (g & -> & Hg).
  - eapply Forall_impl; [exact Hall|]. intros c (_ & H & _). exact H.
  - constructor.
  - cbn [mbind result_bind].
    destruct (rarityBlocks_total (objectEntries g)) as [s ->];
      [apply objectEntries_allGrouped, Hg|].
    cbn [mbind result_bind]. eauto.
Qed.

(** C10. Whatever the cards, a description that [buildCardDescription]
    returns has at most 4096 code units: a text longer than that is cut to
    its first 4090 code units followed by a line break and three dots
    (4094 in all), a shorter one is returned as it is, and an empty page
    gives the fixed, non-empty text "No cards found for this page.".  On
    cards that carry a rarity and a condition the function does return. *)
Theorem buildCardDescription_length (cards : list card) :
  (∀ s, buildCardDescription RARITY_EMOJIS CONDITION_EMOJIS cards = Ok s →
        (length s ≤ 4096)%nat)
  ∧ (∀ text, cards ≠ [] →
       descriptionText RARITY_EMOJIS CONDITION_EMOJIS cards = Ok text →
       buildCardDescription RARITY_EMOJIS CONDITION_EMOJIS cards
       = Ok (if (4096 <? length text)%nat
             then take 4090 text ++ newline ++ lit "..." else text))
  ∧ (Forall printable cards →
     ∃ s, buildCardDescription RARITY_EMOJIS CONDITION_EMOJIS cards = Ok s)
  ∧ buildCardDescription RARITY_EMOJIS CONDITION_EMOJIS [] = Ok noCardsText
  ∧ length noCardsText = 29%nat.
Proof.
  assert (Hcut : ∀ text, cards ≠ [] →
       descriptionText RARITY_EMOJIS CONDITION_EMOJIS cards = Ok text →
       buildCardDescription RARITY_EMOJIS CONDITION_EMOJIS cards
       = Ok (if (4096 <? length text)%nat
             then take 4090 text ++ newline ++ lit "..." else text)).
  { intros text Hne Htext. unfold buildCardDescription.
    rewrite bool_decide_eq_false_2 by assumption. rewrite Htext.
    cbn [mbind result_bind].
    destruct (Nat.ltb_spec 4096 (length text)) as [Hlong|Hshort]; [|reflexivity].
    change 4090 with (Z.of_nat 4090). rewrite slice_prefix by lia. reflexivity. }
  split; [|split; [exact Hcut|split; [|split; reflexivity]]].
  - intros s. destruct (decide (cards = [])) as [->|Hne].
    + intros [= <-]. cbn. lia.
    + destruct (descriptionText RARITY_EMOJIS CONDITION_EMOJIS cards) as [text|e] eqn:Htext.
      * rewrite (Hcut text Hne eq_refl). intros [= <-].
        destruct (Nat.ltb_spec 4096 (length text)) as [Hlong|Hshort]; [|assumption].
        rewrite !length_app, length_take. cbn [length]. lia.
      * unfold buildCardDescription. rewrite bool_decide_eq_false_2 by assumption.
        rewrite Htext. discriminate.
  - intros Hall. destruct (decide (cards = [])) as [->|Hne]; [eexists; reflexivity|].
    destruct (descriptionText_total cards Hall) as [text Htext].
    rewrite (Hcut text Hne Htext). eauto.
Qed.
End DescriptionFacts.

Lemma buildCardDescription_length_witness :
  Forall printable [longCard]
  ∧ ∃ s, buildCardDescription noEmojis noEmojis [longCard] = Ok s ∧ (length s ≤ 4096)%nat.
Proof.
  assert (Hall : Forall printable [longCard]).
  { repeat constructor; vm_compute; eauto. }
  destruct (buildCardDescription_length noEmojis noEmojis [longCard]) as (Hlen & _ & Htot & _).
  split; [exact Hall|].
  destruct (Htot Hall) as [s Hs]. exists s. split; [exact Hs|exact (Hlen s Hs)].
Defined.

(** A name of 5000 code units: the description is cut to 4094. *)
Example long_description_is_cut :
  length <$> (match buildCardDescription noEmojis noEmojis [longCard] with
              | Ok s => Some s
              | Throw _ => None
              end) = Some 4094%nat.
Proof. vm_compute. reflexivity. Qed.

(** A rarity that spells an inherited key of the [grouped] object cannot
    be printed. *)
Example inherited_rarity_key_throws :
  isValidCard (fullCard "n" "g" "Constructor" "mint" "c" "i") = true
  ∧ buildCardDescription noEmojis noEmojis [fullCard "n" "g" "Constructor" "mint" "c" "i"]
    = Throw TypeError.
Proof. split; reflexivity. Qed.

(** ** Listeners *)

Lemma existsb_sameHandler (h : handler) (ls : list handler) :
  existsb (sameHandler h) ls = true ↔ h_id h ∈ h_id <$> ls.
Proof.
  rewrite existsb_exists, list_elem_of_fmap. unfold sameHandler. split.
  - intros [x [Hin Hx]]. exists x. apply bool_decide_eq_true in Hx.
    split; [assumption|apply list_elem_of_In, Hin].
  - intros [x [Hx Hin]]. exists x. split; [apply list_elem_of_In, Hin|].
    apply bool_decide_eq_true. assumption.
Qed.

Lemma removeListener_filter (h : handler) (ls : list handler) :
  NoDup (h_id <$> ls) →
  removeListener h ls = filter (fun x => h_id x ≠ h_id h) ls.
Proof.
  induction ls as [|x rest IH]; intros Hnd; [reflexivity|].
  rewrite fmap_cons in Hnd. apply NoDup_cons in Hnd as [Hx Hnd].
  cbn [removeListener]. rewrite filter_cons.
  destruct (existsb (sameHandler h) rest) eqn:Hex.
  - apply existsb_sameHandler in Hex.
    destruct (decide (h_id x ≠ h_id h)) as [_|Heq].
    + rewrite IH by assumption. reflexivity.
    + exfalso. apply Hx. apply dec_stable in Heq. rewrite Heq. assumption.
  - assert (Hrest : filter (fun y => h_id y ≠ h_id h) rest = rest).
    { apply filter_keeps_all. intros y Hy Heq.
      assert (Hin : existsb (sameHandler h) rest = true).
      { apply existsb_sameHandler. rewrite <- Heq. apply list_elem_of_fmap. eauto. }
      congruence. }
    rewrite Hrest. unfold sameHandler. case_bool_decide as Hid.
    + destruct (decide (h_id x ≠ h_id h)); [congruence|reflexivity].
    + destruct (decide (h_id x ≠ h_id h)); [reflexivity|].
      exfalso. apply Hid. symmetry. apply dec_stable. assumption.
Qed.

Lemma removeListener_elem (h x : handler) (ls : list handler) :
  NoDup (h_id <$> ls) →
  x ∈ removeListener h ls ↔ x ∈ ls ∧ h_id x ≠ h_id h.
Proof.
  intros Hnd. rewrite removeListener_filter by assumption.
  rewrite list_elem_of_filter. tauto.
Qed.

Lemma removeListener_NoDup (h : handler) (ls : list handler) :
  NoDup (h_id <$> ls) → NoDup (h_id <$> removeListener h ls).
Proof.
  intros Hnd. rewrite removeListener_filter by assumption.
  eapply sublist_NoDup; first [exact Hnd | apply fmap_sublist, sublist_filter].
Qed.

Lemma removeListener_gone (h : handler) (ls : list handler) :
  NoDup (h_id <$> ls) → h_id h ∉ h_id <$> removeListener h ls.
Proof.
  intros Hnd Hin. apply list_elem_of_fmap in Hin as [x [Hx Hin]].
  apply removeListener_elem in Hin as [_ Hne]; [|assumption]. congruence.
Qed.

Lemma removeListener_stays_out (h h' : handler) (ls : list handler) :
  h_id h ∉ h_id <$> ls → h_id h ∉ h_id <$> removeListener h' ls.
Proof.
  induction ls as [|x rest IH]; intros Hout; [assumption|].
  rewrite fmap_cons in Hout. apply not_elem_of_cons in Hout as [Hx Hout].
  cbn [removeListener]. destruct (existsb (sameHandler h') rest).
  - rewrite fmap_cons. apply not_elem_of_cons. auto.
  - destruct (sameHandler h' x); [assumption|].
    rewrite fmap_cons. apply not_elem_of_cons. auto.
Qed.

Lemma handler_by_id (w : world) (h h' : handler) :
  NoDup (h_id <$> listeners w) → h ∈ listeners w → h' ∈ listeners w →
  h_id h = h_id h' → h = h'.
Proof.
  intros Hnd Hh Hh' Hid.
  apply list_elem_of_lookup in Hh as [i Hi]. apply list_elem_of_lookup in Hh' as [j Hj].
  assert (i = j).
  { eapply NoDup_lookup; [exact Hnd| |].
    - rewrite list_lookup_fmap, Hi. reflexivity.
    - rewrite list_lookup_fmap, Hj. cbn. congruence. }
  congruence.
Qed.

(** ** The registry stays consistent *)

Lemma consistent_initial : consistent initial.
Proof.
  split; cbn; intros; try (rewrite lookup_empty in *; discriminate).
  - apply not_elem_of_nil in H. contradiction.
  - constructor.
  - apply not_elem_of_nil in H. contradiction.
Qed.

(** Taking the session of message [m] out of the three structures. *)
Lemma detach_spec (w : world) (m : jsstring) (e : collector) :
  consistent w → activeCollectors w !! m = Some e →
  (∀ x, x ∈ removeListener (c_handler e) (listeners w) ↔ x ∈ listeners w ∧ h_message x ≠ m)
  ∧ (∀ t tm, delete (c_timeout e) (timers w) !! t = Some tm ↔
             timers w !! t = Some tm ∧ t_message tm ≠ m).
Proof.
  intros Hc He. destruct (collector_registered w Hc m e He) as (Hmsg & Hin & due & Hdue).
  split.
  - intros x. rewrite removeListener_elem by apply (unique_handlers w Hc). split.
    + intros [Hx Hid]. split; [assumption|]. intros Hm.
      destruct (listener_collected w Hc x Hx) as [t Ht]. rewrite Hm, He in Ht.
      injection Ht as ->. apply Hid. reflexivity.
    + intros [Hx Hm]. split; [assumption|]. intros Hid. apply Hm.
      rewrite (handler_by_id w x (c_handler e) (unique_handlers w Hc) Hx Hin Hid).
      assumption.
  - intros t tm. rewrite lookup_delete_Some. split.
    + intros [Hne Ht]. split; [assumption|]. intros Hm.
      pose proof (timer_collected w Hc t tm Ht) as Hcol. rewrite Hm, He in Hcol.
      injection Hcol as ->. apply Hne. reflexivity.
    + intros [Ht Hm]. split; [|assumption]. intros <-. rewrite Hdue in Ht.
      injection Ht as <-. apply Hm. reflexivity.
Qed.

Lemma without_message (w : world) (m : jsstring) (ls : list handler)
    (ts : gmap nat timer) (clock : Z) (l : list (Z * action)) :
  consistent w →
  (∀ x, x ∈ ls ↔ x ∈ listeners w ∧ h_message x ≠ m) →
  NoDup (h_id <$> ls) →
  (∀ t tm, ts !! t = Some tm ↔ timers w !! t = Some tm ∧ t_message tm ≠ m) →
  consistent (World clock ls (delete m (activeCollectors w)) ts
                    (nextTimer w) (nextHandler w) l (pending w)).
Proof.
  intros Hc Hls Hnd Hts. split; cbn.
  - intros h Hh. apply Hls in Hh as [Hh _]. apply (fresh_handlers w Hc h Hh).
  - assumption.
  - intros t tm Ht. apply Hts in Ht as [Ht _]. apply (fresh_timers w Hc t tm Ht).
  - intros m' e He. apply lookup_delete_Some in He as [Hne He].
    destruct (collector_registered w Hc m' e He) as (Hmsg & Hin & due & Hdue).
    split; [assumption|]. split.
    + apply Hls. split; [assumption|]. congruence.
    + exists due. apply Hts. split; [assumption|]. cbn. congruence.
  - intros h Hh. apply Hls in Hh as [Hh Hm].
    destruct (listener_collected w Hc h Hh) as [t Ht]. exists t.
    rewrite lookup_delete_ne by congruence. assumption.
  - intros t tm Ht. apply Hts in Ht as [Ht Hm].
    rewrite lookup_delete_ne by congruence. apply (timer_collected w Hc t tm Ht).
Qed.

Lemma with_new_session (w : world) (m a : jsstring) (cards : list card) (target : user)
    (opts : options) (due : Z) :
  consistent w → activeCollectors w !! m = None →
  consistent
    (World (now w)
           (listeners w ++ [Handler (nextHandler w) m a cards target opts])
           (<[m := Collector (Handler (nextHandler w) m a cards target opts) (nextTimer w)]>
              (activeCollectors w))
           (<[nextTimer w := Timer due m (Handler (nextHandler w) m a cards target opts)]> (timers w))
           (S (nextTimer w)) (S (nextHandler w)) (log w) (pending w)).
Proof.
  intros Hc Hfree. set (h2 := Handler (nextHandler w) m a cards target opts).
  assert (Hfresh : timers w !! nextTimer w = None).
  { destruct (timers w !! nextTimer w) as [tm|] eqn:Ht; [|reflexivity].
    apply (fresh_timers w Hc) in Ht. lia. }
  split; cbn.
  - intros h Hh. apply elem_of_app in Hh as [Hh|Hh].
    + apply (fresh_handlers w Hc) in Hh. lia.
    + apply list_elem_of_singleton in Hh as ->. cbn. lia.
  - rewrite fmap_app. apply NoDup_app. split; [apply (unique_handlers w Hc)|]. split.
    + intros i Hi Hi'. apply list_elem_of_singleton in Hi'. subst i.
      apply list_elem_of_fmap in Hi as [x [Hx Hin]].
      apply (fresh_handlers w Hc) in Hin. cbn in Hx. lia.
    + apply NoDup_singleton.
  - intros t tm Ht. apply lookup_insert_Some in Ht as [[<- _]|[_ Ht]]; [lia|].
    apply (fresh_timers w Hc) in Ht. lia.
  - intros m' e He. apply lookup_insert_Some in He as [[<- <-]|[Hne He]]; cbn.
    + split; [reflexivity|]. split; [apply elem_of_app; right; apply list_elem_of_here|].
      exists due. apply lookup_insert_eq.
    + destruct (collector_registered w Hc m' e He) as (Hmsg & Hin & due' & Hdue).
      split; [assumption|]. split; [apply elem_of_app; left; assumption|].
      exists due'. rewrite lookup_insert_ne; [assumption|].
      intros Heq. rewrite <- Heq, Hfresh in Hdue. discriminate.
  - intros h Hh. apply elem_of_app in Hh as [Hh|Hh].
    + destruct (listener_collected w Hc h Hh) as [t Ht]. exists t.
      rewrite lookup_insert_ne; [assumption|]. intros Heq. rewrite <- Heq, Hfree in Ht.
      discriminate.
    + apply list_elem_of_singleton in Hh as ->. exists (nextTimer w). cbn.
      apply lookup_insert_eq.
  - intros t tm Ht. apply lookup_insert_Some in Ht as [[<- <-]|[Hne Ht]]; cbn.
    + apply lookup_insert_eq.
    + pose proof (timer_collected w Hc t tm Ht) as Hcol.
      rewrite lookup_insert_ne; [assumption|]. intros Heq. rewrite <- Heq, Hfree in Hcol.
      discriminate.
Qed.

Lemma setup_consistent (m a : jsstring) (cards : list card) (target : user)
    (opts : options) (w : world) :
  consistent w → consistent (setupInteractionHandler m a cards target opts w).
Proof.
  intros Hc. unfold setupInteractionHandler.
  destruct (activeCollectors w !! m) as [e|] eqn:He.
  - destruct (detach_spec w m e Hc He) as [Hls Hts].
    pose proof (without_message w m _ _ (now w) (log w) Hc Hls
                  (removeListener_NoDup _ _ (unique_handlers w Hc)) Hts) as Hc1.
    pose proof (with_new_session _ m a cards target opts (now w + COLLECTOR_TIMEOUT) Hc1
                  (lookup_delete_eq _ _)) as Hc2.
    cbn in Hc2. rewrite insert_delete_eq in Hc2. exact Hc2.
  - apply (with_new_session w m a cards target opts (now w + COLLECTOR_TIMEOUT) Hc He).
Qed.

Lemma fireTimer_consistent (t : nat) (w : world) :
  consistent w → consistent (fireTimer t w).
Proof.
  intros Hc. unfold fireTimer. destruct (timers w !! t) as [tm|] eqn:Ht; [|assumption].
  pose proof (timer_collected w Hc t tm Ht) as He.
  destruct (detach_spec w _ _ Hc He) as [Hls Hts]. cbn in Hls, Hts.
  apply (without_message w (t_message tm) _ _ _ _ Hc Hls
           (removeListener_NoDup _ _ (unique_handlers w Hc)) Hts).
Qed.

Lemma consistent_relabel (w : world) (clock : Z) (l : list (Z * action))
    (waiting : list suspended) :
  consistent w →
  consistent (World clock (listeners w) (activeCollectors w) (timers w)
                    (nextTimer w) (nextHandler w) l waiting).
Proof. intros [H1 H2 H3 H4 H5 H6]. split; assumption. Qed.

Lemma settle_consistent (k : nat) (fulfilled : bool) (w : world) :
  consistent w → consistent (settle k fulfilled w).
Proof.
  intros Hc. unfold settle. destruct (pending w !! k) as [s|]; [|assumption].
  destruct (resume s fulfilled). apply consistent_relabel, Hc.
Qed.

Section SessionFacts.
Context `{constants : embedConstants}.

Lemma emit_consistent (i : interaction) (w : world) :
  consistent w → consistent (emit i w).
Proof. apply consistent_relabel. Qed.

Lemma fires_consistent (due : list nat) (w : world) :
  consistent w → consistent (foldl (fun w tid => fireTimer tid w) w due).
Proof.
  revert w. induction due as [|t due IH]; intros w Hc; [assumption|].
  cbn [foldl]. apply IH, fireTimer_consistent, Hc.
Qed.

Lemma advance_consistent (t : Z) (w : world) :
  consistent w → consistent (advance t w).
Proof. intros Hc. unfold advance. apply consistent_relabel, fires_consistent, Hc. Qed.

Lemma step_consistent (w : world) (te : Z * event) :
  consistent w → consistent (step w te).
Proof.
  intros Hc. unfold step. destruct te.2.
  - apply setup_consistent, advance_consistent, Hc.
  - apply emit_consistent, advance_consistent, Hc.
  - apply settle_consistent, advance_consistent, Hc.
Qed.

Lemma run_consistent (evs : list (Z * event)) (w : world) :
  consistent w → consistent (run evs w).
Proof.
  revert w. induction evs as [|te evs IH]; intros w Hc; [assumption|].
  cbn [run foldl]. apply IH, step_consistent, Hc.
Qed.

(** ** Timeouts *)

Lemma fireTimer_timers (t : nat) (w : world) :
  timers (fireTimer t w) = delete t (timers w).
Proof.
  unfold fireTimer. destruct (timers w !! t) as [tm|] eqn:Ht; [reflexivity|].
  symmetry. apply delete_id. assumption.
Qed.

Lemma fireTimer_clock (t : nat) (w : world) :
  now (fireTimer t w) = now w
  ∧ nextTimer (fireTimer t w) = nextTimer w
  ∧ nextHandler (fireTimer t w) = nextHandler w.
Proof. unfold fireTimer. destruct (timers w !! t); auto. Qed.

Lemma fires_clock (due : list nat) (w : world) :
  now (foldl (fun w tid => fireTimer tid w) w due) = now w
  ∧ nextTimer (foldl (fun w tid => fireTimer tid w) w due) = nextTimer w
  ∧ nextHandler (foldl (fun w tid => fireTimer tid w) w due) = nextHandler w.
Proof.
  revert w. induction due as [|t due IH]; intros w; [auto|].
  cbn [foldl]. destruct (IH (fireTimer t w)) as (-> & -> & ->). apply fireTimer_clock.
Qed.

Lemma fires_timers (due : list nat) (w : world) (x : nat) :
  timers (foldl (fun w tid => fireTimer tid w) w due) !! x
  = if decide (x ∈ due) then None else timers w !! x.
Proof.
  revert w. induction due as [|t due IH]; intros w; cbn [foldl].
  - destruct (decide (x ∈ [])) as [H|_]; [|reflexivity].
    apply not_elem_of_nil in H. contradiction.
  - rewrite IH, fireTimer_timers.
    destruct (decide (x ∈ due)) as [Hin|Hout].
    + rewrite decide_True by (apply list_elem_of_further, Hin). reflexivity.
    + destruct (decide (x = t)) as [->|Hne].
      * rewrite decide_True by apply list_elem_of_here. apply lookup_delete_eq.
      * rewrite decide_False by (intros H; apply elem_of_cons in H as [?|?]; auto).
        apply lookup_delete_ne. congruence.
Qed.

Lemma insertDue_perm (x : nat * timer) (l : list (nat * timer)) :
  insertDue x l ≡ₚ x :: l.
Proof.
  induction l as [|y l IH]; cbn [insertDue]; [reflexivity|].
  destruct (_ || _); [reflexivity|]. rewrite IH. apply Permutation_swap.
Qed.

Lemma dueTimers_elem (t : Z) (w : world) (x : nat) :
  x ∈ dueTimers t w ↔ ∃ tm, timers w !! x = Some tm ∧ t_due tm ≤ t.
Proof.
  unfold dueTimers.
  assert (Hperm : ∀ l : list (nat * timer), foldr insertDue [] l ≡ₚ l).
  { induction l as [|y l IH]; cbn [foldr]; [reflexivity|].
    rewrite insertDue_perm, IH. reflexivity. }
  rewrite Hperm, list_elem_of_fmap. split.
  - intros [[x' tm] [-> H]]. apply list_elem_of_filter in H as [Hdue H].
    apply elem_of_map_to_list in H. eauto.
  - intros [tm [Hx Hdue]]. exists (x, tm). split; [reflexivity|].
    apply list_elem_of_filter. split; [assumption|]. apply elem_of_map_to_list, Hx.
Qed.

Lemma advance_timers (t : Z) (w : world) (x : nat) (tm : timer) :
  timers (advance t w) !! x = Some tm ↔ timers w !! x = Some tm ∧ t < t_due tm.
Proof.
  unfold advance. cbn [timers]. rewrite fires_timers.
  destruct (decide (x ∈ dueTimers t w)) as [Hin|Hout].
  - apply dueTimers_elem in Hin as [tm' [Hx Hdue]]. split; [discriminate|].
    intros [Hx' Hlt]. rewrite Hx in Hx'. injection Hx' as <-. lia.
  - split; [|tauto]. intros Hx. split; [assumption|].
    destruct (Z.lt_ge_cases t (t_due tm)) as [|Hle]; [assumption|].
    exfalso. apply Hout, dueTimers_elem. eauto.
Qed.

Lemma advance_clock (t : Z) (w : world) :
  now (advance t w) = Z.max (now w) t
  ∧ nextTimer (advance t w) = nextTimer w
  ∧ nextHandler (advance t w) = nextHandler w.
Proof.
  unfold advance. cbn. destruct (fires_clock (dueTimers t w) w) as (-> & -> & ->). auto.
Qed.

Lemma advance_punctual (t : Z) (w : world) : punctual w → punctual (advance t w).
Proof.
  intros Hp x tm Hx. apply advance_timers in Hx as [Hx Hlt].
  destruct (advance_clock t w) as [-> _]. specialize (Hp x tm Hx). lia.
Qed.

Lemma setup_timers (m a : jsstring) (cards : list card) (target : user)
    (opts : options) (w : world) (x : nat) (tm : timer) :
  timers (setupInteractionHandler m a cards target opts w) !! x = Some tm →
  (x = nextTimer w ∧ tm = Timer (now w + COLLECTOR_TIMEOUT) m
                              (Handler (nextHandler w) m a cards target opts))
  ∨ (x ≠ nextTimer w ∧ timers w !! x = Some tm).
Proof.
  unfold setupInteractionHandler. cbn [timers]. intros H.
  apply lookup_insert_Some in H as [[<- <-]|[Hne H]]; [left; auto|right].
  split; [congruence|]. destruct (activeCollectors w !! m); [|assumption].
  apply lookup_delete_Some in H as [_ H]. assumption.
Qed.

Lemma settle_state (k : nat) (fulfilled : bool) (w : world) :
  now (settle k fulfilled w) = now w
  ∧ listeners (settle k fulfilled w) = listeners w
  ∧ activeCollectors (settle k fulfilled w) = activeCollectors w
  ∧ timers (settle k fulfilled w) = timers w
  ∧ nextTimer (settle k fulfilled w) = nextTimer w
  ∧ nextHandler (settle k fulfilled w) = nextHandler w.
Proof.
  unfold settle. destruct (pending w !! k) as [s|]; [|auto 6].
  destruct (resume s fulfilled). cbn. auto 6.
Qed.

Lemma settle_punctual (k : nat) (fulfilled : bool) (w : world) :
  punctual w → punctual (settle k fulfilled w).
Proof.
  intros Hp x tm. destruct (settle_state k fulfilled w) as (-> & _ & _ & -> & _).
  apply Hp.
Qed.

Lemma step_punctual (w : world) (te : Z * event) : punctual w → punctual (step w te).
Proof.
  intros Hp. apply (advance_punctual te.1) in Hp. unfold step. destruct te.2.
  - intros x tm Hx. apply setup_timers in Hx as [[_ ->]|[_ Hx]].
    + cbn. unfold COLLECTOR_TIMEOUT. lia.
    + apply (Hp x tm Hx).
  - exact Hp.
  - apply settle_punctual, Hp.
Qed.

Lemma run_punctual (evs : list (Z * event)) (w : world) :
  punctual w → punctual (run evs w).
Proof.
  revert w. induction evs as [|te evs IH]; intros w Hp; [assumption|].
  cbn [run foldl]. apply IH, step_punctual, Hp.
Qed.

Lemma punctual_initial : punctual initial.
Proof. intros x tm Hx. cbn in Hx. rewrite lookup_empty in Hx. discriminate. Qed.

(** ** At most one handler per message *)

Lemma one_handler_per_message (w : world) (m : jsstring) :
  consistent w → (length (filter (fun h => h_message h = m) (listeners w)) ≤ 1)%nat.
Proof.
  intros Hc.
  assert (Hnd : NoDup (filter (fun h => h_message h = m) (listeners w))).
  { apply NoDup_filter. eapply NoDup_fmap_1. apply (unique_handlers w Hc). }
  assert (Hsame : ∀ x y, x ∈ filter (fun h => h_message h = m) (listeners w) →
                         y ∈ filter (fun h => h_message h = m) (listeners w) → x = y).
  { intros x y Hx Hy.
    apply list_elem_of_filter in Hx as [Hmx Hx]. apply list_elem_of_filter in Hy as [Hmy Hy].
    destruct (listener_collected w Hc x Hx) as [tx Htx].
    destruct (listener_collected w Hc y Hy) as [ty Hty].
    rewrite Hmx in Htx. rewrite Hmy in Hty. congruence. }
  destruct (filter _ (listeners w)) as [|x [|y l]]; cbn; [lia|lia|].
  exfalso. apply NoDup_cons in Hnd as [Hx _]. apply Hx.
  rewrite (Hsame x y); [apply list_elem_of_here|apply list_elem_of_here|].
  apply list_elem_of_further, list_elem_of_here.
Qed.

Lemma session_listener (w : world) (m : jsstring) :
  consistent w →
  filter (fun h => h_message h = m) (listeners w)
  = match activeCollectors w !! m with
    | Some e => [c_handler e]
    | None => []
    end.
Proof.
  intros Hc. pose proof (one_handler_per_message w m Hc) as Hone.
  destruct (activeCollectors w !! m) as [e|] eqn:He.
  - destruct (collector_registered w Hc m e He) as (Hm & Hin & _).
    assert (Hf : c_handler e ∈ filter (fun h => h_message h = m) (listeners w))
      by (apply list_elem_of_filter; split; assumption).
    destruct (filter _ (listeners w)) as [|x [|y l]]; cbn [length] in Hone; [|  |lia].
    + apply not_elem_of_nil in Hf. contradiction.
    + apply list_elem_of_singleton in Hf as ->. reflexivity.
  - destruct (filter _ (listeners w)) as [|x l] eqn:Hf; [reflexivity|].
    assert (Hx : x ∈ filter (fun h => h_message h = m) (listeners w))
      by (rewrite Hf; apply list_elem_of_here).
    apply list_elem_of_filter in Hx as [Hm Hx].
    destruct (listener_collected w Hc x Hx) as [tx Htx].
    rewrite Hm, He in Htx. discriminate.
Qed.

(** ** A replaced session stays out of use *)

Lemma callsOf_app (h : nat) (l new : list (Z * action)) :
  Forall (fun x => isCallOf h x.2 = false) new → callsOf h (l ++ new) = callsOf h l.
Proof.
  intros Hq. unfold callsOf. rewrite filter_app.
  assert (Hnil : filter (fun x => isCallOf h x.2) new = []).
  { induction Hq as [|x new Hx _ IH]; [reflexivity|].
    rewrite filter_cons_False by (rewrite Hx; auto). assumption. }
  rewrite Hnil. apply app_nil_r.
Qed.

Lemma runHandler_no_call (hd : handler) (i : interaction) (h : nat) :
  Forall (fun a => isCallOf h a = false)
         (sent (runHandler hd i) ++ caught (runHandler hd i)).
Proof.
  unfold runHandler. destruct (_ || _); [constructor|].
  destruct (decide _); [repeat constructor|].
  destruct (renderMessage _ _ _ _ _ _ _ _); repeat constructor.
Qed.

Lemma resume_no_call (s : suspended) (fulfilled : bool) (h : nat) :
  Forall (fun a => isCallOf h a = false) (resume s fulfilled).1.
Proof.
  destruct s as [i cards|i], fulfilled; repeat constructor.
Qed.

Lemma fireTimer_retired (t : nat) (w : world) (h x : nat) :
  retired h x w →
  retired h x (fireTimer t w) ∧ callsOf h (log (fireTimer t w)) = callsOf h (log w).
Proof.
  intros (Hh & Hout & Hx & Hnone). unfold retired.
  rewrite fireTimer_timers. destruct (fireTimer_clock t w) as (_ & -> & ->).
  unfold fireTimer. destruct (timers w !! t) as [tm|] eqn:Ht; cbn.
  - repeat split; try assumption.
    + intros Hin. apply list_elem_of_fmap in Hin as [y [Hy Hin]].
      set (probe := Handler h (t_message tm) [] [] (User [] None None) (Options [] [] [] Infinity false)).
      apply (removeListener_stays_out probe (t_handler tm) (listeners w)).
      * exact Hout.
      * apply list_elem_of_fmap. exists y. split; [assumption|assumption].
    + rewrite lookup_delete_None. auto.
    + apply callsOf_app. repeat constructor.
  - repeat split; try assumption. rewrite lookup_delete_None. auto.
Qed.

Lemma fires_retired (due : list nat) (w : world) (h x : nat) :
  retired h x w →
  retired h x (foldl (fun w tid => fireTimer tid w) w due)
  ∧ callsOf h (log (foldl (fun w tid => fireTimer tid w) w due)) = callsOf h (log w).
Proof.
  revert w. induction due as [|t due IH]; intros w Hr; [auto|].
  cbn [foldl]. destruct (fireTimer_retired t w h x Hr) as [Hr' Hlog].
  destruct (IH _ Hr') as [Hr'' Hlog']. split; [assumption|congruence].
Qed.

Lemma advance_retired (t : Z) (w : world) (h x : nat) :
  retired h x w →
  retired h x (advance t w) ∧ callsOf h (log (advance t w)) = callsOf h (log w).
Proof.
  intros Hr. destruct (fires_retired (dueTimers t w) w h x Hr) as [Hr' Hlog].
  unfold advance. split; [exact Hr'|exact Hlog].
Qed.

Lemma emit_retired (i : interaction) (w : world) (h x : nat) :
  retired h x w →
  retired h x (emit i w) ∧ callsOf h (log (emit i w)) = callsOf h (log w).
Proof.
  intros Hr. split; [exact Hr|]. destruct Hr as (_ & Hout & _).
  unfold emit. cbn [log]. apply callsOf_app.
  apply Forall_app. split; apply Forall_flat_map, Forall_forall; intros hd Hhd;
    pose proof (runHandler_no_call hd i h) as [Hsent Hcaught]%Forall_app.
  - constructor.
    + cbn. apply bool_decide_eq_false. intros Heq. apply Hout.
      apply list_elem_of_fmap. exists hd. split; [congruence|assumption].
    + apply Forall_fmap. exact Hsent.
  - apply Forall_fmap. exact Hcaught.
Qed.

Lemma settle_retired (k : nat) (fulfilled : bool) (w : world) (h x : nat) :
  retired h x w →
  retired h x (settle k fulfilled w)
  ∧ callsOf h (log (settle k fulfilled w)) = callsOf h (log w).
Proof.
  intros Hr. split.
  - unfold retired. destruct (settle_state k fulfilled w) as (_ & -> & _ & -> & -> & ->).
    exact Hr.
  - unfold settle. destruct (pending w !! k) as [s|]; [|reflexivity].
    pose proof (resume_no_call s fulfilled h) as Hno.
    destruct (resume s fulfilled) as [acts next]. cbn [log]. apply callsOf_app.
    apply Forall_fmap. exact Hno.
Qed.

Lemma setup_retired (m a : jsstring) (cards : list card) (target : user)
    (opts : options) (w : world) (h x : nat) :
  retired h x w →
  retired h x (setupInteractionHandler m a cards target opts w)
  ∧ log (setupInteractionHandler m a cards target opts w) = log w.
Proof.
  intros (Hh & Hout & Hx & Hnone). split; [|reflexivity].
  unfold retired, setupInteractionHandler. cbn.
  split; [lia|]. split; [|split; [lia|]].
  - rewrite fmap_app. intros Hin. apply elem_of_app in Hin as [Hin|Hin].
    + destruct (activeCollectors w !! m) as [e|]; [|contradiction].
      set (probe := Handler h m [] [] (User [] None None) (Options [] [] [] Infinity false)).
      apply (removeListener_stays_out probe (c_handler e) (listeners w)); assumption.
    + apply list_elem_of_singleton in Hin. cbn in Hin. lia.
  - rewrite lookup_insert_ne by lia.
    destruct (activeCollectors w !! m); [|assumption].
    rewrite lookup_delete_None. auto.
Qed.

Lemma run_retired (evs : list (Z * event)) (w : world) (h x : nat) :
  retired h x w →
  retired h x (run evs w) ∧ callsOf h (log (run evs w)) = callsOf h (log w).
Proof.
  revert w. induction evs as [|te evs IH]; intros w Hr; [auto|].
  cbn [run foldl].
  assert (Hstep : retired h x (step w te) ∧ callsOf h (log (step w te)) = callsOf h (log w)).
  { destruct (advance_retired te.1 w h x Hr) as [Hr' Hlog]. unfold step. destruct te.2.
    - destruct (setup_retired message authorId cards targetUser opts _ h x Hr')
        as [Hr'' Hlog'].
      split; [assumption|]. rewrite Hlog'. assumption.
    - destruct (emit_retired i _ h x Hr') as [Hr'' Hlog'].
      split; [assumption|congruence].
    - destruct (settle_retired k fulfilled _ h x Hr') as [Hr'' Hlog'].
      split; [assumption|congruence]. }
  destruct Hstep as [Hr' Hlog]. destruct (IH _ Hr') as [Hr'' Hlog'].
  split; [assumption|]. unfold run in Hlog'. congruence.
Qed.

(** C1. When [setupInteractionHandler] runs for a message that has a live
    session (handler h1, timeout t1), h1 is unsubscribed and t1 cancelled,
    and the new handler h2 is the one entry and the one listener of the
    message.  From then on, whatever events follow (further set-ups
    included): h1 is never called again, t1 coming due does nothing at all
    (so it neither expires nor detaches h2), and no message ever has more
    than one subscribed handler. *)
Theorem replaced_session_is_retired (before : list (Z * event)) (m a : jsstring)
    (cards : list card) (target : user)
    (opts : options) (e : collector) :
  activeCollectors (run before initial) !! m = Some e →
  let w := run before initial in
  let w' := setupInteractionHandler m a cards target opts w in
  let h2 := Handler (nextHandler w) m a cards target opts in
  (c_handler e ∈ listeners w ∧ is_Some (timers w !! c_timeout e))
  ∧ (h_id (c_handler e) ∉ h_id <$> listeners w')
  ∧ timers w' !! c_timeout e = None
  ∧ activeCollectors w' !! m = Some (Collector h2 (nextTimer w))
  ∧ filter (fun h => h_message h = m) (listeners w') = [h2]
  ∧ ∀ later,
      callsOf (h_id (c_handler e)) (log (run later w')) = callsOf (h_id (c_handler e)) (log w)
      ∧ fireTimer (c_timeout e) (run later w') = run later w'
      ∧ ∀ m', (length (filter (fun h => h_message h = m') (listeners (run later w'))) ≤ 1)%nat.
Proof.
  intros He w w' h2. change (activeCollectors w !! m = Some e) in He.
  assert (Hc : consistent w) by apply run_consistent, consistent_initial.
  assert (Hc' : consistent w') by apply setup_consistent, Hc.
  destruct (collector_registered w Hc m e He) as (Hmsg & Hin & due & Hdue).
  pose proof (fresh_handlers w Hc _ Hin) as Hfresh.
  pose proof (fresh_timers w Hc _ _ Hdue) as Hfresht.
  assert (Hout : h_id (c_handler e) ∉ (h_id <$> listeners w')).
  { subst w'. unfold setupInteractionHandler. rewrite He. cbn [listeners].
    rewrite fmap_app. intros H. apply elem_of_app in H as [H|H].
    - revert H. apply removeListener_gone, (unique_handlers w Hc).
    - apply list_elem_of_singleton in H. cbn in H. lia. }
  assert (Hcancel : timers w' !! c_timeout e = None).
  { subst w'. unfold setupInteractionHandler. rewrite He. cbn [timers].
    rewrite lookup_insert_ne by lia. apply lookup_delete_eq. }
  assert (Hentry : activeCollectors w' !! m = Some (Collector h2 (nextTimer w))).
  { subst w'. unfold setupInteractionHandler. cbn [activeCollectors]. apply lookup_insert_eq. }
  assert (Hr : retired (h_id (c_handler e)) (c_timeout e) w').
  { repeat split; try assumption.
    - subst w'. cbn. lia.
    - subst w'. cbn. lia. }
  split; [split; [assumption|eauto]|]. split; [assumption|]. split; [assumption|].
  split; [assumption|]. split.
  - destruct (collector_registered w' Hc' m _ Hentry) as (_ & Hin2 & _). cbn in Hin2.
    pose proof (one_handler_per_message w' m Hc') as Hone.
    assert (Hf : h2 ∈ filter (fun h => h_message h = m) (listeners w')).
    { apply list_elem_of_filter. split; [reflexivity|assumption]. }
    destruct (filter (fun h => h_message h = m) (listeners w')) as [|x [|y l]];
      cbn in Hone; [|apply list_elem_of_singleton in Hf; congruence|lia].
    apply not_elem_of_nil in Hf. contradiction.
  - intros later. destruct (run_retired later w' _ _ Hr) as [(_ & _ & _ & Hnone) Hlog].
    split; [rewrite Hlog; reflexivity|]. split.
    + unfold fireTimer. rewrite Hnone. reflexivity.
    + intros m'. apply one_handler_per_message, run_consistent, Hc'.
Qed.

End SessionFacts.

Lemma replaced_session_is_retired_witness :
  activeCollectors
    (run (constants:=plainConstants)
         [(0, Setup (lit "m") (lit "u") [abcCard] sampleUser (query [] [] false))] initial)
    !! lit "m"
  = Some (Collector (Handler 0 (lit "m") (lit "u") [abcCard] sampleUser (query [] [] false)) 0)
  ∧ ∀ later,
      fireTimer 0
        (run (constants:=plainConstants) later
           (setupInteractionHandler (lit "m") (lit "u") [plainCard] sampleUser
              (query [] [] false)
              (run (constants:=plainConstants)
                   [(0, Setup (lit "m") (lit "u") [abcCard] sampleUser (query [] [] false))]
                   initial)))
      = run (constants:=plainConstants) later
          (setupInteractionHandler (lit "m") (lit "u") [plainCard] sampleUser
             (query [] [] false)
             (run (constants:=plainConstants)
                  [(0, Setup (lit "m") (lit "u") [abcCard] sampleUser (query [] [] false))]
                  initial)).
Proof.
  assert (He : activeCollectors
                 (run (constants:=plainConstants)
                      [(0, Setup (lit "m") (lit "u") [abcCard] sampleUser (query [] [] false))]
                      initial) !! lit "m"
               = Some (Collector (Handler 0 (lit "m") (lit "u") [abcCard] sampleUser
                                          (query [] [] false)) 0))
    by (vm_compute; reflexivity).
  split; [exact He|]. intros later.
  pose proof (replaced_session_is_retired (constants:=plainConstants)
                [(0, Setup (lit "m") (lit "u") [abcCard] sampleUser (query [] [] false))]
                (lit "m") (lit "u") [plainCard] sampleUser (query [] [] false) _ He) as H.
  cbv zeta in H. destruct H as (_ & _ & _ & _ & _ & H).
  destruct (H later) as (_ & Hfire & _). exact Hfire.
Defined.

(** ** The time to live of a session *)

Lemma logGrows_refl (m : jsstring) (hid : nat) (d : Z) (w w' : world) :
  log w' = log w → logGrows m hid d [] w w'.
Proof.
  intros H. exists []. rewrite app_nil_r. repeat split; [assumption|constructor].
Qed.

Lemma logGrows_trans (m : jsstring) (hid : nat) (d : Z) (c1 c2 : list (Z * action))
    (w1 w2 w3 : world) :
  logGrows m hid d c1 w1 w2 → logGrows m hid d c2 w2 w3 → logGrows m hid d (c1 ++ c2) w1 w3.
Proof.
  intros (n1 & H1 & <- & A1) (n2 & H2 & <- & A2). exists (n1 ++ n2).
  split; [rewrite H2, H1, app_assoc; reflexivity|]. split.
  - unfold clearings. apply filter_app.
  - apply Forall_app. split; assumption.
Qed.

Lemma fireTimer_logGrows (x : nat) (w : world) (m : jsstring) (hid : nat) (d : Z)
    (tm : timer) :
  timers w !! x = Some tm →
  logGrows m hid d (if decide (t_message tm = m) then [(t_due tm, ClearControls m)] else [])
           w (fireTimer x w).
Proof.
  intros Hx. unfold fireTimer. rewrite Hx.
  exists [(t_due tm, ClearControls (t_message tm))]. split; [reflexivity|]. split.
  - unfold clearings. destruct (decide (t_message tm = m)) as [->|Hm].
    + rewrite filter_cons_True by reflexivity. reflexivity.
    + rewrite filter_cons_False; [reflexivity|]. cbn. congruence.
  - repeat constructor. cbn. discriminate.
Qed.

Lemma fireTimer_live (x : nat) (w : world) (m : jsstring) (h : handler) (t : nat) (d : Z) :
  consistent w → live m h t d w →
  (x = t → expired m t (fireTimer x w) ∧ retired (h_id h) t (fireTimer x w)
           ∧ logGrows m (h_id h) d [(d, ClearControls m)] w (fireTimer x w))
  ∧ (x ≠ t → live m h t d (fireTimer x w) ∧ logGrows m (h_id h) d [] w (fireTimer x w)).
Proof.
  intros Hc [Hcol Htm]. split.
  - intros ->. pose proof (fireTimer_logGrows t w m (h_id h) d _ Htm) as Hg.
    cbn [t_message t_due] in Hg. rewrite decide_True in Hg by reflexivity.
    split; [|split; [|exact Hg]].
    + unfold fireTimer. rewrite Htm. cbn.
      split; [apply lookup_delete_eq|]. split; [apply lookup_delete_eq|].
      apply (fresh_timers w Hc _ _ Htm).
    + destruct (collector_registered w Hc m _ Hcol) as (_ & Hin & _). cbn in Hin.
      unfold fireTimer. rewrite Htm. unfold retired. cbn.
      split; [apply (fresh_handlers w Hc h Hin)|].
      split; [apply removeListener_gone, (unique_handlers w Hc)|].
      split; [apply (fresh_timers w Hc _ _ Htm)|apply lookup_delete_eq].
  - intros Hne. destruct (timers w !! x) as [tm|] eqn:Hx.
    + pose proof (timer_collected w Hc x tm Hx) as Hcx.
      assert (Hm : t_message tm ≠ m).
      { intros Heq. rewrite Heq, Hcol in Hcx. injection Hcx as _ Ht. congruence. }
      pose proof (fireTimer_logGrows x w m (h_id h) d _ Hx) as Hg.
      rewrite decide_False in Hg by assumption. split; [|exact Hg].
      unfold fireTimer. rewrite Hx. unfold live. cbn.
      split; [rewrite lookup_delete_ne by assumption; assumption|].
      rewrite lookup_delete_ne by assumption. assumption.
    + unfold fireTimer. rewrite Hx. split; [split; assumption|].
      apply logGrows_refl. reflexivity.
Qed.

Lemma fireTimer_expired (x : nat) (w : world) (m : jsstring) (t hid : nat) (d : Z) :
  consistent w → expired m t w →
  expired m t (fireTimer x w) ∧ logGrows m hid d [] w (fireTimer x w).
Proof.
  intros Hc (Hcol & Htm & Hfresh).
  destruct (timers w !! x) as [tm|] eqn:Hx.
  - pose proof (timer_collected w Hc x tm Hx) as Hcx.
    assert (Hm : t_message tm ≠ m).
    { intros Heq. rewrite Heq, Hcol in Hcx. discriminate. }
    pose proof (fireTimer_logGrows x w m hid d _ Hx) as Hg.
    rewrite decide_False in Hg by assumption. split; [|exact Hg].
    unfold fireTimer. rewrite Hx. unfold expired. cbn.
    split; [rewrite lookup_delete_ne by assumption; assumption|].
    split; [|assumption]. apply lookup_delete_None. auto.
  - unfold fireTimer. rewrite Hx. split; [repeat split; assumption|].
    apply logGrows_refl. reflexivity.
Qed.

Lemma fires_expired (due : list nat) (w : world) (m : jsstring) (t hid : nat) (d : Z) :
  consistent w → expired m t w →
  expired m t (foldl (fun w tid => fireTimer tid w) w due)
  ∧ logGrows m hid d [] w (foldl (fun w tid => fireTimer tid w) w due).
Proof.
  revert w. induction due as [|x due IH]; intros w Hc He; cbn [foldl].
  - split; [assumption|]. apply logGrows_refl. reflexivity.
  - destruct (fireTimer_expired x w m t hid d Hc He) as [He' Hg].
    destruct (IH _ (fireTimer_consistent x w Hc) He') as [He'' Hg'].
    split; [assumption|]. apply (logGrows_trans m hid d [] [] _ _ _ Hg Hg').
Qed.

Lemma fires_live (due : list nat) (w : world) (m : jsstring) (h : handler) (t : nat) (d : Z) :
  consistent w → live m h t d w →
  (t ∈ due → expired m t (foldl (fun w tid => fireTimer tid w) w due)
             ∧ retired (h_id h) t (foldl (fun w tid => fireTimer tid w) w due)
             ∧ logGrows m (h_id h) d [(d, ClearControls m)] w
                        (foldl (fun w tid => fireTimer tid w) w due))
  ∧ (t ∉ due → live m h t d (foldl (fun w tid => fireTimer tid w) w due)
               ∧ logGrows m (h_id h) d [] w (foldl (fun w tid => fireTimer tid w) w due)).
Proof.
  revert w. induction due as [|x due IH]; intros w Hc Hl; cbn [foldl].
  - split; [intros H; apply not_elem_of_nil in H; contradiction|].
    intros _. split; [assumption|]. apply logGrows_refl. reflexivity.
  - destruct (fireTimer_live x w m h t d Hc Hl) as [Hfire Hskip].
    pose proof (fireTimer_consistent x w Hc) as Hc'.
    destruct (decide (x = t)) as [Heq|Hne].
    + destruct (Hfire Heq) as (He & Hr & Hg).
      destruct (fires_expired due _ m t (h_id h) d Hc' He) as [He' Hg'].
      destruct (fires_retired due _ _ _ Hr) as [Hr' _].
      split; [|intros Hout; exfalso; apply Hout; subst x; apply list_elem_of_here].
      intros _. split; [assumption|]. split; [assumption|].
      apply (logGrows_trans m (h_id h) d [(d, ClearControls m)] [] _ _ _ Hg Hg').
    + destruct (Hskip Hne) as [Hl' Hg]. destruct (IH _ Hc' Hl') as [Hin Hout]. split.
      * intros Ht. apply elem_of_cons in Ht as [Ht|Ht]; [congruence|].
        destruct (Hin Ht) as (He & Hr & Hg'). split; [assumption|]. split; [assumption|].
        apply (logGrows_trans m (h_id h) d [] [(d, ClearControls m)] _ _ _ Hg Hg').
      * intros Ht. apply not_elem_of_cons in Ht as [_ Ht].
        destruct (Hout Ht) as [Hl'' Hg']. split; [assumption|].
        apply (logGrows_trans m (h_id h) d [] [] _ _ _ Hg Hg').
Qed.

Lemma advance_live (tau : Z) (w : world) (m : jsstring) (h : handler) (t : nat) (d : Z) :
  consistent w → live m h t d w →
  (d ≤ tau → expired m t (advance tau w) ∧ retired (h_id h) t (advance tau w)
             ∧ logGrows m (h_id h) d [(d, ClearControls m)] w (advance tau w))
  ∧ (tau < d → live m h t d (advance tau w) ∧ logGrows m (h_id h) d [] w (advance tau w)).
Proof.
  intros Hc Hl. pose proof Hl as [_ Htm].
  destruct (fires_live (dueTimers tau w) w m h t d Hc Hl) as [Hin Hout].
  destruct (fires_clock (dueTimers tau w) w) as (_ & Hnt & _).
  unfold advance, live, expired, retired, logGrows in *. cbn. split.
  - intros Hle. apply Hin. apply dueTimers_elem. eauto.
  - intros Hlt. apply Hout. intros Hdue. apply dueTimers_elem in Hdue as [tm [Hx Hle]].
    rewrite Htm in Hx. injection Hx as <-. cbn in Hle. lia.
Qed.

Lemma advance_expired (tau : Z) (w : world) (m : jsstring) (t hid : nat) (d : Z) :
  consistent w → expired m t w →
  expired m t (advance tau w) ∧ logGrows m hid d [] w (advance tau w).
Proof.
  intros Hc He. exact (fires_expired (dueTimers tau w) w m t hid d Hc He).
Qed.

Lemma settle_logGrows (k : nat) (fulfilled : bool) (w : world) (m : jsstring) (hid : nat)
    (d : Z) :
  logGrows m hid d [] w (settle k fulfilled w).
Proof.
  unfold settle. destruct (pending w !! k) as [s|]; [|apply logGrows_refl; reflexivity].
  destruct s as [i cards|i], fulfilled; cbn [resume catalogCodes log];
    (eexists; split; [reflexivity|]; split; [reflexivity|]);
    repeat constructor; cbn; discriminate.
Qed.

Lemma setup_other_live (m' a : jsstring) (cards : list card) (target : user)
    (opts : options) (w : world) (m : jsstring) (h : handler) (t : nat) (d : Z) :
  consistent w → m' ≠ m → live m h t d w →
  live m h t d (setupInteractionHandler m' a cards target opts w).
Proof.
  intros Hc Hne [Hcol Htm]. unfold live, setupInteractionHandler. cbn. split.
  - rewrite lookup_insert_ne by assumption. assumption.
  - pose proof (fresh_timers w Hc _ _ Htm) as Hfresh.
    rewrite lookup_insert_ne by lia.
    destruct (activeCollectors w !! m') as [e|] eqn:He; [|assumption].
    rewrite lookup_delete_ne; [assumption|]. intros Heq.
    destruct (collector_registered w Hc m' e He) as (_ & _ & due & Hdue).
    rewrite Heq, Htm in Hdue. injection Hdue as _ Hmm _. congruence.
Qed.

Lemma setup_other_expired (m' a : jsstring) (cards : list card) (target : user)
    (opts : options) (w : world) (m : jsstring) (t : nat) :
  m' ≠ m → expired m t w → expired m t (setupInteractionHandler m' a cards target opts w).
Proof.
  intros Hne (Hcol & Htm & Hfresh). unfold expired, setupInteractionHandler. cbn.
  split; [rewrite lookup_insert_ne by assumption; assumption|]. split; [|lia].
  rewrite lookup_insert_ne by lia.
  destruct (activeCollectors w !! m'); [|assumption]. apply lookup_delete_None. auto.
Qed.

(** Time passing keeps what is known of the session. *)
Lemma advance_sessionState (tau : Z) (w : world) (m : jsstring) (h : handler)
    (t : nat) (d : Z) (base : list (Z * action)) :
  sessionState m h t d base w → sessionState m h t d base (advance tau w).
Proof.
  intros (Hc & Hp & new & Hlog & Hans & Hcase).
  destruct (advance_clock tau w) as (Hnow & _).
  split; [apply advance_consistent, Hc|]. split; [apply advance_punctual, Hp|].
  destruct Hcase as [(Hlt & Hl & Hcl)|(Hle & He & Hr & Hcl)].
  - destruct (advance_live tau w m h t d Hc Hl) as [Hfire Hkeep].
    destruct (Z.le_gt_cases d tau) as [Hdue|Hnot].
    + destruct (Hfire Hdue) as (He & Hr & n1 & Hl1 & Hc1' & Ha1).
      exists (new ++ n1). split; [rewrite Hl1, Hlog, app_assoc; reflexivity|].
      split; [apply Forall_app; split; assumption|]. right.
      split; [lia|]. split; [assumption|]. split; [assumption|].
      unfold clearings in *. rewrite filter_app, Hcl, Hc1'. reflexivity.
    + destruct (Hkeep Hnot) as (Hl' & n1 & Hl1 & Hc1' & Ha1).
      exists (new ++ n1). split; [rewrite Hl1, Hlog, app_assoc; reflexivity|].
      split; [apply Forall_app; split; assumption|]. left.
      split; [lia|]. split; [assumption|].
      unfold clearings in *. rewrite filter_app, Hcl, Hc1'. reflexivity.
  - destruct (advance_expired tau w m t (h_id h) d Hc He) as (He' & n1 & Hl1 & Hc1' & Ha1).
    destruct (advance_retired tau w _ _ Hr) as [Hr' _].
    exists (new ++ n1). split; [rewrite Hl1, Hlog, app_assoc; reflexivity|].
    split; [apply Forall_app; split; assumption|]. right.
    split; [lia|]. split; [assumption|]. split; [assumption|].
    unfold clearings in *. rewrite filter_app, Hcl, Hc1'. reflexivity.
Qed.

Section TimeToLive.
Context `{constants : embedConstants}.

Lemma runHandler_answers (hd : handler) (i : interaction) (m : jsstring) (a : action) :
  a ∈ sent (runHandler hd i) ++ caught (runHandler hd i) →
  answers m a = true → h_message hd = m.
Proof.
  unfold runHandler. case_bool_decide as Hmsg; cbn [negb orb].
  2: { intros H. apply not_elem_of_nil in H. contradiction. }
  destruct (negb _); [intros H; apply not_elem_of_nil in H; contradiction|].
  assert (Hi : bool_decide (i_message i = m) = true → h_message hd = m).
  { intros H. apply bool_decide_eq_true in H. congruence. }
  destruct (decide _).
  - intros Ha Hans. apply list_elem_of_singleton in Ha as ->. apply (Hi Hans).
  - destruct (renderMessage _ _ _ _ _ _ _ _); intros Ha Hans;
      apply list_elem_of_singleton in Ha as ->; [apply (Hi Hans)|discriminate].
Qed.

Lemma runHandler_clears_nothing (hd : handler) (i : interaction) (m : jsstring) (a : action) :
  a ∈ sent (runHandler hd i) ++ caught (runHandler hd i) → a ≠ ClearControls m.
Proof.
  unfold runHandler. destruct (_ || _); [intros H; apply not_elem_of_nil in H; contradiction|].
  destruct (decide _).
  - intros Ha. apply list_elem_of_singleton in Ha as ->. discriminate.
  - destruct (renderMessage _ _ _ _ _ _ _ _); intros Ha;
      apply list_elem_of_singleton in Ha as ->; discriminate.
Qed.

(** What one emission adds to the log: every entry is the call of a
    subscribed listener or something that listener does. *)
Lemma emit_entries (i : interaction) (w : world) (x : Z * action) :
  x ∈ flat_map (fun h => (now w, Invoked (h_id h) i)
                         :: ((fun a => (now w, a)) <$> sent (runHandler h i)))
               (listeners w)
      ++ flat_map (fun h => (fun a => (now w, a)) <$> caught (runHandler h i))
                  (listeners w) →
  ∃ hd, hd ∈ listeners w
    ∧ (x = (now w, Invoked (h_id hd) i)
       ∨ ∃ a, x = (now w, a) ∧ a ∈ sent (runHandler hd i) ++ caught (runHandler hd i)).
Proof.
  intros Hx. apply elem_of_app in Hx as [Hx|Hx];
    apply list_elem_of_In, in_flat_map in Hx as (hd & Hhd & Hx);
    apply list_elem_of_In in Hhd, Hx; exists hd; (split; [exact Hhd|]).
  - apply elem_of_cons in Hx as [->|Hx]; [left; reflexivity|right].
    apply list_elem_of_fmap in Hx as (a & -> & Ha). exists a.
    split; [reflexivity|]. apply elem_of_app. left. exact Ha.
  - right. apply list_elem_of_fmap in Hx as (a & -> & Ha). exists a.
    split; [reflexivity|]. apply elem_of_app. right. exact Ha.
Qed.

Lemma emit_logGrows (i : interaction) (w : world) (m : jsstring) (hid : nat) (d : Z) :
  consistent w →
  (now w < d ∨ (activeCollectors w !! m = None ∧ (hid ∉ h_id <$> listeners w))) →
  logGrows m hid d [] w (emit i w).
Proof.
  intros Hc Hcase. unfold emit, logGrows. cbn [log]. eexists. split; [reflexivity|].
  split.
  - unfold clearings. apply filter_none. intros x Hx.
    apply emit_entries in Hx as (hd & _ & [->|(a & -> & Ha)]); [discriminate|].
    cbn. apply (runHandler_clears_nothing hd i m a Ha).
  - unfold answeredBefore. apply Forall_forall. intros x Hx.
    apply emit_entries in Hx as (hd & Hhd & [->|(a & -> & Ha)]).
    + cbn. rewrite orb_false_r. intros Hcall. apply bool_decide_eq_true in Hcall.
      destruct Hcase as [Hlt|[_ Hout]]; [assumption|].
      exfalso. apply Hout. rewrite <- Hcall. apply list_elem_of_fmap_2, Hhd.
    + cbn. pose proof (runHandler_no_call hd i hid) as Hno. rewrite Forall_forall in Hno.
      rewrite (Hno a Ha). cbn [orb].
      intros Hans. pose proof (runHandler_answers hd i m a Ha Hans) as Hm.
      destruct Hcase as [Hlt|[Hnone _]]; [assumption|].
      destruct (listener_collected w Hc hd Hhd) as [t Ht]. rewrite Hm, Hnone in Ht.
      discriminate.
Qed.

Lemma step_sessionState (w : world) (te : Z * event) (m : jsstring) (h : handler)
    (t : nat) (d : Z) (base : list (Z * action)) :
  setsUp m te.2 = false →
  sessionState m h t d base w → sessionState m h t d base (step w te).
Proof.
  intros Hother Hs.
  pose proof Hs as (Hc & Hp & _).
  apply (advance_sessionState te.1) in Hs. destruct Hs as (Hc1 & Hp1 & new & Hlog & Hans & Hcase).
  split; [apply step_consistent, Hc|]. split; [apply step_punctual, Hp|].
  unfold step. destruct te.2 as [m' a cards target opts|i|k fulfilled]; cbn in Hother.
  - apply bool_decide_eq_false in Hother.
    exists new. split; [assumption|]. split; [assumption|].
    destruct Hcase as [(Hlt & Hl & Hcl)|(Hle & He & Hr & Hcl)].
    + left. split; [assumption|]. split; [|assumption].
      apply setup_other_live; assumption.
    + right. split; [assumption|]. split; [apply setup_other_expired; assumption|].
      split; [|assumption]. apply setup_retired, Hr.
  - destruct (emit_logGrows i (advance te.1 w) m (h_id h) d Hc1) as (n1 & Hl1 & Hc1' & Ha1).
    { destruct Hcase as [(Hlt & _)|(_ & (Hnone & _) & (_ & Hout & _) & _)]; auto. }
    exists (new ++ n1). split; [rewrite Hl1, Hlog, app_assoc; reflexivity|].
    split; [apply Forall_app; split; assumption|].
    unfold clearings in *. rewrite filter_app, Hc1', app_nil_r. exact Hcase.
  - destruct (settle_logGrows k fulfilled (advance te.1 w) m (h_id h) d)
      as (n1 & Hl1 & Hc1' & Ha1).
    destruct (settle_state k fulfilled (advance te.1 w)) as (Hnow & Hls & Hcol & Htm & Hnt & Hnh).
    exists (new ++ n1). split; [rewrite Hl1, Hlog, app_assoc; reflexivity|].
    split; [apply Forall_app; split; assumption|].
    unfold clearings, live, expired, retired in *.
    rewrite filter_app, Hc1', app_nil_r, Hnow, Hls, Hcol, Htm, Hnt, Hnh. exact Hcase.
Qed.

Lemma run_sessionState (evs : list (Z * event)) (w : world) (m : jsstring) (h : handler)
    (t : nat) (d : Z) (base : list (Z * action)) :
  Forall (fun te => setsUp m te.2 = false) evs →
  sessionState m h t d base w → sessionState m h t d base (run evs w).
Proof.
  intros Hall. revert w. induction Hall as [|te evs Hte _ IH]; intros w Hs; [assumption|].
  cbn [run foldl]. apply IH, step_sessionState; assumption.
Qed.

(** An event of a message that has no session is handled by nobody: the
    listeners are called and do nothing, and no call is left waiting. *)
Lemma emit_without_session (i : interaction) (w : world) :
  consistent w → activeCollectors w !! i_message i = None →
  ∃ calls, log (emit i w) = log w ++ calls ∧ responses calls = []
    ∧ pending (emit i w) = pending w.
Proof.
  intros Hc Hnone.
  assert (Hquiet : ∀ hd, hd ∈ listeners w → runHandler hd i = Reaction [] [] None).
  { intros hd Hhd. unfold runHandler.
    rewrite (bool_decide_eq_false_2 (i_message i = h_message hd)); [reflexivity|].
    intros Heq. destruct (listener_collected w Hc hd Hhd) as [t Ht].
    rewrite <- Heq, Hnone in Ht. discriminate. }
  unfold emit. cbn [log pending]. eexists. split; [reflexivity|]. split.
  - unfold responses. apply filter_none. intros x Hx.
    apply emit_entries in Hx as (hd & Hhd & [->|(a & -> & Ha)]); [cbn; tauto|].
    rewrite (Hquiet hd Hhd) in Ha. apply not_elem_of_nil in Ha. contradiction.
  - assert (Hno : omap (fun h => waits (runHandler h i)) (listeners w) = []);
      [|rewrite Hno; apply app_nil_r].
    induction (listeners w) as [|hd ls IH]; [reflexivity|].
    cbn [omap list_omap]. rewrite (Hquiet hd) by apply list_elem_of_here. cbn [waits].
    apply IH. intros hd' Hhd'. apply Hquiet, list_elem_of_further, Hhd'.
Qed.

(** C9. A session set up at time [t0] has its timeout due at
    [t0 + COLLECTOR_TIMEOUT], and no follow-up event changes that: whatever
    events are handled afterwards (short of a new set-up for the same
    message), the timeout is still pending with that same due time as long
    as the clock is before it, and once the clock has reached it the
    timeout has fired at exactly that time: the entry, the handler and the
    timeout are gone and the controls were cleared once.  Every call of the
    session's handler, every deferral and every edit for the message
    happened before the due time; and a follow-up event for the message
    that arrives at the due time or later is handled by nobody: it gets no
    answer and leaves no call waiting.  (What a call that was made in time
    still sends once its promise is settled, the catalogue or an error
    notice, can come later.) *)
Theorem session_expires_on_time (before evs : list (Z * event)) (m a : jsstring)
    (cards : list card) (target : user) (opts : options) :
  Forall (fun te => setsUp m te.2 = false) evs →
  let w := run before initial in
  let h := Handler (nextHandler w) m a cards target opts in
  let t := nextTimer w in
  let d := now w + COLLECTOR_TIMEOUT in
  let w0 := setupInteractionHandler m a cards target opts w in
  let w1 := run evs w0 in
  timers w0 !! t = Some (Timer d m h)
  ∧ (∃ new, log w1 = log w0 ++ new
       ∧ answeredBefore m (h_id h) d new
       ∧ clearings m new = if decide (d ≤ now w1) then [(d, ClearControls m)] else [])
  ∧ (now w1 < d →
     timers w1 !! t = Some (Timer d m h) ∧ h ∈ listeners w1
     ∧ activeCollectors w1 !! m = Some (Collector h t))
  ∧ (d ≤ now w1 →
     timers w1 !! t = None ∧ activeCollectors w1 !! m = None
     ∧ filter (fun x => h_message x = m) (listeners w1) = [])
  ∧ (∀ tau i, d ≤ tau → i_message i = m →
       ∃ calls, log (step w1 (tau, FollowUp i)) = log (advance tau w1) ++ calls
         ∧ responses calls = []
         ∧ pending (step w1 (tau, FollowUp i)) = pending (advance tau w1)).
Proof.
  intros Hall w h t d w0 w1.
  assert (Hc : consistent w) by apply run_consistent, consistent_initial.
  assert (Hp : punctual w) by apply run_punctual, punctual_initial.
  assert (Htimer : timers w0 !! t = Some (Timer d m h)) by apply lookup_insert_eq.
  assert (Hs0 : sessionState m h t d (log w0) w0).
  { split; [apply setup_consistent, Hc|]. split.
    - intros x tm Hx. apply setup_timers in Hx as [[_ ->]|[_ Hx]].
      + cbn. unfold COLLECTOR_TIMEOUT. lia.
      + apply (Hp x tm Hx).
    - exists []. split; [rewrite app_nil_r; reflexivity|]. split; [constructor|].
      left. split; [subst d; cbn; unfold COLLECTOR_TIMEOUT; lia|].
      split; [|reflexivity]. split; [apply lookup_insert_eq|assumption]. }
  pose proof (run_sessionState evs w0 m h t d (log w0) Hall Hs0) as Hs1.
  fold w1 in Hs1.
  pose proof Hs1 as (Hc1 & Hp1 & new & Hlog & Hans & Hcase).
  split; [assumption|]. split; [|split; [|split]].
  - exists new. split; [assumption|]. split; [assumption|].
    destruct Hcase as [(Hlt & _ & Hcl)|(Hle & _ & _ & Hcl)].
    + rewrite decide_False by lia. assumption.
    + rewrite decide_True by assumption. assumption.
  - intros Hlt. destruct Hcase as [(_ & [Hcol Htm] & _)|(Hle & _)]; [|lia].
    split; [assumption|]. split; [|assumption].
    destruct (collector_registered w1 Hc1 m _ Hcol) as (_ & Hin & _). exact Hin.
  - intros Hle. destruct Hcase as [(Hlt & _)|(_ & (Hcol & Htm & _) & _)]; [lia|].
    split; [assumption|]. split; [assumption|].
    rewrite (session_listener w1 m Hc1), Hcol. reflexivity.
  - intros tau i Htau Hi.
    apply (advance_sessionState tau) in Hs1.
    destruct Hs1 as (Hc2 & _ & new2 & _ & _ & Hcase2).
    destruct (advance_clock tau w1) as (Hnow & _).
    destruct Hcase2 as [(Hlt & _)|(_ & (Hcol & _) & _)]; [lia|].
    unfold step. cbn [fst snd]. apply (emit_without_session i _ Hc2).
    rewrite Hi. exact Hcol.
Qed.
End TimeToLive.

Lemma session_expires_on_time_witness :
  Forall (fun te => setsUp (lit "m") te.2 = false) scenarioE
  ∧ timers (run (constants:=plainConstants) scenarioE
              (setupInteractionHandler (lit "m") (lit "u") [abcCard] sampleUser
                 (query [] [] false) (run (constants:=plainConstants) [] initial)))
      !! 0%nat = None
  ∧ activeCollectors (run (constants:=plainConstants) scenarioE
                        (setupInteractionHandler (lit "m") (lit "u") [abcCard] sampleUser
                           (query [] [] false) (run (constants:=plainConstants) [] initial)))
      !! lit "m" = None
  ∧ filter (fun x => h_message x = lit "m")
           (listeners (run (constants:=plainConstants) scenarioE
                         (setupInteractionHandler (lit "m") (lit "u") [abcCard] sampleUser
                            (query [] [] false)
                            (run (constants:=plainConstants) [] initial)))) = [].
Proof.
  assert (Hall : Forall (fun te => setsUp (lit "m") te.2 = false) scenarioE).
  { repeat constructor. }
  split; [exact Hall|].
  pose proof (session_expires_on_time (constants:=plainConstants) [] scenarioE
                (lit "m") (lit "u") [abcCard] sampleUser (query [] [] false) Hall) as H.
  cbv zeta in H. destruct H as (_ & _ & _ & H & _). apply H.
  vm_compute. discriminate.
Defined.

(** Scenario E in full: the press after one minute is answered, the
    timeout clears the controls at five minutes, the press after six
    minutes leaves no trace. *)
Example scenario_E_log :
  log (run (constants:=plainConstants) scenarioE
         (setupInteractionHandler (lit "m") (lit "u") [abcCard] sampleUser
            (query [] [] false) initial))
  = [(60000, Invoked 0 (Interaction (lit "m") (Some (lit "u")) (lit "next") (Some 1)));
     (60000, EditParent (Interaction (lit "m") (Some (lit "u")) (lit "next") (Some 1))
                        (Pagination 1 1 12));
     (300000, ClearControls (lit "m"))].
Proof. vm_compute. reflexivity. Qed.

(** A catalogue asked for just in time: the deferral is requested before
    the session ends, the catalogue itself goes out when the deferral has
    gone through, after the controls were cleared. *)
Example catalogue_after_timeout :
  log (run (constants:=plainConstants) lateCatalogue
         (setupInteractionHandler (lit "m") (lit "u") [abcCard] sampleUser
            (query [] [] false) initial))
  = [(299999, Invoked 0 (Interaction (lit "m") (Some (lit "u")) (lit "code_catalog")
                                     (Some 1)));
     (299999, Defer (Interaction (lit "m") (Some (lit "u")) (lit "code_catalog") (Some 1)));
     (300000, ClearControls (lit "m"));
     (304999, CodeCatalog (Interaction (lit "m") (Some (lit "u")) (lit "code_catalog")
                                       (Some 1)) 1 [Some (lit "C1")])].
Proof. vm_compute. reflexivity. Qed.

(** A page that cannot be built: the press is answered with the error
    notice and the message is not edited. *)
Example unbuildable_page_gets_notice :
  log (run (constants:=plainConstants) [(60000, pressNext)]
         (setupInteractionHandler (lit "m") (lit "u") [constructorCard] sampleUser
            (query [] [] false) initial))
  = [(60000, Invoked 0 (Interaction (lit "m") (Some (lit "u")) (lit "next") (Some 1)));
     (60000, ErrorNotice (Interaction (lit "m") (Some (lit "u")) (lit "next") (Some 1)))].
Proof. vm_compute. reflexivity. Qed.

(** With two sessions the notice comes when both listeners have been
    called. *)
Example notice_after_the_calls :
  log (run (constants:=plainConstants) brokenSession initial)
  = [(2000, Invoked 0 (Interaction (lit "m") (Some (lit "u")) (lit "next") (Some 1)));
     (2000, Invoked 1 (Interaction (lit "m") (Some (lit "u")) (lit "next") (Some 1)));
     (2000, ErrorNotice (Interaction (lit "m") (Some (lit "u")) (lit "next") (Some 1)))].
Proof. vm_compute. reflexivity. Qed.

(* ===================================================================== *)
(** * Further properties of the command                                  *)
(* ===================================================================== *)

(** ** Argument parsing *)

Lemma parseArgument_terms (opts : options) (arg : jsstring) :
  searchTerms (parseArgument opts arg)
  = searchTerms opts ++ (if isIncludeToken arg then [toLowerCase arg] else [])
  ∧ excludeTerms (parseArgument opts arg)
    = excludeTerms opts ++ (if isExcludeToken arg then [toLowerCase (drop 1 arg)] else [])
  ∧ showDuplicates (parseArgument opts arg) = showDuplicates opts || isDuplicateWord arg.
Proof.
  unfold parseArgument, isIncludeToken, isExcludeToken, isDuplicateWord, isPageToken, isMention.
  destruct (startsWith arg (lit "<@")); cbn [negb andb].
  { destruct (firstDigits arg); cbn; rewrite !app_nil_r, orb_false_r; auto. }
  destruct (pageDigits arg) as [digits|]; cbn [negb andb].
  { rewrite (bool_decide_eq_true_2 (is_Some (Some digits))) by eauto.
    cbn. rewrite !app_nil_r, orb_false_r. auto. }
  rewrite (bool_decide_eq_false_2 (is_Some (@None jsstring)))
    by (intros [? ?]; discriminate).
  cbn [negb andb].
  destruct (bool_decide (toLowerCase arg ∈ duplicateWords)); cbn [negb andb].
  { cbn. rewrite !app_nil_r, orb_true_r. auto. }
  destruct (startsWith arg (lit "-")); cbn; rewrite ?app_nil_r, orb_false_r; auto.
Qed.

Lemma parseArgument_target (opts : options) (arg : jsstring) :
  userId (parseArgument opts arg) = default (userId opts) (mentionedUser arg)
  ∧ page (parseArgument opts arg) = default (page opts) (requestedPage arg).
Proof.
  unfold parseArgument, mentionedUser, requestedPage, isMention.
  destruct (startsWith arg (lit "<@")).
  { destruct (firstDigits arg); cbn; auto. }
  destruct (pageDigits arg) as [digits|]; [cbn; auto|].
  destruct (bool_decide _); [cbn; auto|].
  destruct (startsWith arg (lit "-")); cbn; auto.
Qed.

Lemma default_last_cons {A} (d x : A) (l : list A) :
  default d (last (x :: l)) = default x (last l).
Proof.
  revert d x. induction l as [|a l IH]; intros d x; [reflexivity|].
  change (last (x :: a :: l)) with (last (a :: l)). rewrite !(IH _ a). reflexivity.
Qed.

Lemma parseArgument_fold (args : list jsstring) (opts : options) :
  searchTerms (foldl parseArgument opts args)
  = searchTerms opts ++ (toLowerCase <$> filter (fun a => isIncludeToken a) args)
  ∧ excludeTerms (foldl parseArgument opts args)
    = excludeTerms opts
      ++ ((fun a => toLowerCase (drop 1 a)) <$> filter (fun a => isExcludeToken a) args)
  ∧ showDuplicates (foldl parseArgument opts args)
    = showDuplicates opts || existsb isDuplicateWord args
  ∧ userId (foldl parseArgument opts args)
    = default (userId opts) (last (omap mentionedUser args))
  ∧ page (foldl parseArgument opts args)
    = default (page opts) (last (omap requestedPage args)).
Proof.
  revert opts. induction args as [|arg args IH]; intros opts; cbn [foldl].
  - cbn. rewrite !app_nil_r, orb_false_r. auto.
  - destruct (IH (parseArgument opts arg)) as (-> & -> & -> & -> & ->).
    destruct (parseArgument_terms opts arg) as (-> & -> & ->).
    destruct (parseArgument_target opts arg) as (-> & ->).
    rewrite !filter_cons. cbn [existsb omap list_omap].
    repeat split.
    + destruct (isIncludeToken arg); cbn.
      * rewrite decide_True by exact I. rewrite fmap_cons, <- app_assoc. reflexivity.
      * rewrite decide_False by auto. rewrite app_nil_r. reflexivity.
    + destruct (isExcludeToken arg); cbn.
      * rewrite decide_True by exact I. rewrite fmap_cons, <- app_assoc. reflexivity.
      * rewrite decide_False by auto. rewrite app_nil_r. reflexivity.
    + rewrite orb_assoc. reflexivity.
    + destruct (mentionedUser arg); cbn; [rewrite default_last_cons|]; reflexivity.
    + destruct (requestedPage arg); cbn; [rewrite default_last_cons|]; reflexivity.
Qed.

Lemma positiveOrOne_atLeastOne (x : jsinteger) : atLeastOne (positiveOrOne x).
Proof.
  destruct x as [z|]; cbn; [|exact I].
  destruct (Z.ltb_spec 0 z); cbn; lia.
Qed.

Lemma requestedPage_positive (arg : jsstring) (p : jsinteger) :
  requestedPage arg = Some p → atLeastOne p.
Proof.
  unfold requestedPage. destruct (isMention arg); [discriminate|].
  destruct (pageDigits arg) as [digits|]; cbn; [|discriminate].
  intros [= <-]. apply positiveOrOne_atLeastOne.
Qed.

(** Up to [2^53] a natural number is its own double. *)
Lemma roundToDouble_exact (n : N) :
  (n ≤ 2 ^ 53)%N → roundToDouble n = Finite (Z.of_N n).
Proof.
  intros Hn. destruct (N.eq_dec n (2 ^ 53)%N) as [->|Hne]; [vm_compute; reflexivity|].
  unfold roundToDouble.
  assert (Hsize : (N.size n ≤ 53)%N).
  { destruct (N.le_gt_cases (N.size n) 53) as [|Hbig]; [assumption|exfalso].
    pose proof (N.size_le n) as Hle. rewrite N.succ_double_spec in Hle.
    assert (Hpow : (2 ^ 54 ≤ 2 ^ N.size n)%N) by (apply N.pow_le_mono_r; lia).
    change (2 ^ 54)%N with 18014398509481984%N in Hpow.
    change (2 ^ 53)%N with 9007199254740992%N in Hn, Hne. lia. }
  apply N.leb_le in Hsize. rewrite Hsize. reflexivity.
Qed.

(** X1. Every include and exclude term that [parseArguments] produces is
    in lower case, so for the options of a parsed command the match of the
    filters is a case-insensitive substring match. *)
Theorem parseArguments_folds_terms (args : list jsstring) (uid t : jsstring) :
  t ∈ searchTerms (parseArguments args uid) ∨ t ∈ excludeTerms (parseArguments args uid) →
  toLowerCase t = t ∧ ∀ c, fieldMatches c t ↔ fieldMatchesFolded c t.
Proof.
  intros Hin.
  assert (Hlow : toLowerCase t = t).
  { unfold parseArguments in Hin.
    destruct (parseArgument_fold args (Options [] [] uid (Finite 1) false)) as (Hs & He & _).
    rewrite Hs, He in Hin. cbn in Hin.
    destruct Hin as [Hin|Hin]; apply list_elem_of_fmap in Hin as [a [-> _]];
      apply toLowerCase_idemp. }
  split; [assumption|]. intros c. unfold fieldMatches, fieldMatchesFolded.
  rewrite Hlow. reflexivity.
Qed.

Lemma parseArguments_folds_terms_witness :
  lit "abc" ∈ searchTerms (parseArguments [lit "ABC"; lit "-Xyz"; lit "p:2"] (lit "7"))
  ∧ toLowerCase (lit "abc") = lit "abc"
  ∧ ∀ c, fieldMatches c (lit "abc") ↔ fieldMatchesFolded c (lit "abc").
Proof.
  assert (Hin : lit "abc" ∈ searchTerms (parseArguments [lit "ABC"; lit "-Xyz"; lit "p:2"]
                                                        (lit "7"))).
  { vm_compute. apply list_elem_of_here. }
  split; [exact Hin|].
  exact (parseArguments_folds_terms _ (lit "7") (lit "abc") (or_introl Hin)).
Defined.

(** X2. The page of the parsed options is at least 1: it is 1 unless a
    page token ([page:n], [p:n] or [#n], in any case) occurs, and then it
    is what [parseInt] reads in the digits of the last page token, zero
    counting as 1: the double nearest to the number the digits spell, which
    is that number itself up to [2^53]. *)
Theorem parseArguments_page (args : list jsstring) (uid : jsstring) :
  atLeastOne (page (parseArguments args uid))
  ∧ page (parseArguments args uid) = default (Finite 1) (last (omap requestedPage args))
  ∧ ∀ arg digits, isMention arg = false → pageDigits arg = Some digits →
      page (parseArguments (args ++ [arg]) uid)
      = positiveOrOne (roundToDouble (decimalValue digits))
      ∧ ((decimalValue digits ≤ 2 ^ 53)%N →
         page (parseArguments (args ++ [arg]) uid)
         = Finite (Z.max 1 (Z.of_N (decimalValue digits)))).
Proof.
  unfold parseArguments.
  destruct (parseArgument_fold args (Options [] [] uid (Finite 1) false))
    as (_ & _ & _ & _ & Hp).
  cbn [page] in Hp. split; [|split; [exact Hp|]].
  - rewrite Hp. destruct (last (omap requestedPage args)) as [p|] eqn:Hl; cbn; [|lia].
    apply last_Some_elem_of, list_elem_of_omap in Hl as [arg [_ Harg]].
    apply (requestedPage_positive arg p Harg).
  - intros arg digits Hm Hd. rewrite foldl_app. cbn [foldl].
    destruct (parseArgument_target
                (foldl parseArgument (Options [] [] uid (Finite 1) false) args) arg)
      as [_ ->].
    unfold requestedPage. rewrite Hm, Hd. cbn [fmap option_fmap option_map default
      from_option id]. unfold parseInt. split; [reflexivity|].
    intros Hexact. rewrite (roundToDouble_exact _ Hexact). cbn [positiveOrOne].
    destruct (Z.ltb_spec 0 (Z.of_N (decimalValue digits))); f_equal; lia.
Qed.

Lemma parseArguments_page_witness :
  isMention (lit "PAGE:0") = false ∧ pageDigits (lit "PAGE:0") = Some (lit "0")
  ∧ page (parseArguments ([lit "#7"] ++ [lit "PAGE:0"]) (lit "7")) = Finite 1.
Proof.
  split; [reflexivity|]. split; [reflexivity|].
  destruct (parseArguments_page [lit "#7"] (lit "7")) as (_ & _ & H).
  destruct (H (lit "PAGE:0") (lit "0")) as [_ Hexact]; [reflexivity|reflexivity|].
  apply Hexact. vm_compute. discriminate.
Defined.

(** A page number beyond [2^53] is read as the nearest double, and a run of
    four hundred digits as [Infinity]. *)
Example parseArguments_page_rounds :
  page (parseArguments [lit "p:9007199254740993"] (lit "7")) = Finite 9007199254740992
  ∧ page (parseArguments [lit "#" ++ replicate 400 57%N] (lit "7")) = Infinity.
Proof. split; vm_compute; reflexivity. Qed.

(** X3. [parseArguments] routes every token to one place, in the order
    mention, page token, duplicates word, exclude marker, include term: the
    include terms are the lower-cased tokens of none of the first four
    kinds, in their order; the exclude terms are the lower-cased tokens
    that start with [-], without the marker; the duplicates flag is set
    exactly when one of the three words occurs; and the target is the first
    run of digits of the last mention that has a digit, the author when
    there is none. *)
Theorem parseArguments_routes (args : list jsstring) (uid : jsstring) :
  searchTerms (parseArguments args uid)
  = toLowerCase <$> filter (fun a => isIncludeToken a) args
  ∧ excludeTerms (parseArguments args uid)
    = (fun a => toLowerCase (drop 1 a)) <$> filter (fun a => isExcludeToken a) args
  ∧ showDuplicates (parseArguments args uid) = existsb isDuplicateWord args
  ∧ userId (parseArguments args uid) = default uid (last (omap mentionedUser args)).
Proof.
  unfold parseArguments.
  destruct (parseArgument_fold args (Options [] [] uid (Finite 1) false)) as (-> & -> & -> & -> & _).
  auto.
Qed.

Lemma includes_empty (s : jsstring) : includes s [] = true.
Proof. destruct s; reflexivity. Qed.

Lemma empty_term_matches (c : card) : isValidCard c = true → fieldMatches c [].
Proof.
  intros Hv. apply valid_fields in Hv as ([n Hn] & _).
  exists n. split.
  - unfold searchedFields. rewrite Hn. apply list_elem_of_here.
  - exists [], (toLowerCase n). reflexivity.
Qed.

(** X4. A bare [-] argument becomes an empty exclude term, and an empty
    exclude term is found in every card: whenever the expanded exclude terms
    contain it, the pipeline returns no card at all. *)
Theorem empty_exclude_term_drops_all (expandAll : list jsstring → list jsstring)
    (cards : list card) :
  (∀ args uid, lit "-" ∈ args → [] ∈ excludeTerms (parseArguments args uid))
  ∧ (∀ opts out, [] ∈ expandAll (excludeTerms opts) →
       processCards expandAll cards opts = Ok out → out = []).
Proof.
  split.
  - intros args uid Hin. unfold parseArguments.
    destruct (parseArgument_fold args (Options [] [] uid (Finite 1) false)) as (_ & -> & _).
    cbn [excludeTerms app]. apply list_elem_of_fmap. exists (lit "-"). split; [reflexivity|].
    apply list_elem_of_filter. split; [exact I|assumption].
  - intros opts out Hempty H. destruct out as [|c out]; [reflexivity|]. exfalso.
    destruct (processCards_elem expandAll cards opts _ c H (list_elem_of_here _ _))
      as (_ & Hv & _ & Hno).
    apply Hno. exists []. split; [assumption|]. apply empty_term_matches, Hv.
Qed.

Lemma empty_exclude_term_drops_all_witness :
  [] ∈ excludeTerms (parseArguments [lit "abc"; lit "-"] (lit "7"))
  ∧ ∃ out, processCards noAliases [abcCard; plainCard] (parseArguments [lit "-"] (lit "7"))
           = Ok out ∧ out = [].
Proof.
  destruct (empty_exclude_term_drops_all noAliases [abcCard; plainCard]) as [Hparse Hrun].
  split.
  - apply Hparse. apply list_elem_of_further, list_elem_of_here.
  - eexists. split; [reflexivity|].
    apply (Hrun (parseArguments [lit "-"] (lit "7"))); [|reflexivity].
    apply Hparse, list_elem_of_here.
Defined.

(** ** The pipeline applied to its own result *)

Lemma filterM_kept {A} (p : A → result bool) (l out : list A) :
  filterM p l = Ok out → out `sublist_of` l ∧ ∀ x, x ∈ out → p x = Ok true.
Proof.
  revert out. induction l as [|x l IH]; intros out; cbn [filterM].
  - intros [= <-]. split; [constructor|]. intros x Hx.
    apply not_elem_of_nil in Hx. contradiction.
  - intros H. apply bind_Ok in H as [b [Hx H]]. apply bind_Ok in H as [r [Hr [= <-]]].
    destruct (IH r Hr) as [Hsub Hall]. destruct b.
    + split; [apply sublist_skip, Hsub|]. intros y Hy.
      apply elem_of_cons in Hy as [->|Hy]; auto.
    + split; [apply sublist_cons, Hsub|assumption].
Qed.

Lemma filterM_all_true {A} (p : A → result bool) (l : list A) :
  (∀ x, x ∈ l → p x = Ok true) → filterM p l = Ok l.
Proof.
  induction l as [|x l IH]; intros Hall; cbn [filterM]; [reflexivity|].
  rewrite (Hall x (list_elem_of_here _ _)). cbn [mbind result_bind].
  rewrite IH by (intros y Hy; apply Hall, list_elem_of_further, Hy). reflexivity.
Qed.

Lemma includeFilter_kept (terms : list jsstring) (cards out : list card) :
  includeFilter terms cards = Ok out →
  out `sublist_of` cards ∧ ∀ l, (∀ c, c ∈ l → c ∈ out) → includeFilter terms l = Ok l.
Proof.
  unfold includeFilter. case_bool_decide as Hterms.
  - intros [= <-]. split; [reflexivity|]. intros l _. reflexivity.
  - intros H. apply filterM_kept in H as [Hsub Hall]. split; [assumption|].
    intros l Hl. apply filterM_all_true. auto.
Qed.

Lemma excludeFilter_kept (terms : list jsstring) (cards out : list card) :
  excludeFilter terms cards = Ok out →
  out `sublist_of` cards ∧ ∀ l, (∀ c, c ∈ l → c ∈ out) → excludeFilter terms l = Ok l.
Proof.
  unfold excludeFilter. case_bool_decide as Hterms.
  - intros [= <-]. split; [reflexivity|]. intros l _. reflexivity.
  - intros H. apply filterM_kept in H as [Hsub Hall]. split; [assumption|].
    intros l Hl. apply filterM_all_true. auto.
Qed.

Lemma duplicatesFilter_sublist (flag : bool) (cards : list card) :
  duplicatesFilter flag cards `sublist_of` cards.
Proof. unfold duplicatesFilter. destruct flag; [apply sublist_filter|reflexivity]. Qed.

(** X7. The pipeline returns nothing but validated cards of its input,
    each at most as often as the input has it: the result is a selection of
    the input, rearranged. *)
Theorem processCards_selects (expandAll : list jsstring → list jsstring)
    (cards : list card) (opts : options) (out : list card) :
  processCards expandAll cards opts = Ok out →
  out ⊆+ cards ∧ Forall (fun c => isValidCard c = true) out
  ∧ (length out ≤ length cards)%nat.
Proof.
  intros H.
  assert (Hsub : out ⊆+ cards).
  { apply processCards_Ok in H as (inc & exc & Hinc & Hexc & Hsort).
    rewrite (sortCards_perm _ _ Hsort). apply sublist_submseteq.
    etransitivity; [apply duplicatesFilter_sublist|].
    etransitivity; [apply (excludeFilter_kept _ _ _ Hexc)|].
    etransitivity; [apply (includeFilter_kept _ _ _ Hinc)|]. apply sublist_filter. }
  split; [assumption|]. split; [|apply submseteq_length, Hsub].
  apply Forall_forall. intros c Hc.
  apply (processCards_elem expandAll cards opts out c H Hc).
Qed.

Lemma processCards_selects_witness :
  processCards noAliases [plainCard; abcxyzCard; abcCard] (query ["abc"%string] [] false)
  = Ok [abcCard; abcxyzCard]
  ∧ [abcCard; abcxyzCard] ⊆+ [plainCard; abcxyzCard; abcCard]
  ∧ Forall (fun c => isValidCard c = true) [abcCard; abcxyzCard]
  ∧ (length [abcCard; abcxyzCard] ≤ length [plainCard; abcxyzCard; abcCard])%nat.
Proof.
  assert (Hout : processCards noAliases [plainCard; abcxyzCard; abcCard]
                   (query ["abc"%string] [] false) = Ok [abcCard; abcxyzCard])
    by reflexivity.
  split; [exact Hout|].
  exact (processCards_selects noAliases _ _ _ Hout).
Defined.

(** ** Sorting what is sorted *)

Lemma sortCards_fixed (cards : list card) :
  Forall ranked cards → StronglySorted sortsBefore cards → sortCards cards = Ok cards.
Proof.
  intros Hr Hs. induction Hs as [|x l Hs IH Hx]; [reflexivity|].
  apply Forall_cons in Hr as [Hrx Hrl]. cbn [sortCards].
  rewrite (IH Hrl). cbn [mbind result_bind].
  destruct l as [|y l]; [reflexivity|]. cbn [insertCard].
  apply Forall_cons in Hrl as [Hry _]. apply Forall_cons in Hx as [Hxy _].
  destruct (compareCards_ranked x y Hrx Hry) as (v & -> & Hv). cbn [mbind result_bind].
  apply Hv in Hxy. destruct (Z.leb_spec v 0); [reflexivity|lia].
Qed.

(** X6. Sorting is a fixed point on its own results: for cards whose
    rarity and condition are in the two tables, sorting the sorted list
    again returns it unchanged. *)
Theorem sortCards_idempotent (cards out : list card) :
  Forall ranked cards → sortCards cards = Ok out → sortCards out = Ok out.
Proof.
  intros Hr Hout. destruct (sortCards_sorted cards Hr) as (out' & Hout' & Hperm & Hs).
  rewrite Hout in Hout'. injection Hout' as <-.
  apply sortCards_fixed; [rewrite Hperm|]; assumption.
Qed.

Lemma sortCards_idempotent_witness :
  Forall ranked [plainCard; abcCard; mythicCard]
  ∧ sortCards [mythicCard; abcCard; plainCard] = Ok [mythicCard; abcCard; plainCard].
Proof.
  assert (Hall : Forall ranked [plainCard; abcCard; mythicCard]).
  { repeat constructor; vm_compute; eauto. }
  split; [exact Hall|].
  apply (sortCards_idempotent [plainCard; abcCard; mythicCard] _ Hall). reflexivity.
Defined.

Lemma duplicatesFilter_idempotent (cards : list card) (l : list card) :
  Forall (fun c => is_Some (imageURL c)) cards →
  l ≡ₚ duplicatesFilter true cards → duplicatesFilter true l = l.
Proof.
  intros Himg Hperm. unfold duplicatesFilter at 1. apply filter_keeps_all. intros c Hc.
  rewrite Hperm in Hc. unfold duplicatesFilter in Hc.
  apply list_elem_of_filter in Hc as [Hhas Hc]. apply Is_true_true in Hhas.
  apply Is_true_true. unfold hasImage in *.
  destruct (imageURL c) as [k|] eqn:Hk; [|discriminate].
  apply bool_decide_eq_true in Hhas. apply bool_decide_eq_true.
  apply findDuplicates_elem. apply findDuplicates_elem in Hhas.
  assert (Hsame : keyCount k l = keyCount k cards); [|lia].
  unfold keyCount. rewrite Hperm. unfold duplicatesFilter. f_equal.
  rewrite list_filter_filter. apply filter_agree. intros c' Hc'. split; [tauto|].
  intros Hkey. split; [assumption|]. apply Is_true_true.
  rewrite Forall_forall in Himg. destruct (Himg c' Hc') as [k' Hk'].
  rewrite Hk' in Hkey. cbn in Hkey. subst k'. unfold hasImage. rewrite Hk'.
  apply bool_decide_eq_true, findDuplicates_elem, Hhas.
Qed.

(** X5. Querying a result again with the same options changes nothing:
    for records that, once valid, have their rarity and condition in the two
    tables and carry an image key, the pipeline applied to its own result
    returns that result, in the same order (each filter, the duplicates
    filter and the sort are idempotent together). *)
Theorem processCards_idempotent (expandAll : list jsstring → list jsstring)
    (cards : list card) (opts : options) (out : list card) :
  Forall wellFormed cards →
  processCards expandAll cards opts = Ok out →
  processCards expandAll out opts = Ok out.
Proof.
  intros Hwf H. pose proof H as Hrun.
  apply processCards_Ok in H as (inc & exc & Hinc & Hexc & Hsort).
  pose proof (sortCards_perm _ _ Hsort) as Hperm.
  destruct (includeFilter_kept _ _ _ Hinc) as [Hsub1 Hre1].
  destruct (excludeFilter_kept _ _ _ Hexc) as [Hsub2 Hre2].
  assert (Hexc_in : ∀ c, c ∈ exc → isValidCard c = true ∧ c ∈ cards).
  { intros c Hc. pose proof (elem_of_sublist _ _ _ Hc Hsub2) as Hc2.
    pose proof (elem_of_sublist _ _ _ Hc2 Hsub1) as Hc1.
    apply list_elem_of_filter in Hc1 as [Hv Hc1]. apply Is_true_true in Hv. auto. }
  assert (Hexc_wf : ∀ c, c ∈ exc → ranked c ∧ is_Some (imageURL c)).
  { intros c Hc. destruct (Hexc_in c Hc) as [Hv Hin].
    rewrite Forall_forall in Hwf. apply (Hwf c Hin Hv). }
  assert (Hout_exc : ∀ c, c ∈ out → c ∈ exc).
  { intros c Hc. rewrite Hperm in Hc. apply (duplicatesFilter_elem _ _ _ Hc). }
  assert (Hranked : Forall ranked (duplicatesFilter (showDuplicates opts) exc)).
  { apply Forall_forall. intros c Hc. apply duplicatesFilter_elem in Hc.
    apply (Hexc_wf c Hc). }
  destruct (sortCards_sorted _ Hranked) as (out' & Hout' & _ & Hsorted).
  rewrite Hsort in Hout'. injection Hout' as <-.
  unfold processCards.
  rewrite (filter_keeps_all _ out) by (intros c Hc; apply Is_true_true, Hexc_in, Hout_exc, Hc).
  rewrite Hre1 by (intros c Hc; apply (elem_of_sublist _ _ _ (Hout_exc c Hc) Hsub2)).
  cbn [mbind result_bind]. rewrite (Hre2 out Hout_exc). cbn [mbind result_bind].
  assert (Hdup : duplicatesFilter (showDuplicates opts) out = out).
  { destruct (showDuplicates opts) eqn:Hflag; [|reflexivity].
    apply (duplicatesFilter_idempotent exc); [|assumption].
    apply Forall_forall. intros c Hc. apply (Hexc_wf c Hc). }
  cbn zeta. rewrite Hdup. apply sortCards_fixed; [|assumption].
  apply Forall_forall. intros c Hc. apply Hexc_wf, Hout_exc, Hc.
Qed.

Lemma processCards_idempotent_witness :
  Forall wellFormed [plainCard; abcxyzCard; abcCard; xyzTwin]
  ∧ processCards noAliases [abcCard; plainCard; xyzTwin] (query [] [] true)
    = Ok [abcCard; plainCard; xyzTwin].
Proof.
  assert (Hwf : Forall wellFormed [plainCard; abcxyzCard; abcCard; xyzTwin]).
  { repeat constructor; vm_compute; eauto. }
  split; [exact Hwf|].
  apply (processCards_idempotent noAliases [plainCard; abcxyzCard; abcCard; xyzTwin]
           (query [] [] true) _ Hwf).
  vm_compute. reflexivity.
Defined.

(** ** When the filters throw *)

Lemma cardMatchesTerm_codeless (c : card) (t : jsstring) :
  isValidCard c = true → cardCode c = None →
  cardMatchesTerm c t = if matchesFour c t then Ok true else Throw TypeError.
Proof.
  intros Hv Hcode. apply valid_fields in Hv as ([n Hn] & [g Hg] & [r Hr] & [k Hk]).
  unfold cardMatchesTerm, matchesFour. rewrite Hn, Hg, Hr, Hk, Hcode.
  rewrite !lowerIncludes_Some. cbn [existsb]. unfold orElse. cbn [mbind result_bind].
  repeat match goal with
         | |- context [fieldIncludes t (Some ?v)] =>
             destruct (fieldIncludes t (Some v)); cbn [orb]
         end; reflexivity.
Qed.

Lemma matchesTerm_four (c : card) (t : jsstring) :
  matchesFour c t = true → matchesTerm c t = true.
Proof.
  unfold matchesFour, matchesTerm, searchedFields. cbn [existsb].
  rewrite !orb_true_iff. tauto.
Qed.

Lemma every_codeless (c : card) (terms : list jsstring) :
  isValidCard c = true → cardCode c = None →
  every (cardMatchesTerm c) terms
  = if forallb (matchesFour c) terms then Ok true else Throw TypeError.
Proof.
  intros Hv Hcode. induction terms as [|t terms IH]; [reflexivity|].
  cbn [every forallb]. rewrite (cardMatchesTerm_codeless c t Hv Hcode).
  destruct (matchesFour c t); cbn; [exact IH|reflexivity].
Qed.

Lemma forallb_false {A} (f : A → bool) (l : list A) :
  forallb f l = false → ∃ x, x ∈ l ∧ f x = false.
Proof.
  induction l as [|x l IH]; cbn [forallb]; [discriminate|].
  destruct (f x) eqn:Hx; cbn [andb].
  - intros H. destruct (IH H) as [y [Hy Hfy]]. exists y.
    split; [apply list_elem_of_further, Hy|assumption].
  - intros _. exists x. split; [apply list_elem_of_here|assumption].
Qed.

Lemma filterM_Throw {A} (p : A → result bool) (l : list A) :
  filterM p l = Throw TypeError ↔ ∃ x, x ∈ l ∧ p x = Throw TypeError.
Proof.
  induction l as [|x l IH]; cbn [filterM].
  - split; [discriminate|]. intros [x [Hx _]]. apply not_elem_of_nil in Hx. contradiction.
  - destruct (p x) as [b|[]] eqn:Hpx; cbn [mbind result_bind].
    + destruct (filterM p l) as [r|[]]; cbn [mbind result_bind].
      * split; [discriminate|]. intros [y [Hy Hpy]].
        apply elem_of_cons in Hy as [->|Hy]; [congruence|].
        assert (Hthrow : Ok r = Throw TypeError) by (apply IH; eauto). discriminate.
      * split; [|reflexivity]. intros _.
        destruct (proj1 IH eq_refl) as [y [Hy Hpy]]. exists y.
        split; [apply list_elem_of_further, Hy|assumption].
    + split; [|reflexivity]. intros _. exists x. split; [apply list_elem_of_here|assumption].
Qed.

Lemma matchesSearch_codeless (c : card) (t : jsstring) (terms : list jsstring) :
  isValidCard c = true → cardCode c = None →
  matchesSearch c (t :: terms) = if matchesFour c t then Ok true else Throw TypeError.
Proof.
  intros Hv Hcode.
  change (matchesSearch c (t :: terms)) with (some (cardMatchesTerm c) (t :: terms)).
  cbn [some]. rewrite (cardMatchesTerm_codeless c t Hv Hcode).
  destruct (matchesFour c t); reflexivity.
Qed.

(** X8. On validated cards the filters throw for one reason only, a card
    without a code whose four other fields do not settle the test: the
    include filter throws exactly when such a card lacks some include term
    in its four fields, the exclude filter exactly when such a card lacks
    the first exclude term in them (a later term is never reached). *)
Theorem filters_throw_on_missing_code (terms : list jsstring) (cards : list card) :
  Forall (fun c => isValidCard c = true) cards →
  (includeFilter terms cards = Throw TypeError ↔
   ∃ c t, c ∈ cards ∧ cardCode c = None ∧ t ∈ terms ∧ matchesFour c t = false)
  ∧ (excludeFilter terms cards = Throw TypeError ↔
     ∃ c t, c ∈ cards ∧ cardCode c = None ∧ head terms = Some t ∧ matchesFour c t = false).
Proof.
  intros Hvalid. rewrite Forall_forall in Hvalid. split.
  - unfold includeFilter. case_bool_decide as Hterms.
    + subst terms. split; [discriminate|]. intros (c & t & _ & _ & Ht & _).
      apply not_elem_of_nil in Ht. contradiction.
    + rewrite filterM_Throw. split.
      * intros [c [Hc Hthrow]]. destruct (cardCode c) as [code|] eqn:Hcode.
        -- rewrite (every_total _ (matchesTerm c)) in Hthrow; [discriminate|].
           intros t. apply cardMatchesTerm_total; [auto|rewrite Hcode; eauto].
        -- rewrite (every_codeless c terms (Hvalid c Hc) Hcode) in Hthrow.
           destruct (forallb (matchesFour c) terms) eqn:Hall; [discriminate|].
           apply forallb_false in Hall as [t [Ht Hno]].
           exists c, t. repeat split; assumption.
      * intros (c & t & Hc & Hcode & Ht & Hno). exists c. split; [assumption|].
        rewrite (every_codeless c terms (Hvalid c Hc) Hcode).
        destruct (forallb (matchesFour c) terms) eqn:Hall; [|reflexivity].
        rewrite forallb_forall in Hall. rewrite Hall in Hno; [discriminate|].
        apply list_elem_of_In, Ht.
  - unfold excludeFilter. case_bool_decide as Hterms.
    + subst terms. split; [discriminate|]. intros (c & t & _ & _ & Ht & _). discriminate.
    + rewrite filterM_Throw. destruct terms as [|t0 terms]; [contradiction|]. split.
      * intros [c [Hc Hthrow]]. destruct (cardCode c) as [code|] eqn:Hcode.
        -- rewrite (matchesSearch_total c _ (Hvalid c Hc)) in Hthrow
             by (rewrite Hcode; eauto).
           discriminate.
        -- exists c, t0. split; [assumption|]. split; [assumption|].
           split; [reflexivity|].
           rewrite (matchesSearch_codeless c t0 terms (Hvalid c Hc) Hcode) in Hthrow.
           destruct (matchesFour c t0); [discriminate|reflexivity].
      * intros (c & t & Hc & Hcode & [= <-] & Hno). exists c. split; [assumption|].
        rewrite (matchesSearch_codeless c t0 terms (Hvalid c Hc) Hcode), Hno. reflexivity.
Qed.

Lemma filters_throw_on_missing_code_witness :
  Forall (fun c => isValidCard c = true) [abcCard; unlistedCard]
  ∧ includeFilter [lit "g"; lit "zzz"] [abcCard; unlistedCard] = Throw TypeError
  ∧ excludeFilter [lit "g"; lit "zzz"] [abcCard; unlistedCard] ≠ Throw TypeError.
Proof.
  assert (Hall : Forall (fun c => isValidCard c = true) [abcCard; unlistedCard]).
  { repeat constructor. }
  destruct (filters_throw_on_missing_code [lit "g"; lit "zzz"] [abcCard; unlistedCard] Hall)
    as [Hinc Hexc].
  split; [exact Hall|]. split.
  - apply Hinc. exists unlistedCard, (lit "zzz"). repeat split.
    + apply list_elem_of_further, list_elem_of_here.
    + apply list_elem_of_further, list_elem_of_here.
  - intros Hthrow. apply Hexc in Hthrow as (c & t & Hc & Hcode & [= <-] & Hno).
    apply elem_of_cons in Hc as [->|Hc]; [discriminate|].
    apply list_elem_of_singleton in Hc as ->. discriminate.
Defined.

(** ** Image keys that are missing *)

Lemma two_elements {A} (x y : A) (l : list A) :
  x ≠ y → x ∈ l → y ∈ l → (2 ≤ length l)%nat.
Proof.
  intros Hne Hx Hy. destruct l as [|a [|b l]]; cbn; [| |lia].
  - apply not_elem_of_nil in Hx. contradiction.
  - apply list_elem_of_singleton in Hx. apply list_elem_of_singleton in Hy. congruence.
Qed.

(** X9. The duplicates filter and a missing image key: a card without
    [imageURL] is never returned with the duplicates flag, however many
    cards lack it; yet such cards are counted under the key ["undefined"],
    so a card whose [imageURL] is that very text is returned as soon as one
    card without [imageURL] is in the filtered set. *)
Theorem duplicates_of_missing_key (expandAll : list jsstring → list jsstring)
    (cards : list card) :
  (∀ opts out c, showDuplicates opts = true →
     processCards expandAll cards opts = Ok out → c ∈ out → is_Some (imageURL c))
  ∧ (∀ c c', c ∈ cards → c' ∈ cards →
       imageURL c = Some (lit "undefined") → imageURL c' = None →
       c ∈ duplicatesFilter true cards ∧ c' ∉ duplicatesFilter true cards).
Proof.
  split.
  - intros opts out c Hflag H Hc.
    apply processCards_Ok in H as (inc & exc & _ & _ & Hsort).
    rewrite (sortCards_perm _ _ Hsort), Hflag in Hc. unfold duplicatesFilter in Hc.
    apply list_elem_of_filter in Hc as [Hhas _]. unfold hasImage in Hhas.
    destruct (imageURL c); [eauto|contradiction].
  - intros c c' Hc Hc' Hk Hnone. unfold duplicatesFilter. split.
    + apply list_elem_of_filter. split; [|assumption]. unfold hasImage. rewrite Hk.
      apply bool_decide_pack, findDuplicates_elem. unfold keyCount.
      apply (two_elements c c'); [congruence| |].
      * apply list_elem_of_filter. split; [rewrite Hk; reflexivity|assumption].
      * apply list_elem_of_filter. split; [rewrite Hnone; reflexivity|assumption].
    + intros Hin. apply list_elem_of_filter in Hin as [Hhas _].
      unfold hasImage in Hhas. rewrite Hnone in Hhas. contradiction.
Qed.

Lemma duplicates_of_missing_key_witness :
  processCards noAliases [keylessCard; undefinedKeyCard; keylessCard] (query [] [] true)
  = Ok [undefinedKeyCard]
  ∧ is_Some (imageURL undefinedKeyCard)
  ∧ undefinedKeyCard ∈ duplicatesFilter true [keylessCard; undefinedKeyCard; keylessCard]
  ∧ keylessCard ∉ duplicatesFilter true [keylessCard; undefinedKeyCard; keylessCard].
Proof.
  assert (Hout : processCards noAliases [keylessCard; undefinedKeyCard; keylessCard]
                   (query [] [] true) = Ok [undefinedKeyCard])
    by (vm_compute; reflexivity).
  destruct (duplicates_of_missing_key noAliases [keylessCard; undefinedKeyCard; keylessCard])
    as [Hpipe Hstage].
  split; [exact Hout|]. split.
  - apply (Hpipe (query [] [] true) _ undefinedKeyCard eq_refl Hout), list_elem_of_here.
  - apply (Hstage undefinedKeyCard keylessCard); try reflexivity.
    + apply list_elem_of_further, list_elem_of_here.
    + apply list_elem_of_here.
Defined.

(** ** Printing and reading numbers *)









(** ** Reading the page back *)














(** A user name that itself reads as a page line is read instead. *)
Example shownPage_of_misleading_name :
  shownPage (Some (authorLine slashUser (query [] [] false) (Pagination 3 5 12)))
  = Some (Finite 7).
Proof. vm_compute. reflexivity. Qed.

(** ** Pages *)

Lemma slice_chunk {A} (l : list A) (a n : nat) :
  slice l (Z.of_nat a) (Z.of_nat a + Z.of_nat n) = take n (drop a l).
Proof.
  unfold slice, sliceIndex.
  destruct (Z.ltb_spec (Z.of_nat a) 0); [lia|].
  destruct (Z.ltb_spec (Z.of_nat a + Z.of_nat n) 0); [lia|].
  destruct (Nat.le_gt_cases a (length l)) as [Hle|Hgt].
  - replace (Z.to_nat (Z.min (Z.of_nat a) (Z.of_nat (length l)))) with a by lia.
    destruct (Nat.le_gt_cases (a + n) (length l)) as [Hfit|Hcut].
    + replace (Z.to_nat (Z.min (Z.of_nat a + Z.of_nat n) (Z.of_nat (length l))) - a)%nat
        with n by lia.
      reflexivity.
    + replace (Z.to_nat (Z.min (Z.of_nat a + Z.of_nat n) (Z.of_nat (length l))) - a)%nat
        with (length l - a)%nat by lia.
      rewrite !take_ge by (rewrite length_drop; lia). reflexivity.
  - replace (Z.to_nat (Z.min (Z.of_nat a) (Z.of_nat (length l)))) with (length l) by lia.
    rewrite !drop_ge by lia. rewrite !take_nil. reflexivity.
Qed.

Lemma pageCards_chunk (cards : list card) (k : nat) :
  pageCards cards (Z.of_nat (S k)) = take 12 (drop (12 * k) cards).
Proof.
  unfold pageCards, PAGE_SIZE.
  replace ((Z.of_nat (S k) - 1) * 12) with (Z.of_nat (12 * k)) by lia.
  change 12 with (Z.of_nat 12) at 1. apply slice_chunk.
Qed.

Lemma totalPages_covers (cards : list card) (q : Z) :
  Z.of_nat (length cards) ≤ 12 * totalPages (calculatePagination cards q)
  ∧ (cards ≠ [] → 12 * (totalPages (calculatePagination cards q) - 1) < Z.of_nat (length cards)).
Proof.
  unfold calculatePagination, ceilDiv, PAGE_SIZE. cbn [totalPages].
  pose proof (Z.div_mod (Z.of_nat (length cards) + 12 - 1) 12 ltac:(lia)) as Hdiv.
  pose proof (Z.mod_pos_bound (Z.of_nat (length cards) + 12 - 1) 12 ltac:(lia)) as Hmod.
  split; [lia|]. intros Hne. destruct cards; [contradiction|]. cbn [length] in *. lia.
Qed.

Lemma calculatePagination_bounds (cards : list card) (q : Z) :
  1 ≤ totalPages (calculatePagination cards q)
  ∧ 1 ≤ currentPage (calculatePagination cards q) ≤ totalPages (calculatePagination cards q).
Proof. unfold calculatePagination. cbn [currentPage totalPages]. lia. Qed.

(** X10. The page [calculatePagination] settles on is stable and shows
    something: computing the pagination again for its own current page gives
    the same pagination, the cards of that page are at most twelve, and they
    are at least one unless there is no card at all. *)
Theorem calculatePagination_page (cards : list card) (q : Z) :
  let p := calculatePagination cards q in
  calculatePagination cards (currentPage p) = p
  ∧ (length (pageCards cards (currentPage p)) ≤ 12)%nat
  ∧ (cards ≠ [] → pageCards cards (currentPage p) ≠ []).
Proof.
  intros p.
  destruct (calculatePagination_bounds cards q) as (Htot & Hcur).
  fold p in Htot, Hcur.
  destruct (totalPages_covers cards q) as [_ Hlast]. fold p in Hlast.
  assert (Hk : currentPage p = Z.of_nat (S (Z.to_nat (currentPage p - 1)))) by lia.
  split; [|split].
  - unfold calculatePagination, orOne. fold (calculatePagination cards q). fold p.
    unfold p at 3. unfold calculatePagination. f_equal.
    change (Z.max 1 (ceilDiv (Z.of_nat (length cards)) PAGE_SIZE)) with (totalPages p).
    destruct (Z.eqb_spec (currentPage p) 0); [lia|].
    change (Z.max 1 (Z.min (orOne q) (totalPages p))) with (currentPage p). lia.
  - rewrite Hk, pageCards_chunk, length_take. lia.
  - intros Hne Hempty. specialize (Hlast Hne).
    rewrite Hk, pageCards_chunk in Hempty.
    assert (Hlen : length (take 12 (drop (12 * Z.to_nat (currentPage p - 1)) cards)) = 0%nat)
      by (rewrite Hempty; reflexivity).
    rewrite length_take, length_drop in Hlen. lia.
Qed.

Lemma calculatePagination_page_witness :
  [abcCard] ≠ [] ∧ pageCards [abcCard] (currentPage (calculatePagination [abcCard] 9)) ≠ [].
Proof.
  assert (Hne : [abcCard] ≠ []) by discriminate.
  split; [exact Hne|].
  destruct (calculatePagination_page [abcCard] 9) as (_ & _ & H). exact (H Hne).
Defined.

(** X11. The pages partition the result: laid end to end, the cards of the
    pages 1 to [totalPages] are the card list itself, each card on exactly
    one page and in the list's order. *)
Theorem pages_cover (cards : list card) (q : Z) :
  concat ((fun k => pageCards cards (Z.of_nat k))
            <$> seq 1 (Z.to_nat (totalPages (calculatePagination cards q))))
  = cards.
Proof.
  destruct (totalPages_covers cards q) as [Hcover _].
  assert (Hpre : ∀ m, concat ((fun k => pageCards cards (Z.of_nat k)) <$> seq 1 m)
                      = take (12 * m) cards).
  { induction m as [|m IH]; [reflexivity|].
    rewrite seq_S, fmap_app, concat_app, IH. cbn [fmap list_fmap concat].
    rewrite app_nil_r. change (1 + m)%nat with (S m). rewrite pageCards_chunk.
    rewrite take_take_drop. f_equal. lia. }
  rewrite Hpre. apply take_ge. lia.
Qed.

(** ** Buttons *)

Lemma ceilDiv_nonneg (n : nat) : 0 ≤ ceilDiv (Z.of_nat n) PAGE_SIZE.
Proof. unfold ceilDiv, PAGE_SIZE. apply Z.div_pos; lia. Qed.

Lemma calculatePagination_eq (cards : list card) (x q : Z) :
  calculatePagination cards x = calculatePagination cards q ↔
  currentPage (calculatePagination cards x) = currentPage (calculatePagination cards q).
Proof.
  split; [intros ->; reflexivity|]. unfold calculatePagination. cbn [currentPage].
  intros ->. reflexivity.
Qed.

(** X13. A navigation button is disabled exactly when pressing it would
    change nothing: on a message that shows the current page, the press of
    [first], [prev], [next] or [last] leads [calculateNewPage] and
    [calculatePagination] back to the same page if and only if
    [createComponents] rendered that button disabled. *)
Theorem disabled_buttons_keep_page (BUTTON_EMOJI : jsstring → jsfield)
    (cards : list card) (q : Z) (b : button) (i : interaction) :
  b ∈ createComponents BUTTON_EMOJI (calculatePagination cards q) →
  custom_id b ≠ lit "code_catalog" →
  i_custom_id i = custom_id b →
  i_shownPage i = Some (currentPage (calculatePagination cards q)) →
  disabled b = true ↔
  calculatePagination cards (calculateNewPage i (length cards)) = calculatePagination cards q.
Proof.
  intros Hb Hnav Hid Hshown. rewrite calculatePagination_eq.
  destruct (calculatePagination_bounds cards q) as (Htot & Hcur).
  pose proof (ceilDiv_nonneg (length cards)) as Hceil.
  unfold calculateNewPage. rewrite Hid, Hshown. cbn [default from_option id].
  unfold calculatePagination in *. cbn [currentPage totalPages] in *.
  set (pages := ceilDiv (Z.of_nat (length cards)) PAGE_SIZE) in *.
  set (cur := Z.max 1 (Z.min (orOne q) (Z.max 1 pages))) in *.
  unfold createComponents in Hb. cbn [currentPage totalPages] in Hb.
  repeat (apply elem_of_cons in Hb as [->|Hb]); cbn [custom_id disabled] in *.
  - rewrite decide_True by reflexivity. rewrite bool_decide_eq_true.
    unfold orOne. cbn. lia.
  - rewrite decide_False by discriminate. rewrite decide_True by reflexivity.
    rewrite bool_decide_eq_true. unfold orOne.
    destruct (Z.eqb_spec (Z.max 1 (cur - 1)) 0); lia.
  - do 2 rewrite decide_False by discriminate. rewrite decide_True by reflexivity.
    rewrite bool_decide_eq_true. unfold orOne.
    destruct (Z.eqb_spec (Z.min pages (cur + 1)) 0); lia.
  - do 3 rewrite decide_False by discriminate. rewrite decide_True by reflexivity.
    rewrite bool_decide_eq_true. unfold orOne.
    destruct (Z.eqb_spec pages 0); lia.
  - contradiction.
  - apply not_elem_of_nil in Hb. contradiction.
Qed.

Lemma disabled_buttons_keep_page_witness :
  Button (lit "next") None false
    ∈ createComponents noEmojis (calculatePagination (replicate 25 abcCard) 1)
  ∧ (disabled (Button (lit "next") None false) = true ↔
     calculatePagination (replicate 25 abcCard)
       (calculateNewPage (Interaction (lit "m") (Some (lit "u")) (lit "next") (Some 1)) 25)
     = calculatePagination (replicate 25 abcCard) 1).
Proof.
  assert (Hin : Button (lit "next") None false
                ∈ createComponents noEmojis (calculatePagination (replicate 25 abcCard) 1)).
  { do 2 apply list_elem_of_further. apply list_elem_of_here. }
  split; [exact Hin|].
  apply (disabled_buttons_keep_page noEmojis (replicate 25 abcCard) 1 _
           (Interaction (lit "m") (Some (lit "u")) (lit "next") (Some 1)) Hin);
    [discriminate|reflexivity|reflexivity].
Defined.

(** ** Grouping of a page *)

Lemma groupPush_keys (key : jsstring) (c : card) (grouped : groups) :
  (key ∈ grouped.*1 → (groupPush key c grouped).*1 = grouped.*1)
  ∧ ((key ∉ grouped.*1) → groupPush key c grouped = grouped ++ [(key, [c])]).
Proof.
  induction grouped as [|[k cs] rest [IHin IHout]]; cbn [groupPush fmap list_fmap fst].
  - split; [intros H; apply not_elem_of_nil in H; contradiction|reflexivity].
  - destruct (decide (k = key)) as [->|Hne]; cbn [fmap list_fmap fst].
    + split; [reflexivity|]. intros Hout. exfalso. apply Hout, list_elem_of_here.
    + split.
      * intros Hin. apply elem_of_cons in Hin as [->|Hin]; [contradiction|].
        f_equal. apply IHin, Hin.
      * intros Hout. cbn [app]. f_equal. apply IHout. intros Hin.
        apply Hout, list_elem_of_further, Hin.
Qed.

Lemma groupPush_elem (key : jsstring) (c : card) (grouped : groups) (k : jsstring)
    (cs : list card) :
  NoDup grouped.*1 →
  (k, cs) ∈ groupPush key c grouped →
  (k ≠ key ∧ (k, cs) ∈ grouped)
  ∨ (k = key ∧ ∃ old, cs = old ++ [c] ∧ ((key, old) ∈ grouped ∨ (old = [] ∧ (key ∉ grouped.*1)))).
Proof.
  induction grouped as [|[k0 cs0] rest IH]; cbn [groupPush fmap list_fmap fst]; intros Hnd Hin.
  - apply list_elem_of_singleton in Hin. injection Hin as -> ->. right. split; [reflexivity|].
    exists []. split; [reflexivity|]. right. split; [reflexivity|apply not_elem_of_nil].
  - apply NoDup_cons in Hnd as [Hk0 Hnd].
    destruct (decide (k0 = key)) as [->|Hne].
    + apply elem_of_cons in Hin as [Hin|Hin].
      * injection Hin as -> ->. right. split; [reflexivity|].
        exists cs0. split; [reflexivity|]. left. apply list_elem_of_here.
      * left. split; [|apply list_elem_of_further, Hin].
        intros ->. apply Hk0. apply list_elem_of_fmap. exists (key, cs). split; [reflexivity|exact Hin].
    + apply elem_of_cons in Hin as [Hin|Hin].
      * injection Hin as -> ->. left. split; [assumption|apply list_elem_of_here].
      * destruct (IH Hnd Hin) as [[Hk Hold]|[-> (old & -> & Hold)]].
        -- left. split; [assumption|apply list_elem_of_further, Hold].
        -- right. split; [reflexivity|]. exists old. split; [reflexivity|].
           destruct Hold as [Hold|[-> Hout]].
           ++ left. apply list_elem_of_further, Hold.
           ++ right. split; [reflexivity|]. intros H.
              apply elem_of_cons in H as [H|H]; [congruence|contradiction].
Qed.

Lemma groupPush_groupedFrom (seen : list card) (grouped : groups) (c : card) (key : jsstring) :
  filedUnder key c → groupedFrom seen grouped →
  groupedFrom (seen ++ [c]) (groupPush key c grouped).
Proof.
  intros Hc (Hnd & Hseen & Hgroups).
  destruct (groupPush_keys key c grouped) as [Hin Hout].
  assert (Hkeys : ∀ k, k ∈ grouped.*1 ∨ k = key ↔ k ∈ (groupPush key c grouped).*1).
  { intros k. destruct (decide (key ∈ grouped.*1)) as [Hk|Hk].
    - rewrite (Hin Hk). split; [intros [H| ->]; assumption|intros H; left; exact H].
    - rewrite (Hout Hk), fmap_app, elem_of_app. cbn. rewrite list_elem_of_singleton.
      reflexivity. }
  split; [|split].
  - destruct (decide (key ∈ grouped.*1)) as [Hk|Hk].
    + rewrite (Hin Hk). exact Hnd.
    + rewrite (Hout Hk), fmap_app. apply NoDup_app. split; [exact Hnd|]. split.
      * intros k Hk1 Hk2. cbn in Hk2. apply list_elem_of_singleton in Hk2 as ->. contradiction.
      * cbn. apply NoDup_singleton.
  - intros c' Hc'. apply elem_of_app in Hc' as [Hc'|Hc'].
    + destruct (Hseen c' Hc') as (k & Hk & Hkin). exists k. split; [exact Hk|].
      apply Hkeys. left. exact Hkin.
    + apply list_elem_of_singleton in Hc' as ->. exists key. split; [exact Hc|].
      apply Hkeys. right. reflexivity.
  - intros k cs Hkcs. rewrite filter_app.
    destruct (groupPush_elem key c grouped k cs Hnd Hkcs)
      as [[Hne Hold]|[-> (old & -> & Hold)]].
    + destruct (Hgroups k cs Hold) as [Hcs ->]. split; [exact Hcs|].
      rewrite filter_cons_False, filter_nil, app_nil_r; [reflexivity|].
      unfold filedUnder in *. congruence.
    + split; [intros H; apply app_eq_nil in H as [_ H]; discriminate|].
      rewrite filter_cons_True, filter_nil by exact Hc. f_equal.
      destruct Hold as [Hold|[-> Hnew]]; [apply (Hgroups key old Hold)|].
      symmetry. apply filter_none. intros c' Hc' Hfiled.
      destruct (Hseen c' Hc') as (k & Hk & Hkin). unfold filedUnder in *.
      apply Hnew. congruence.
Qed.

Lemma groupByRarity_groupedFrom (cards seen : list card) (grouped g : groups) :
  groupedFrom seen grouped → groupByRarity cards grouped = Ok g →
  groupedFrom (seen ++ cards) g.
Proof.
  revert seen grouped. induction cards as [|c cards IH]; intros seen grouped Hinv;
    cbn [groupByRarity].
  - intros [= <-]. rewrite app_nil_r. exact Hinv.
  - destruct (rarity c) as [r|] eqn:Hr; cbn; [|discriminate].
    destruct (inheritedKey (toLowerCase r)); [discriminate|]. intros Hg.
    replace (seen ++ c :: cards) with ((seen ++ [c]) ++ cards)
      by (rewrite <- app_assoc; reflexivity).
    apply (IH _ (groupPush (toLowerCase r) c grouped)); [|exact Hg].
    apply groupPush_groupedFrom; [|exact Hinv]. unfold filedUnder. rewrite Hr. reflexivity.
Qed.

Lemma objectEntries_perm (grouped : groups) : objectEntries grouped ≡ₚ grouped.
Proof.
  unfold objectEntries.
  assert (Hperm : ∀ l : list (N * (jsstring * list card)), foldr insertIndexed [] l ≡ₚ l).
  { induction l as [|x l IH]; cbn [foldr]; [reflexivity|].
    rewrite insertIndexed_perm, IH. reflexivity. }
  rewrite Hperm. induction grouped as [|e rest IH]; [reflexivity|].
  cbn [omap list_omap]. rewrite filter_cons.
  destruct (arrayIndex e.1) as [i|] eqn:Hi; cbn [fmap option_fmap option_map].
  - rewrite decide_False by discriminate. cbn [fmap list_fmap snd app].
    apply Permutation_skip, IH.
  - rewrite decide_True by reflexivity. rewrite <- Permutation_middle.
    apply Permutation_skip, IH.
Qed.

(** X14. The grouping of [buildCardDescription]: when the [forEach] over
    the page's cards ends without exception, [Object.entries(grouped)] has
    one entry per rarity key, no key twice; the cards of an entry are
    exactly the page's cards of that rarity (compared in lower case), in
    the order of the page, and never none; and every card of the page is
    under the entry of its own rarity.  So each card is printed once, and
    the count in a header is the number of the page's cards of that
    rarity. *)
Theorem buildCardDescription_groups (cards : list card) (grouped : groups) :
  groupByRarity cards [] = Ok grouped →
  NoDup (objectEntries grouped).*1
  ∧ (∀ k cs, (k, cs) ∈ objectEntries grouped →
       cs ≠ [] ∧ cs = filter (filedUnder k) cards)
  ∧ (∀ c, c ∈ cards →
       ∃ k cs, filedUnder k c ∧ (k, cs) ∈ objectEntries grouped ∧ c ∈ cs)
  ∧ length (concat (objectEntries grouped).*2) = length cards.
Proof.
  intros Hg.
  assert (Hinv : groupedFrom cards grouped).
  { apply (groupByRarity_groupedFrom cards [] [] grouped); [|exact Hg].
    split; [apply NoDup_nil_2|]. split.
    - intros c Hc. apply not_elem_of_nil in Hc. contradiction.
    - intros k cs Hin. apply not_elem_of_nil in Hin. contradiction. }
  pose proof (objectEntries_perm grouped) as Hperm.
  destruct Hinv as (Hnd & Hseen & Hgroups).
  split; [rewrite Hperm; exact Hnd|]. split; [|split].
  - intros k cs Hin. rewrite Hperm in Hin. apply Hgroups, Hin.
  - intros c Hc. destruct (Hseen c Hc) as (k & Hk & Hkin).
    apply list_elem_of_fmap in Hkin as ([k' cs] & -> & Hin).
    exists k', cs. split; [exact Hk|]. split; [rewrite Hperm; exact Hin|].
    destruct (Hgroups _ _ Hin) as [_ ->]. apply list_elem_of_filter. split; assumption.
  - rewrite Hperm. clear Hperm Hg.
    revert cards Hseen Hgroups. induction grouped as [|[k cs] rest IH]; intros cards Hseen Hgroups.
    + destruct cards as [|c cards]; [reflexivity|].
      destruct (Hseen c (list_elem_of_here _ _)) as (k & _ & Hk).
      apply not_elem_of_nil in Hk. contradiction.
    + cbn [fmap list_fmap snd concat]. rewrite length_app.
      rewrite fmap_cons in Hnd. cbn [fst] in Hnd. apply NoDup_cons in Hnd as [Hk Hnd].
      destruct (Hgroups k cs (list_elem_of_here _ _)) as [_ Hcs].
      rewrite (IH Hnd (filter (fun c => ¬ filedUnder k c) cards)).
      * rewrite Hcs. clear. induction cards as [|c cards IHc]; [reflexivity|].
        rewrite !filter_cons. destruct (decide (filedUnder k c)).
        -- rewrite decide_False by tauto. cbn [length]. lia.
        -- rewrite decide_True by assumption. cbn [length]. lia.
      * intros c Hc. apply list_elem_of_filter in Hc as [Hnk Hc].
        destruct (Hseen c Hc) as (k' & Hk' & Hin). exists k'. split; [exact Hk'|].
        cbn [fmap list_fmap fst] in Hin. apply elem_of_cons in Hin as [->|Hin];
          [contradiction|exact Hin].
      * intros k' cs' Hin.
        assert (Hin' : (k', cs') ∈ (k, cs) :: rest) by (apply list_elem_of_further, Hin).
        destruct (Hgroups k' cs' Hin') as [Hne Heq]. clear Hin'.
        split; [exact Hne|]. rewrite Heq. clear - Hk Hin.
        assert (Hkk : k' ≠ k).
        { intros ->. apply Hk. apply list_elem_of_fmap. exists (k, cs'). split; [reflexivity|exact Hin]. }
        induction cards as [|c cards IHc]; [reflexivity|].
        rewrite !filter_cons. destruct (decide (filedUnder k' c)) as [Hf|Hf].
        -- rewrite decide_True by (unfold filedUnder in *; congruence).
           rewrite filter_cons, decide_True by exact Hf. f_equal. exact IHc.
        -- destruct (decide (¬ filedUnder k c)); [|exact IHc].
           rewrite filter_cons, decide_False by exact Hf. exact IHc.
Qed.

Lemma buildCardDescription_groups_witness :
  ∃ grouped, groupByRarity threeRarities [] = Ok grouped
  ∧ NoDup (objectEntries grouped).*1
  ∧ length (concat (objectEntries grouped).*2) = length threeRarities.
Proof.
  exists [(lit "mythic", [abcCard; abcxyzCard]); (lit "standard", [plainCard; plainCard]);
          (lit "legendary", [legendaryCard])].
  assert (Hg : groupByRarity threeRarities []
               = Ok [(lit "mythic", [abcCard; abcxyzCard]);
                     (lit "standard", [plainCard; plainCard]);
                     (lit "legendary", [legendaryCard])]) by (vm_compute; reflexivity).
  split; [exact Hg|].
  destruct (buildCardDescription_groups threeRarities _ Hg) as (Hnd & _ & _ & Hlen).
  split; assumption.
Defined.

(** ** The code catalogue *)

Lemma joinCodes_empty (codes : list jsfield) :
  joinCodes codes = [] ↔ codes = [] ∨ ∃ c, codes = [c] ∧ truthy c = false.
Proof.
  destruct codes as [|c [|c' rest]]; cbn [joinCodes].
  - split; [left; reflexivity|reflexivity].
  - split.
    + intros Hc. right. exists c. split; [reflexivity|].
      destruct c as [[|]|]; [reflexivity|discriminate|reflexivity].
    + intros [H|(c0 & [= <-] & Hc)]; [discriminate|].
      destruct c as [[|]|]; [reflexivity|discriminate|reflexivity].
  - split.
    + intros H. apply app_eq_nil in H as [_ H]. discriminate.
    + intros [H|(c0 & H & _)]; discriminate.
Qed.

(** X15. When the code catalogue says [No codes].  Pressed on a message
    that shows the current page, [sendCodeCatalog] lists the codes of the
    cards of that page; the joined text is empty, and [No codes] is printed
    in its place, exactly when there is no card at all or the page holds a
    single card whose code is missing or empty. *)
Theorem codeCatalog_no_codes (cards : list card) (q : Z) (i : interaction) :
  i_shownPage i = Some (currentPage (calculatePagination cards q)) →
  (catalogCodes i cards).2
    = cardCode <$> pageCards cards (currentPage (calculatePagination cards q))
  ∧ (joinCodes (catalogCodes i cards).2 = [] ↔
     cards = [] ∨ ∃ c, pageCards cards (currentPage (calculatePagination cards q)) = [c]
                       ∧ truthy (cardCode c) = false).
Proof.
  intros Hshown.
  assert (Hcodes : (catalogCodes i cards).2
            = cardCode <$> pageCards cards (currentPage (calculatePagination cards q))).
  { unfold catalogCodes, pageCards. rewrite Hshown. reflexivity. }
  split; [exact Hcodes|]. rewrite Hcodes, joinCodes_empty.
  set (p := calculatePagination cards q).
  assert (Hpage : cards = [] ↔ pageCards cards (currentPage p) = []).
  { split.
    - intros ->. unfold pageCards, slice. rewrite drop_nil, take_nil. reflexivity.
    - intros Hempty. destruct (decide (cards = [])) as [|Hne]; [assumption|exfalso].
      destruct (calculatePagination_bounds cards q) as (Htot & Hcur). fold p in Htot, Hcur.
      destruct (totalPages_covers cards q) as [_ Hlast]. fold p in Hlast.
      specialize (Hlast Hne).
      assert (Hk : currentPage p = Z.of_nat (S (Z.to_nat (currentPage p - 1)))) by lia.
      rewrite Hk, pageCards_chunk in Hempty.
      assert (Hlen : length (take 12 (drop (12 * Z.to_nat (currentPage p - 1)) cards)) = 0%nat)
        by (rewrite Hempty; reflexivity).
      rewrite length_take, length_drop in Hlen. lia. }
  split.
  - intros [Hnil|(c & Hone & Hc)].
    + left. apply Hpage. apply fmap_nil_inv in Hnil. exact Hnil.
    + right. destruct (pageCards cards (currentPage p)) as [|c0 [|c1 rest]];
        [discriminate| |discriminate].
      injection Hone as <-. exists c0. split; [reflexivity|exact Hc].
  - intros [Hnil|(c & Hone & Hc)].
    + left. apply Hpage in Hnil. rewrite Hnil. reflexivity.
    + right. exists (cardCode c). rewrite Hone. split; [reflexivity|exact Hc].
Qed.

Lemma codeCatalog_no_codes_witness :
  joinCodes (catalogCodes (Interaction (lit "m") (Some (lit "u")) (lit "code_catalog") (Some 2))
                          (replicate 12 abcCard ++ [unlistedCard])).2 = [].
Proof.
  apply (codeCatalog_no_codes (replicate 12 abcCard ++ [unlistedCard]) 2
           (Interaction (lit "m") (Some (lit "u")) (lit "code_catalog") (Some 2)));
    [reflexivity|].
  right. exists unlistedCard. split; reflexivity.
Defined.

(** ** Rendering *)

Lemma slice_sublist {A} (l : list A) (b e : Z) : slice l b e `sublist_of` l.
Proof.
  unfold slice. etransitivity; [apply sublist_take|apply sublist_drop].
Qed.

Lemma pristineCount_total (cards : list card) :
  Forall (fun c => isValidCard c = true) cards → ∃ n, pristineCount cards = Ok n.
Proof.
  intros Hvalid. unfold pristineCount.
  rewrite (filterM_total _ (fun c => bool_decide
             (toLowerCase (default [] (condition c)) = lit "pristine"))).
  - cbn [mbind result_bind]. eauto.
  - intros c Hc. rewrite Forall_forall in Hvalid.
    destruct (valid_fields c (Hvalid c Hc)) as (_ & _ & _ & [k ->]). reflexivity.
Qed.

Lemma groupByRarity_Ok (cards : list card) (grouped g : groups) :
  groupByRarity cards grouped = Ok g →
  Forall (fun c => is_Some (rarity c) ∧ inheritedRarity c = false) cards.
Proof.
  revert grouped. induction cards as [|c cards IH]; intros grouped; [constructor|].
  cbn [groupByRarity].
  destruct (rarity c) as [r|] eqn:Hr; cbn [receiver mbind result_bind]; [|discriminate].
  destruct (inheritedKey (toLowerCase r)) eqn:Hkey; [discriminate|].
  intros Hg. constructor; [|apply (IH _ Hg)].
  unfold inheritedRarity. rewrite Hr. split; [eauto|exact Hkey].
Qed.

(** X16. What makes rendering fail.  On cards that passed [isValidCard]
    (as all cards of a result have), [buildEmbed] and with it the payload
    of [sendCabinetEmbed] and [updateMessage] throws a [TypeError] exactly
    when a card of the page shown has a rarity that, in lower case, spells
    [constructor] or [__proto__]: the lookup [grouped[rarityKey]] then finds
    an inherited value that has no [push].  Such a card on another page
    does no harm; without one the payload carries the author line of the
    page and the five buttons. *)
Theorem renderMessage_throws_on_inherited_rarity
    (RARITY_EMOJIS CONDITION_EMOJIS BUTTON_EMOJI : jsstring → jsfield) (EMBED_DEFAULT : Z)
    (cards : list card) (p : pagination) (targetUser : user) (opts : options) :
  Forall (fun c => isValidCard c = true) cards →
  (renderMessage RARITY_EMOJIS CONDITION_EMOJIS BUTTON_EMOJI EMBED_DEFAULT
                 cards p targetUser opts = Throw TypeError
   ↔ ∃ c, c ∈ pageCards cards (currentPage p) ∧ inheritedRarity c = true)
  ∧ ∀ e bs, renderMessage RARITY_EMOJIS CONDITION_EMOJIS BUTTON_EMOJI EMBED_DEFAULT
                          cards p targetUser opts = Ok (e, bs) →
      author_name e = authorLine targetUser opts p
      ∧ bs = createComponents BUTTON_EMOJI p.
Proof.
  intros Hvalid.
  destruct (pristineCount_total cards Hvalid) as [n Hn].
  assert (Hpage : Forall (fun c => isValidCard c = true) (pageCards cards (currentPage p))).
  { rewrite Forall_forall in *. intros c Hc. apply Hvalid.
    apply (elem_of_sublist _ _ _ Hc). apply slice_sublist. }
  unfold renderMessage, buildEmbed. rewrite Hn. cbn [mbind result_bind].
  set (page := pageCards cards (currentPage p)) in *.
  assert (Htotal : Forall printable page →
            ∃ s, buildCardDescription RARITY_EMOJIS CONDITION_EMOJIS page = Ok s).
  { intros Hall. unfold buildCardDescription. case_bool_decide; [eauto|].
    destruct (descriptionText_total RARITY_EMOJIS CONDITION_EMOJIS page Hall) as [text ->].
    cbn [mbind result_bind]. destruct (4096 <? length text)%nat; eauto. }
  split.
  - destruct (buildCardDescription RARITY_EMOJIS CONDITION_EMOJIS page) as [d|[]] eqn:Hd;
      cbn [mbind result_bind].
    + split; [discriminate|]. intros (c & Hc & Hkey). exfalso.
      unfold buildCardDescription in Hd. case_bool_decide as Hnil.
      * rewrite Hnil in Hc. apply not_elem_of_nil in Hc. contradiction.
      * apply bind_Ok in Hd as (text & Htext & _). unfold descriptionText in Htext.
        apply bind_Ok in Htext as (g & Hg & _). apply groupByRarity_Ok in Hg.
        rewrite Forall_forall in Hg. destruct (Hg c Hc) as [_ Hfree]. congruence.
    + split; [|reflexivity]. intros _.
      destruct (decide (Exists (fun c => inheritedRarity c = true) page)) as [Hex|Hnone].
      * apply Exists_exists in Hex. exact Hex.
      * exfalso. destruct Htotal as [s Hs]; [|congruence].
        rewrite Forall_forall in *. intros c Hc.
        destruct (valid_fields c (Hpage c Hc)) as (_ & _ & Hr & Hk).
        split; [exact Hr|]. split; [exact Hk|].
        destruct (inheritedKey (toLowerCase (default [] (rarity c)))) eqn:Hkey; [|reflexivity].
        exfalso. apply Hnone, Exists_exists. exists c. split; [exact Hc|exact Hkey].
  - intros e bs H. apply bind_Ok in H as (e' & He & [= <- <-]).
    apply bind_Ok in He as (d & Hd & [= <-]). cbn [author_name].
    split; reflexivity.
Qed.

Lemma renderMessage_throws_on_inherited_rarity_witness :
  renderMessage noEmojis noEmojis noEmojis 0 [abcCard; constructorCard]
                (calculatePagination [abcCard; constructorCard] 1) sampleUser
                (query [] [] false) = Throw TypeError.
Proof.
  assert (Hvalid : Forall (fun c => isValidCard c = true) [abcCard; constructorCard])
    by (repeat constructor).
  apply (renderMessage_throws_on_inherited_rarity noEmojis noEmojis noEmojis 0
           [abcCard; constructorCard] (calculatePagination [abcCard; constructorCard] 1)
           sampleUser (query [] [] false) Hvalid).
  exists constructorCard. split; [|reflexivity].
  apply list_elem_of_further, list_elem_of_here.
Defined.

(** ** Who answers a follow-up event *)

Section Answers.
Context `{constants : embedConstants}.

Lemma runHandler_elsewhere (h : handler) (i : interaction) :
  h_message h ≠ i_message i → runHandler h i = Reaction [] [] None.
Proof.
  intros Hne. unfold runHandler.
  rewrite (bool_decide_eq_false_2 (i_message i = h_message h)) by congruence. reflexivity.
Qed.

Lemma runHandler_stranger (h : handler) (i : interaction) :
  i_member i ≠ Some (h_author h) → runHandler h i = Reaction [] [] None.
Proof.
  intros Hne. unfold runHandler.
  rewrite (bool_decide_eq_false_2 (i_member i = Some (h_author h))) by assumption.
  rewrite orb_true_r. reflexivity.
Qed.

(** What the handler does with an event of its message and of its author:
    one request, and a wait unless building the page failed. *)
Lemma runHandler_owner (h : handler) (i : interaction) :
  i_message i = h_message h → i_member i = Some (h_author h) →
  runHandler h i
  = if decide (i_custom_id i = lit "code_catalog") then
      Reaction [Defer i] [] (Some (AwaitDefer i (h_cards h)))
    else
      match renderMessage RARITY_EMOJIS CONDITION_EMOJIS BUTTON_EMOJI EMBED_DEFAULT
                          (h_cards h) (turnPage (h_cards h) i) (h_targetUser h)
                          (h_options h) with
      | Ok _ => Reaction [EditParent i (turnPage (h_cards h) i)] [] (Some (AwaitRequest i))
      | Throw _ => Reaction [] [ErrorNotice i] None
      end.
Proof.
  intros Hm Ha. unfold runHandler.
  rewrite (bool_decide_eq_true_2 _ Hm), (bool_decide_eq_true_2 _ Ha). reflexivity.
Qed.

Lemma runHandler_responses (t : Z) (h : handler) (i : interaction) :
  responses ((fun a => (t, a)) <$> sent (runHandler h i))
  = (fun a => (t, a)) <$> sent (runHandler h i)
  ∧ responses ((fun a => (t, a)) <$> caught (runHandler h i))
    = (fun a => (t, a)) <$> caught (runHandler h i).
Proof.
  unfold runHandler. destruct (_ || _); [split; reflexivity|].
  destruct (decide _); [split; reflexivity|].
  destruct (renderMessage _ _ _ _ _ _ _ _); split; reflexivity.
Qed.

Lemma responses_of_listeners (t : Z) (i : interaction) (ls : list handler) :
  responses (flat_map (fun h => (t, Invoked (h_id h) i)
                                :: ((fun a => (t, a)) <$> sent (runHandler h i))) ls)
  = flat_map (fun h => (fun a => (t, a)) <$> sent (runHandler h i))
             (filter (fun h => h_message h = i_message i) ls)
  ∧ responses (flat_map (fun h => (fun a => (t, a)) <$> caught (runHandler h i)) ls)
    = flat_map (fun h => (fun a => (t, a)) <$> caught (runHandler h i))
               (filter (fun h => h_message h = i_message i) ls).
Proof.
  induction ls as [|h ls [IHsent IHcaught]]; [split; reflexivity|].
  destruct (runHandler_responses t h i) as [Hsent Hcaught].
  cbn [flat_map app]. unfold responses in *.
  rewrite filter_cons_False by (cbn; intros []). rewrite !filter_app, IHsent, IHcaught.
  rewrite Hsent, Hcaught, filter_cons.
  destruct (decide (h_message h = i_message i)) as [Hm|Hm]; [split; reflexivity|].
  rewrite (runHandler_elsewhere h i Hm). split; reflexivity.
Qed.

Lemma waiting_of_listeners (i : interaction) (ls : list handler) :
  omap (fun h => waits (runHandler h i)) ls
  = omap (fun h => waits (runHandler h i)) (filter (fun h => h_message h = i_message i) ls).
Proof.
  induction ls as [|h ls IH]; [reflexivity|].
  rewrite filter_cons. destruct (decide (h_message h = i_message i)) as [Hm|Hm];
    cbn [omap list_omap]; rewrite IH; [reflexivity|].
  rewrite (runHandler_elsewhere h i Hm). reflexivity.
Qed.

(** X17. Who answers a follow-up event.  In every state the process can
    reach, an event is passed to all listeners, but what is done about it
    at once is what the one handler registered for the event's message
    does (up to its first [await], and in its [catch] when the page cannot
    be built), and nothing when the message has no session.  An event of a
    member other than the session's owner gets no answer and leaves no call
    waiting; an event of the owner gets exactly one answer at once: the
    deferral for the catalogue, the edited message for a button, or the
    error notice when the page cannot be built. *)
Theorem follow_up_answered_by_its_session (evs : list (Z * event)) (i : interaction) :
  let w := run evs initial in
  ∃ new, log (emit i w) = log w ++ new
    ∧ length new = (length (listeners w) + length (responses new))%nat
    ∧ responses new
      = match activeCollectors w !! i_message i with
        | Some e => (fun a => (now w, a))
                      <$> (sent (runHandler (c_handler e) i)
                           ++ caught (runHandler (c_handler e) i))
        | None => []
        end
    ∧ pending (emit i w)
      = pending w ++ match activeCollectors w !! i_message i with
                     | Some e => option_list (waits (runHandler (c_handler e) i))
                     | None => []
                     end
    ∧ ∀ e, activeCollectors w !! i_message i = Some e →
        (i_member i ≠ Some (h_author (c_handler e)) →
         responses new = [] ∧ pending (emit i w) = pending w)
        ∧ (i_member i = Some (h_author (c_handler e)) →
           responses new
           = [(now w,
               if decide (i_custom_id i = lit "code_catalog") then Defer i
               else match renderMessage RARITY_EMOJIS CONDITION_EMOJIS BUTTON_EMOJI
                                        EMBED_DEFAULT (h_cards (c_handler e))
                                        (turnPage (h_cards (c_handler e)) i)
                                        (h_targetUser (c_handler e))
                                        (h_options (c_handler e)) with
                    | Ok _ => EditParent i (turnPage (h_cards (c_handler e)) i)
                    | Throw _ => ErrorNotice i
                    end)]).
Proof.
  intros w.
  assert (Hc : consistent w) by apply run_consistent, consistent_initial.
  eexists. split; [reflexivity|].
  destruct (responses_of_listeners (now w) i (listeners w)) as [Hsent Hcaught].
  rewrite (session_listener w (i_message i) Hc) in Hsent, Hcaught.
  assert (Hresp : responses
        (flat_map (fun h => (now w, Invoked (h_id h) i)
                            :: ((fun a => (now w, a)) <$> sent (runHandler h i)))
                  (listeners w)
         ++ flat_map (fun h => (fun a => (now w, a)) <$> caught (runHandler h i))
                     (listeners w))
      = match activeCollectors w !! i_message i with
        | Some e => (fun a => (now w, a))
                      <$> (sent (runHandler (c_handler e) i)
                           ++ caught (runHandler (c_handler e) i))
        | None => []
        end).
  { unfold responses in *. rewrite filter_app, Hsent, Hcaught.
    destruct (activeCollectors w !! i_message i); [|reflexivity].
    cbn [flat_map]. rewrite !app_nil_r, fmap_app. reflexivity. }
  assert (Hwait : pending (emit i w)
      = pending w ++ match activeCollectors w !! i_message i with
                     | Some e => option_list (waits (runHandler (c_handler e) i))
                     | None => []
                     end).
  { unfold emit. cbn [pending]. f_equal.
    rewrite waiting_of_listeners, (session_listener w (i_message i) Hc).
    destruct (activeCollectors w !! i_message i) as [e|]; [|reflexivity].
    cbn [omap list_omap]. destruct (waits (runHandler (c_handler e) i)); reflexivity. }
  split; [|split; [exact Hresp|split; [exact Hwait|]]].
  - clear Hresp Hwait Hsent Hcaught. unfold responses. rewrite filter_app, !length_app.
    assert (Hcalls : ∀ ls, length (flat_map (fun h => (now w, Invoked (h_id h) i)
                               :: ((fun a => (now w, a)) <$> sent (runHandler h i))) ls)
                     = (length ls + length (filter (fun x : Z * action => isResponse x.2)
                          (flat_map (fun h => (now w, Invoked (h_id h) i)
                               :: ((fun a => (now w, a)) <$> sent (runHandler h i))) ls)))%nat).
    { induction ls as [|h ls IH]; [reflexivity|].
      destruct (runHandler_responses (now w) h i) as [Hs _]. unfold responses in Hs.
      cbn [flat_map app]. rewrite filter_cons_False by (cbn; intros []).
      rewrite filter_app, Hs. cbn [length]. rewrite !length_app. lia. }
    assert (Hnotices : ∀ ls, filter (fun x : Z * action => isResponse x.2)
                 (flat_map (fun h => (fun a => (now w, a)) <$> caught (runHandler h i)) ls)
               = flat_map (fun h => (fun a => (now w, a)) <$> caught (runHandler h i)) ls).
    { induction ls as [|h ls IH]; [reflexivity|].
      destruct (runHandler_responses (now w) h i) as [_ Hn]. unfold responses in Hn.
      cbn [flat_map]. rewrite filter_app, Hn, IH. reflexivity. }
    rewrite Hnotices, (Hcalls (listeners w)) at 1. lia.
  - intros e He. destruct (collector_registered w Hc _ e He) as (Hm & _).
    rewrite Hresp, Hwait, He. split.
    + intros Hmember. rewrite (runHandler_stranger _ _ Hmember). cbn.
      split; [reflexivity|apply app_nil_r].
    + intros Hmember. rewrite (runHandler_owner _ _ (eq_sym Hm) Hmember).
      destruct (decide (i_custom_id i = lit "code_catalog")); [reflexivity|].
      destruct (renderMessage _ _ _ _ _ _ _ _); reflexivity.
Qed.
End Answers.

Lemma follow_up_answered_by_its_session_witness :
  ∃ new, log (emit (constants:=plainConstants)
                   (Interaction (lit "m") (Some (lit "v")) (lit "next") (Some 1))
                   (run (constants:=plainConstants) twoSessions initial))
         = log (run (constants:=plainConstants) twoSessions initial) ++ new
    ∧ responses new = [].
Proof.
  destruct (follow_up_answered_by_its_session (constants:=plainConstants) twoSessions
              (Interaction (lit "m") (Some (lit "v")) (lit "next") (Some 1)))
    as (new & Hlog & _ & _ & _ & Hnone).
  exists new. split; [exact Hlog|].
  apply (Hnone (Collector (Handler 0 (lit "m") (lit "u") [abcCard] sampleUser
                                   (query [] [] false)) 0)).
  - vm_compute. reflexivity.
  - discriminate.
Defined.

(** ** Sessions end by themselves *)

Lemma bounded_initial : bounded initial.
Proof. intros x tm Hx. cbn in Hx. rewrite lookup_empty in Hx. discriminate. Qed.

Lemma advance_bounded (t : Z) (w : world) : bounded w → bounded (advance t w).
Proof.
  intros Hb x tm Hx. apply advance_timers in Hx as [Hx _].
  destruct (advance_clock t w) as [-> _]. specialize (Hb x tm Hx). lia.
Qed.

Section Expiry.
Context `{constants : embedConstants}.

Lemma step_bounded (w : world) (te : Z * event) : bounded w → bounded (step w te).
Proof.
  intros Hb. apply (advance_bounded te.1) in Hb. unfold step. destruct te.2.
  - intros x tm Hx. apply setup_timers in Hx as [[_ ->]|[_ Hx]].
    + cbn. lia.
    + apply (Hb x tm Hx).
  - exact Hb.
  - intros x tm. destruct (settle_state k fulfilled (advance te.1 w)) as (-> & _ & _ & -> & _).
    apply Hb.
Qed.

Lemma run_bounded (evs : list (Z * event)) (w : world) : bounded w → bounded (run evs w).
Proof.
  revert w. induction evs as [|te evs IH]; intros w Hb; [assumption|].
  cbn [run foldl]. apply IH, step_bounded, Hb.
Qed.

(** X18. Sessions end by themselves.  Whatever happened before, once the
    collector time has passed without further events no listener is
    subscribed, the registry is empty and no timeout is pending: every
    session is torn down by its own timeout at the latest, so the module
    keeps nothing alive for good. *)
Theorem sessions_all_expire (evs : list (Z * event)) (t : Z) :
  let w := run evs initial in
  now w + COLLECTOR_TIMEOUT ≤ t →
  listeners (advance t w) = []
  ∧ activeCollectors (advance t w) = ∅
  ∧ timers (advance t w) = ∅.
Proof.
  intros w Ht.
  assert (Hc : consistent (advance t w))
    by apply advance_consistent, run_consistent, consistent_initial.
  assert (Hb : bounded w) by apply run_bounded, bounded_initial.
  assert (Htimers : timers (advance t w) = ∅).
  { apply map_empty. intros x. destruct (timers (advance t w) !! x) as [tm|] eqn:Hx;
      [|reflexivity].
    apply advance_timers in Hx as [Hx Hlt]. specialize (Hb x tm Hx). lia. }
  assert (Hcollectors : activeCollectors (advance t w) = ∅).
  { apply map_empty. intros m. destruct (activeCollectors (advance t w) !! m) as [e|] eqn:He;
      [|reflexivity].
    destruct (collector_registered _ Hc m e He) as (_ & _ & due & Hdue).
    rewrite Htimers, lookup_empty in Hdue. discriminate. }
  split; [|split; assumption].
  destruct (listeners (advance t w)) as [|h l] eqn:Hl; [reflexivity|].
  destruct (listener_collected _ Hc h) as [th Hth]; [rewrite Hl; apply list_elem_of_here|].
  rewrite Hcollectors, lookup_empty in Hth. discriminate.
Qed.
End Expiry.

Lemma sessions_all_expire_witness :
  listeners (advance 302000 (run (constants:=plainConstants) twoSessions initial)) = []
  ∧ activeCollectors (advance 302000 (run (constants:=plainConstants) twoSessions initial)) = ∅
  ∧ timers (advance 302000 (run (constants:=plainConstants) twoSessions initial)) = ∅.
Proof.
  apply (sessions_all_expire (constants:=plainConstants) twoSessions 302000).
  vm_compute. discriminate.
Defined.

(** ** Nothing accumulates *)

Section Counting.
Context `{constants : embedConstants}.

(** X19. Listeners, registry entries and pending timeouts go together: in
    every state the process can reach there are as many subscribed
    listeners as entries of [activeCollectors], and as many pending
    timeouts; no set-up or expiry leaves a listener or a timeout behind. *)
Theorem sessions_counted (evs : list (Z * event)) :
  let w := run evs initial in
  length (listeners w) = size (activeCollectors w)
  ∧ size (timers w) = size (activeCollectors w).
Proof.
  intros w.
  assert (Hc : consistent w) by apply run_consistent, consistent_initial.
  rewrite <- !length_map_to_list.
  rewrite <- (length_fmap h_message (listeners w)).
  rewrite <- (length_fmap fst (map_to_list (activeCollectors w))).
  rewrite <- (length_fmap (fun x => t_message x.2) (map_to_list (timers w))).
  assert (Hkeys : ∀ m, m ∈ (map_to_list (activeCollectors w)).*1
                       ↔ is_Some (activeCollectors w !! m)).
  { intros m. rewrite list_elem_of_fmap. split.
    - intros ([m' e] & -> & He). apply elem_of_map_to_list in He. eauto.
    - intros [e He]. exists (m, e). split; [reflexivity|]. apply elem_of_map_to_list, He. }
  split; apply Permutation_length, NoDup_Permutation.
  - apply NoDup_fmap_2_strong.
    + intros h h' Hh Hh' Hm.
      destruct (listener_collected w Hc h Hh) as [th Hth].
      destruct (listener_collected w Hc h' Hh') as [th' Hth'].
      rewrite Hm in Hth. congruence.
    + eapply NoDup_fmap_1. apply (unique_handlers w Hc).
  - apply NoDup_fst_map_to_list.
  - intros m. rewrite Hkeys, list_elem_of_fmap. split.
    + intros (h & -> & Hh). destruct (listener_collected w Hc h Hh) as [th Hth]. eauto.
    + intros [e He]. destruct (collector_registered w Hc m e He) as (Hm & Hin & _).
      exists (c_handler e). split; [symmetry; exact Hm|exact Hin].
  - apply NoDup_fmap_2_strong.
    + intros [x tm] [x' tm'] Hx Hx' Hm. cbn [snd] in Hm.
      apply elem_of_map_to_list in Hx, Hx'.
      pose proof (timer_collected w Hc x tm Hx) as Hcol.
      pose proof (timer_collected w Hc x' tm' Hx') as Hcol'.
      rewrite Hm in Hcol. assert (x = x') as <- by congruence.
      f_equal. congruence.
    + apply NoDup_map_to_list.
  - apply NoDup_fst_map_to_list.
  - intros m. rewrite Hkeys, list_elem_of_fmap. split.
    + intros ([x tm] & -> & Hx). apply elem_of_map_to_list in Hx. cbn [snd].
      rewrite (timer_collected w Hc x tm Hx). eauto.
    + intros [e He]. destruct (collector_registered w Hc m e He) as (_ & _ & due & Hdue).
      exists (c_timeout e, Timer due m (c_handler e)). split; [reflexivity|].
      apply elem_of_map_to_list, Hdue.
Qed.
End Counting.

(** ** Turning pages *)

Lemma orOne_positive (x : Z) : 1 ≤ x → orOne x = x.
Proof. intros Hx. unfold orOne. destruct (Z.eqb_spec x 0); [lia|reflexivity]. Qed.

(** X20. Turning pages.  On a message that shows the current page,
    [next] followed by [prev] leads back to the page one started from
    unless that was the last page, and [prev] followed by [next] unless it
    was the first; [first] and [last] reach page 1 and the last page; and
    no press changes the number of pages. *)
Theorem navigation_round_trip (cards : list card) (q : Z) (i j : interaction) :
  let p := calculatePagination cards q in
  i_shownPage i = Some (currentPage p) →
  i_shownPage j = Some (currentPage (turnPage cards i)) →
  (i_custom_id i = lit "next" → i_custom_id j = lit "prev" →
   currentPage p < totalPages p → turnPage cards j = p)
  ∧ (i_custom_id i = lit "prev" → i_custom_id j = lit "next" →
     1 < currentPage p → turnPage cards j = p)
  ∧ (i_custom_id i = lit "first" → currentPage (turnPage cards i) = 1)
  ∧ (i_custom_id i = lit "last" → currentPage (turnPage cards i) = totalPages p)
  ∧ totalPages (turnPage cards i) = totalPages p.
Proof.
  intros p Hi Hj. subst p.
  destruct (calculatePagination_bounds cards q) as (Htot & Hcur).
  pose proof (ceilDiv_nonneg (length cards)) as Hceil.
  unfold turnPage in *. unfold calculateNewPage in *. rewrite Hj, Hi. clear Hi Hj.
  cbn [default from_option id].
  split; [|split; [|split; [|split]]].
  - intros -> -> Hlt. apply calculatePagination_eq.
    rewrite decide_False by discriminate. rewrite decide_True by reflexivity.
    do 2 rewrite decide_False by discriminate. rewrite decide_True by reflexivity.
    unfold calculatePagination in *. cbn [currentPage totalPages] in *.
    set (pages := ceilDiv (Z.of_nat (length cards)) PAGE_SIZE) in *.
    set (cur := Z.max 1 (Z.min (orOne q) (Z.max 1 pages))) in *.
    rewrite (orOne_positive (Z.min pages (cur + 1))) by lia.
    rewrite orOne_positive by lia. lia.
  - intros -> -> Hlt. apply calculatePagination_eq.
    do 2 rewrite decide_False by discriminate. rewrite decide_True by reflexivity.
    rewrite decide_False by discriminate. rewrite decide_True by reflexivity.
    unfold calculatePagination in *. cbn [currentPage totalPages] in *.
    set (pages := ceilDiv (Z.of_nat (length cards)) PAGE_SIZE) in *.
    set (cur := Z.max 1 (Z.min (orOne q) (Z.max 1 pages))) in *.
    rewrite (orOne_positive (Z.max 1 (cur - 1))) by lia.
    rewrite orOne_positive by lia. lia.
  - intros ->. rewrite decide_True by reflexivity.
    unfold calculatePagination, orOne. cbn [currentPage]. cbn. lia.
  - intros ->. do 3 rewrite decide_False by discriminate. rewrite decide_True by reflexivity.
    unfold calculatePagination in *. cbn [currentPage totalPages] in *.
    unfold orOne. destruct (Z.eqb_spec (ceilDiv (Z.of_nat (length cards)) PAGE_SIZE) 0); lia.
  - reflexivity.
Qed.

Lemma navigation_round_trip_witness :
  turnPage (replicate 30 abcCard) (press "prev" 3)
  = calculatePagination (replicate 30 abcCard) 2.
Proof.
  destruct (navigation_round_trip (replicate 30 abcCard) 2 (press "next" 2) (press "prev" 3))
    as (Hback & _); [reflexivity|reflexivity|].
  apply Hback; [reflexivity|reflexivity|]. vm_compute. reflexivity.
Defined.
